(** * BlackRoad animation controller: skeleton, kinematics, clips, animator

    A shallow embedding of [src/animation_controller.py].

    Numbers.  In the first part Python's [float] is idealised as a real
    number ([R]): every arithmetic operation is exact, there is no
    rounding, no infinity and no NaN.  [math.dist], [math.cos], [math.sin]
    and [math.atan2] are the mathematical functions.  What is proved there
    is meant of the code up to the rounding of the last place.  Two
    properties do not survive rounding, because they turn on which side of
    a threshold a number falls (the end of a timed transition, the seam of
    a looping clip): for these the clips and the Animator's own fields are
    embedded a second time, in [F64], on binary64 floats.

    State.  Python objects are mutated in place; here every operation takes
    the store it works on and returns the new one.  An operation that can
    raise returns a [result]; an Animator method returns the outcome
    together with the Animator as it is when the method exits, so that a
    raised exception and the state it leaves behind are both visible. *)

From Stdlib Require Import Reals Lra Lia ZArith Sorted Classical.
From Stdlib Require Floats.
From stdpp Require Import gmap strings list fin_maps.

Local Open Scope R_scope.

(** ** Outcomes *)

Inductive exn : Type :=
  | ValueError      (* raised by the Animator on an unknown clip name *)
  | IndexError      (* a list index out of range *)
  | OutOfFuel.      (* the fuel of a loop or recursion of the model ran out:
                       the Python code would still be running *)

Inductive result (A : Type) : Type :=
  | Ok (a : A)
  | Raise (e : exn).
Arguments Ok {A} a.
Arguments Raise {A} e.

#[global] Instance result_ret : MRet result := λ A a, Ok a.
#[global] Instance result_bind : MBind result := λ A B k m,
  match m with
  | Ok a => k a
  | Raise e => Raise e
  end.

(** [for x in xs: s = body x s], stopping at the first exception. *)
Fixpoint for_each {A S} (xs : list A) (body : A → S → result S) (s : S)
  : result S :=
  match xs with
  | [] => Ok s
  | x :: xs' => s' ← body x s; for_each xs' body s'
  end.

(** [xs[i]] of Python, for [i] in range. *)
Definition nth_or_raise {A} (xs : list A) (i : nat) : result A :=
  match xs !! i with
  | Some x => Ok x
  | None => Raise IndexError
  end.

(** ** Float helpers *)

(** [math.dist] on points of the plane. *)
Definition dist (p q : R * R) : R :=
  sqrt ((p.1 - q.1) * (p.1 - q.1) + (p.2 - q.2) * (p.2 - q.2)).

(** [math.atan2(y, x)]: the angle of the vector [(x, y)], in (-PI, PI],
    with [atan2(0, 0) = 0]. *)
Definition atan2 (y x : R) : R :=
  if Rlt_dec 0 x then atan (y / x)
  else if Rlt_dec x 0 then
    (if Rle_dec 0 y then atan (y / x) + PI else atan (y / x) - PI)
  else if Rlt_dec 0 y then PI / 2
  else if Rlt_dec y 0 then - (PI / 2)
  else 0.

(** [a % b] on floats: the remainder has the sign of the divisor. *)
Definition fmod (a b : R) : R := a - b * IZR (Zfloor (a / b)).

(** The literal [1e-9]. *)
Definition eps : R := / 1000000000.

(** ** Enums *)

Inductive PlaybackState := STOPPED | PLAYING | PAUSED | BLENDING.
Inductive LoopMode := ONCE | LOOP | PING_PONG.
Inductive InterpolationType := LINEAR | STEP | CUBIC.

#[global] Instance PlaybackState_eq_dec : EqDecision PlaybackState.
Proof. solve_decision. Defined.

(** ** Bone *)

Module Bone.
Record t : Type := mk {
  id : Z;
  name : string;
  parent_id : option Z;
  length : R;
  rest_angle : R;
  current_angle : R;
  world_x : R;
  world_y : R;
  world_angle : R;
  weight : R
}.

Definition tip_x (b : t) : R := world_x b + length b * cos (world_angle b).
Definition tip_y (b : t) : R := world_y b + length b * sin (world_angle b).

(** The three assignments [bone.world_x = x; bone.world_y = y;
    bone.world_angle = a]. *)
Definition set_world (x y a : R) (b : t) : t :=
  mk (id b) (name b) (parent_id b) (length b) (rest_angle b)
     (current_angle b) x y a (weight b).

(** [bone.current_angle = a]. *)
Definition set_current_angle (a : R) (b : t) : t :=
  mk (id b) (name b) (parent_id b) (length b) (rest_angle b)
     a (world_x b) (world_y b) (world_angle b) (weight b).
End Bone.

(** ** Skeleton *)

(** [Skeleton.bones] is a dict keyed by bone id; its values are kept here in
    the dict's insertion order, each bone carrying its key in [Bone.id]. *)
Record Skeleton : Type := mkSkeleton {
  bones : list Bone.t;
  root_x : R;
  root_y : R
}.

(** The keys of a dict are pairwise distinct. *)
Definition skeleton_wf (sk : Skeleton) : Prop :=
  NoDup (Bone.id <$> bones sk).

Definition has_id (i : Z) (b : Bone.t) : bool := bool_decide (Bone.id b = i).

Definition get_bone (sk : Skeleton) (bone_id : Z) : option Bone.t :=
  List.find (has_id bone_id) (bones sk).

(** [get_bone_by_name]: the first bone of that name, in the order of the
    dict. *)
Definition get_bone_by_name (sk : Skeleton) (name : string) : option Bone.t :=
  List.find (λ b, bool_decide (Bone.name b = name)) (bones sk).

(** In-place mutation of the bone stored under [bone_id]. *)
Fixpoint update_first (i : Z) (f : Bone.t → Bone.t) (bs : list Bone.t)
  : list Bone.t :=
  match bs with
  | [] => []
  | b :: bs' => if has_id i b then f b :: bs' else b :: update_first i f bs'
  end.

Definition update_bone (sk : Skeleton) (bone_id : Z) (f : Bone.t → Bone.t)
  : Skeleton :=
  mkSkeleton (update_first bone_id f (bones sk)) (root_x sk) (root_y sk).

(** [self.bones[bone.id] = bone]: overwrite in place or append. *)
Definition add_bone (sk : Skeleton) (bone : Bone.t) : Skeleton :=
  match get_bone sk (Bone.id bone) with
  | Some _ => update_bone sk (Bone.id bone) (λ _, bone)
  | None => mkSkeleton (bones sk ++ [bone]) (root_x sk) (root_y sk)
  end.

(** [Skeleton(bones)]. *)
Definition Skeleton_init (bs : list Bone.t) : Skeleton :=
  foldl add_bone (mkSkeleton [] 0 0) bs.

Definition get_children (sk : Skeleton) (parent_id : Z) : list Bone.t :=
  filter (λ b, Bone.parent_id b = Some parent_id) (bones sk).

Definition root_bones (sk : Skeleton) : list Bone.t :=
  filter (λ b, Bone.parent_id b = None) (bones sk).

(** The [while] loop of [get_chain]: [chain] is kept in walk order (end
    bone first), [visited] is the set of ids seen.  Each turn adds a new id
    of the skeleton to [visited], so the loop stops after at most
    [length (bones sk)] turns; [fuel] counts the turns allowed. *)
Fixpoint get_chain_loop (fuel : nat) (sk : Skeleton) (bid : option Z)
    (visited : gset Z) (chain : list Bone.t) : result (list Bone.t) :=
  match bid with
  | None => Ok chain
  | Some i =>
    if decide (i ∈ visited) then Ok chain
    else match get_bone sk i with
         | None => Ok chain
         | Some bone =>
           match fuel with
           | O => Raise OutOfFuel
           | S fuel' =>
             get_chain_loop fuel' sk (Bone.parent_id bone) ({[i]} ∪ visited)
                            (chain ++ [bone])
           end
         end
  end.

(** [get_chain]: the chain from the root to [end_bone_id]. *)
Definition get_chain (sk : Skeleton) (end_bone_id : Z) : result (list Bone.t) :=
  chain ← get_chain_loop (Datatypes.length (bones sk)) sk (Some end_bone_id) ∅ [];
  Ok (reverse chain).

(** ** Forward kinematics *)

(** The inner function [_process] of [calculate_forward_kinematics].  The
    object [bone] is shared with the store, so [bone.tip_x], [bone.tip_y] and
    [bone.world_angle] are read from the store of the moment, once per child.
    The list of children is computed once, before the first child is
    processed.  [fuel] bounds the depth of the recursion.  The branch
    [None] of the inner lookup stands for no path of the source: the
    traversal never removes a bone, so [bone] is still stored. *)
Fixpoint _process (fuel : nat) (sk : Skeleton) (bone_id : Z)
    (parent_world_x parent_world_y parent_world_angle : R) : result Skeleton :=
  match fuel with
  | O => Raise OutOfFuel
  | S fuel' =>
    match get_bone sk bone_id with
    | None => Ok sk
    | Some bone =>
      let sk1 :=
        update_bone sk bone_id
          (Bone.set_world parent_world_x parent_world_y
             (parent_world_angle + Bone.rest_angle bone + Bone.current_angle bone)) in
      for_each (Bone.id <$> get_children sk1 bone_id)
        (λ child_id s,
           match get_bone s bone_id with
           | Some b =>
             _process fuel' s child_id
               (Bone.tip_x b) (Bone.tip_y b) (Bone.world_angle b)
           | None => Raise IndexError
           end)
        sk1
    end
  end.

(** The recursion is at most as deep as the skeleton has bones. *)
Definition calculate_forward_kinematics (sk : Skeleton) : result Skeleton :=
  for_each (Bone.id <$> root_bones sk)
    (λ root_id s,
       _process (S (Datatypes.length (bones s))) s root_id
         (root_x s) (root_y s) 0)
    sk.

(** ** Keyframe and Clip *)

Module Keyframe.
Record t : Type := mk {
  time : R;
  bone_angles : gmap Z R;
  easing : InterpolationType
}.
End Keyframe.

Module Clip.
Record t : Type := mk {
  name : string;
  keyframes : list Keyframe.t;
  loop : bool;
  fps : R;
  loop_mode : LoopMode
}.

(** The property [duration]: the time of the last keyframe. *)
Definition duration (c : t) : R :=
  match last (keyframes c) with
  | None => 0
  | Some k => Keyframe.time k
  end.

(** [list.sort(key=lambda k: k.time)].  Python's sort is stable: its result
    is the arrangement of the list that ascends in the key and keeps
    keyframes of equal time in the order they had.  This insertion sort
    computes that arrangement: an element is put before the first later
    element whose time is not smaller. *)
Fixpoint insert_by_time (k : Keyframe.t) (kfs : list Keyframe.t)
  : list Keyframe.t :=
  match kfs with
  | [] => [k]
  | k' :: kfs' =>
    if Rle_dec (Keyframe.time k) (Keyframe.time k') then k :: kfs
    else k' :: insert_by_time k kfs'
  end.

Definition sort_by_time (kfs : list Keyframe.t) : list Keyframe.t :=
  foldr insert_by_time [] kfs.

(** [add_keyframe]: append, then sort by time. *)
Definition add_keyframe (c : t) (keyframe : Keyframe.t) : t :=
  mk (name c) (sort_by_time (keyframes c ++ [keyframe])) (loop c) (fps c)
     (loop_mode c).

(** "Handle looping": the time at which the keyframes are looked up. *)
Definition normalize (c : t) (t0 : R) : R :=
  let duration := duration c in
  if Rlt_dec 0 duration then
    match loop_mode c with
    | LOOP => fmod t0 duration
    | PING_PONG =>
      let cycle := fmod t0 (duration * 2) in
      if Rle_dec cycle duration then cycle else duration * 2 - cycle
    | ONCE => Rmin t0 duration
    end
  else t0.

(** The body of the scan once the bracketing pair [(k0, k1)] is found:
    the ids of both keyframes, an id missing on one side counting as 0. *)
Definition interpolate (k0 k1 : Keyframe.t) (t0 : R) : gmap Z R :=
  let span := Keyframe.time k1 - Keyframe.time k0 in
  let alpha := if Rlt_dec 0 span then (t0 - Keyframe.time k0) / span else 0 in
  let alpha :=
    match Keyframe.easing k0 with
    | CUBIC => alpha * alpha * (3 - 2 * alpha)
    | STEP => 0
    | LINEAR => alpha
    end in
  merge (λ o0 o1,
           match o0, o1 with
           | None, None => None
           | _, _ =>
             let a0 := default 0 o0 in
             let a1 := default 0 o1 in
             Some (a0 + (a1 - a0) * alpha)
           end)
        (Keyframe.bone_angles k0) (Keyframe.bone_angles k1).

(** [for i in range(len(kfs) - 1)]: the first adjacent pair that brackets
    [t0], if there is one. *)
Fixpoint scan (kfs : list Keyframe.t) (t0 : R) : option (gmap Z R) :=
  match kfs with
  | k0 :: ((k1 :: _) as rest) =>
    if Rle_dec (Keyframe.time k0) t0 then
      if Rle_dec t0 (Keyframe.time k1) then Some (interpolate k0 k1 t0)
      else scan rest t0
    else scan rest t0
  | _ => None
  end.

Definition sample (c : t) (t0 : R) : gmap Z R :=
  match keyframes c, last (keyframes c) with
  | first :: _, Some final =>
    let t1 := normalize c t0 in
    if Rle_dec t1 (Keyframe.time first) then Keyframe.bone_angles first
    else if Rge_dec t1 (Keyframe.time final) then Keyframe.bone_angles final
    else match scan (keyframes c) t1 with
         | Some pose => pose
         | None => Keyframe.bone_angles final
         end
  | _, _ => ∅
  end.
End Clip.

(** ** Animator *)

Record Animator : Type := mkAnimator {
  skeleton : Skeleton;
  clips : gmap string Clip.t;
  state : PlaybackState;
  current_clip : option string;
  blend_clip : option string;
  blend_alpha : R;
  _time : R;
  _speed : R;
  _blend_duration : R;
  _blend_time : R
}.

(** [Animator(skeleton, clips)]. *)
Definition Animator_init (sk : Skeleton) (cl : gmap string Clip.t) : Animator :=
  mkAnimator sk cl STOPPED None None 0 0 1 0 0.

(** [if name:] on an [Optional[str]]: [None] and the empty string are
    false; when the test succeeds the string is returned. *)
Definition truthy (o : option string) : option string :=
  match o with
  | Some s => if bool_decide (s = ""%string) then None else Some s
  | None => None
  end.

Definition add_clip (a : Animator) (clip : Clip.t) : Animator :=
  mkAnimator (skeleton a) (<[Clip.name clip := clip]> (clips a)) (state a)
    (current_clip a) (blend_clip a) (blend_alpha a) (_time a) (_speed a)
    (_blend_duration a) (_blend_time a).

Definition play (a : Animator) (clip_name : string) (reset_time : bool)
    (speed : R) : result unit * Animator :=
  match clips a !! clip_name with
  | None => (Raise ValueError, a)
  | Some _ =>
    (Ok (),
     mkAnimator (skeleton a) (clips a) PLAYING (Some clip_name) None 0
       (if reset_time then 0 else _time a) speed
       (_blend_duration a) (_blend_time a))
  end.

Definition stop (a : Animator) : Animator :=
  mkAnimator (skeleton a) (clips a) STOPPED None (blend_clip a)
    (blend_alpha a) 0 (_speed a) (_blend_duration a) (_blend_time a).

Definition set_state (s : PlaybackState) (a : Animator) : Animator :=
  mkAnimator (skeleton a) (clips a) s (current_clip a) (blend_clip a)
    (blend_alpha a) (_time a) (_speed a) (_blend_duration a) (_blend_time a).

Definition pause (a : Animator) : Animator :=
  match state a with
  | PLAYING => set_state PAUSED a
  | _ => a
  end.

Definition resume (a : Animator) : Animator :=
  match state a with
  | PAUSED => set_state PLAYING a
  | _ => a
  end.

Definition blend (a : Animator) (clip1 clip2 : string) (alpha : R)
  : result unit * Animator :=
  match clips a !! clip1, clips a !! clip2 with
  | Some _, Some _ =>
    (Ok (),
     mkAnimator (skeleton a) (clips a) BLENDING (Some clip1) (Some clip2)
       (Rmax 0 (Rmin 1 alpha)) (_time a) (_speed a)
       (_blend_duration a) (_blend_time a))
  | _, _ => (Raise ValueError, a)
  end.

Definition transition_to (a : Animator) (clip_name : string) (duration : R)
  : result unit * Animator :=
  match clips a !! clip_name with
  | None => (Raise ValueError, a)
  | Some _ =>
    match truthy (current_clip a) with
    | Some _ =>
      (Ok (),
       mkAnimator (skeleton a) (clips a) BLENDING (current_clip a)
         (Some clip_name) (blend_alpha a) (_time a) (_speed a) duration 0)
    | None => play a clip_name true 1
    end
  end.

(** [self._time += dt * self._speed]. *)
Definition advance_clock (a : Animator) (dt : R) : Animator :=
  mkAnimator (skeleton a) (clips a) (state a) (current_clip a)
    (blend_clip a) (blend_alpha a) (_time a + dt * _speed a) (_speed a)
    (_blend_duration a) (_blend_time a).

(** The timed-transition block of [update]: runs when the state is
    Blending and [_blend_duration] is positive. *)
Definition advance_blend (a : Animator) (dt : R) : Animator :=
  match state a with
  | BLENDING =>
    if Rlt_dec 0 (_blend_duration a) then
      let blend_time := _blend_time a + dt in
      let alpha := Rmin 1 (blend_time / _blend_duration a) in
      if Rge_dec alpha 1 then
        mkAnimator (skeleton a) (clips a) PLAYING (blend_clip a) None 0
          (_time a) (_speed a) (_blend_duration a) blend_time
      else
        mkAnimator (skeleton a) (clips a) (state a) (current_clip a)
          (blend_clip a) alpha (_time a) (_speed a) (_blend_duration a)
          blend_time
    else a
  | _ => a
  end.

(** The per-bone mix of two poses, over the ids of both. *)
Definition blend_poses (pose blend_pose : gmap Z R) (alpha : R) : gmap Z R :=
  merge (λ oa ob,
           match oa, ob with
           | None, None => None
           | _, _ =>
             let x := default 0 oa in
             let y := default 0 ob in
             Some (x + (y - x) * alpha)
           end)
        pose blend_pose.

(** "Apply angles to skeleton": bones the pose does not name, and ids the
    skeleton does not have, are skipped.  The keys of the pose are distinct,
    so each bone is written at most once, whatever the order of the items. *)
Definition apply_pose (sk : Skeleton) (pose : gmap Z R) : Skeleton :=
  map_fold (λ bone_id angle s,
              match get_bone s bone_id with
              | Some _ => update_bone s bone_id (Bone.set_current_angle angle)
              | None => s
              end)
           sk pose.

Definition set_skeleton (sk : Skeleton) (a : Animator) : Animator :=
  mkAnimator sk (clips a) (state a) (current_clip a) (blend_clip a)
    (blend_alpha a) (_time a) (_speed a) (_blend_duration a) (_blend_time a).

(** The pose written by [update]: the current clip sampled at the clock,
    mixed with the blend clip when one is set and present. *)
Definition current_pose (a : Animator) : option (gmap Z R) :=
  match truthy (current_clip a) with
  | Some cname =>
    match clips a !! cname with
    | Some clip =>
      let pose := Clip.sample clip (_time a) in
      match truthy (blend_clip a) with
      | Some bname =>
        match clips a !! bname with
        | Some bclip =>
          Some (blend_poses pose (Clip.sample bclip (_time a)) (blend_alpha a))
        | None => Some pose
        end
      | None => Some pose
      end
    | None => None
    end
  | None => None
  end.

(** [update].  FK is the only call in it that the model lets raise, and only
    when its fuel runs out, which [update_returns] below excludes for a
    skeleton with distinct ids; the Animator is then returned as the
    statements before FK left it. *)
Definition update (a : Animator) (dt : R) : result unit * Animator :=
  match state a with
  | STOPPED | PAUSED => (Ok (), a)
  | _ =>
    let a2 := advance_blend (advance_clock a dt) dt in
    match current_pose a2 with
    | Some pose =>
      let sk1 := apply_pose (skeleton a2) pose in
      match calculate_forward_kinematics sk1 with
      | Ok sk2 => (Ok (), set_skeleton sk2 a2)
      | Raise e => (Raise e, set_skeleton sk1 a2)
      end
    | None => (Ok (), a2)
    end
  end.

(** ** Inverse kinematics: FABRIK *)

(** [xs[i] = x] of Python, for [i] in range. *)
Definition set_or_raise {A} (xs : list A) (i : nat) (x : A) : result (list A) :=
  if decide (i < Datatypes.length xs)%nat then Ok (<[i := x]> xs)
  else Raise IndexError.

(** [(r if r > 0 else 1e-9)]. *)
Definition denom (r : R) : R := if Rlt_dec 0 r then r else eps.

(** [(1 - lam) * p + lam * q], coordinate by coordinate. *)
Definition lerp (lam : R) (p q : R * R) : R * R :=
  ((1 - lam) * p.1 + lam * q.1, (1 - lam) * p.2 + lam * q.2).

(** [sum(bone_lengths)]. *)
Definition sum_list (xs : list R) : R := foldl Rplus 0 xs.

(** One turn of the loop of the out-of-reach branch. *)
Definition stretch_step (bone_lengths : list R) (target : R * R) (i : nat)
    (positions : list (R * R)) : result (list (R * R)) :=
  p ← nth_or_raise positions i;
  len ← nth_or_raise bone_lengths i;
  let r := dist p target in
  let lam := len / denom r in
  set_or_raise positions (S i) (lerp lam p target).

(** One turn of the loop the source calls "forward reaching": joint [i] is
    moved to the bone's length from joint [i + 1]. *)
Definition forward_step (bone_lengths : list R) (i : nat)
    (positions : list (R * R)) : result (list (R * R)) :=
  p ← nth_or_raise positions i;
  q ← nth_or_raise positions (S i);
  len ← nth_or_raise bone_lengths i;
  let r := dist p q in
  let lam := len / denom r in
  set_or_raise positions i (lerp lam q p).

(** One turn of the loop the source calls "backward reaching": joint
    [i + 1] is moved to the bone's length from joint [i]. *)
Definition backward_step (bone_lengths : list R) (i : nat)
    (positions : list (R * R)) : result (list (R * R)) :=
  p ← nth_or_raise positions i;
  q ← nth_or_raise positions (S i);
  len ← nth_or_raise bone_lengths i;
  let r := dist p q in
  let lam := len / denom r in
  set_or_raise positions (S i) (lerp lam p q).

(** The body of [for _ in range(iterations)], up to the test for [break]. *)
Definition fabrik_pass (bone_lengths : list R) (root_pos target : R * R)
    (positions : list (R * R)) : result (list (R * R)) :=
  let n := Datatypes.length positions in
  ps ← set_or_raise positions (n - 1) target;
  ps ← for_each (reverse (seq 0 (n - 1))) (forward_step bone_lengths) ps;
  ps ← set_or_raise ps 0 root_pos;
  for_each (seq 0 (n - 1)) (backward_step bone_lengths) ps.

Fixpoint fabrik_loop (iterations : nat) (bone_lengths : list R)
    (root_pos target : R * R) (tolerance : R) (positions : list (R * R))
  : result (list (R * R)) :=
  match iterations with
  | O => Ok positions
  | S iterations' =>
    ps ← fabrik_pass bone_lengths root_pos target positions;
    tip ← nth_or_raise ps (Datatypes.length ps - 1);
    if Rlt_dec (dist tip target) tolerance then Ok ps
    else fabrik_loop iterations' bone_lengths root_pos target tolerance ps
  end.

(** "Collect current positions": the joints of the chain, then the tip of
    its last bone [final]. *)
Definition initial_positions (chain : list Bone.t) (final : Bone.t)
  : list (R * R) :=
  ((λ b, (Bone.world_x b, Bone.world_y b)) <$> chain)
    ++ [(Bone.tip_x final, Bone.tip_y final)].

(** The list [positions] as it is when the solve is over: lines "Collect
    current positions" to the end of the [if]/[else].  [range(iterations)]
    has [Z.to_nat iterations] elements: none when [iterations <= 0]. *)
Definition ik_positions (chain : list Bone.t) (target : R * R)
    (iterations : Z) (tolerance : R) : result (list (R * R)) :=
  final ← nth_or_raise chain (Datatypes.length chain - 1);
  let positions := initial_positions chain final in
  let bone_lengths := Bone.length <$> chain in
  root_pos ← nth_or_raise positions 0;
  let total_length := sum_list bone_lengths in
  let dist_to_target := dist root_pos target in
  if Rlt_dec total_length dist_to_target then
    for_each (seq 0 (Datatypes.length positions - 1))
      (stretch_step bone_lengths target) positions
  else
    fabrik_loop (Z.to_nat iterations) bone_lengths root_pos target tolerance
      positions.

(** One turn of "Apply positions back to bones as angles".  [bone] is the
    object of the chain, shared with the store: its [parent_id] and
    [rest_angle] are never assigned, the parent's [world_angle] is read from
    the store of the moment. *)
Definition apply_step (positions : list (R * R)) (ib : nat * Bone.t)
    (s : Skeleton) : result Skeleton :=
  let '(i, bone) := ib in
  p ← nth_or_raise positions i;
  q ← nth_or_raise positions (S i);
  let dx := q.1 - p.1 in
  let dy := q.2 - p.2 in
  let world_angle := atan2 dy dx in
  let parent_world_angle :=
    match Bone.parent_id bone with
    | Some pid =>
      match get_bone s pid with
      | Some parent => Bone.world_angle parent
      | None => 0
      end
    | None => 0
    end in
  Ok (update_bone s (Bone.id bone)
        (λ b, Bone.set_world p.1 p.2 world_angle
                (Bone.set_current_angle
                   (world_angle - parent_world_angle - Bone.rest_angle bone) b))).

Definition calculate_inverse_kinematics (sk : Skeleton) (end_effector_id : Z)
    (target_x target_y : R) (iterations : Z) (tolerance : R)
  : result (bool * Skeleton) :=
  chain ← get_chain sk end_effector_id;
  if decide (Datatypes.length chain < 2)%nat then Ok (false, sk)
  else
    let target := (target_x, target_y) in
    positions ← ik_positions chain target iterations tolerance;
    sk' ← for_each (zip (seq 0 (Datatypes.length chain)) chain)
            (apply_step positions) sk;
    tip ← nth_or_raise positions (Datatypes.length positions - 1);
    Ok (if Rlt_dec (dist tip target) tolerance then true else false, sk').


(** ** Callers of the Animator *)

(** A caller that calls [update] once per element of [dts] and stops at
    the first call that raises. *)
Fixpoint run_updates (a : Animator) (dts : list R) : result unit * Animator :=
  match dts with
  | [] => (Ok (), a)
  | dt :: dts' =>
    match update a dt with
    | (Ok _, a') => run_updates a' dts'
    | (Raise e, a') => (Raise e, a')
    end
  end.

(** The calls a client can make on an Animator. *)
Inductive op : Type :=
  | OpPlay (clip_name : string) (reset_time : bool) (speed : R)
  | OpStop
  | OpPause
  | OpResume
  | OpBlend (clip1 clip2 : string) (alpha : R)
  | OpTransitionTo (clip_name : string) (duration : R)
  | OpAddClip (clip : Clip.t)
  | OpUpdate (dt : R).

(** The Animator after one call, whether the call returned or raised. *)
Definition run_op (a : Animator) (o : op) : Animator :=
  match o with
  | OpPlay n r s => (play a n r s).2
  | OpStop => stop a
  | OpPause => pause a
  | OpResume => resume a
  | OpBlend c1 c2 x => (blend a c1 c2 x).2
  | OpTransitionTo n d => (transition_to a n d).2
  | OpAddClip c => add_clip a c
  | OpUpdate dt => (update a dt).2
  end.

(** An [update] is given a non-negative [dt]. *)
Definition nonneg_dt (o : op) : Prop :=
  match o with
  | OpUpdate dt => 0 <= dt
  | _ => True
  end.

(** The sum of the [dt] of a run of updates. *)
Definition total_dt (dts : list R) : R := foldr Rplus 0 dts.

(** ** Vocabulary for the Animator proofs *)

(** Two Animators that agree on everything but the skeleton. *)
Definition playback_eq (a b : Animator) : Prop :=
  clips a = clips b ∧ state a = state b ∧ current_clip a = current_clip b ∧
  blend_clip a = blend_clip b ∧ blend_alpha a = blend_alpha b ∧
  _time a = _time b ∧ _speed a = _speed b ∧
  _blend_duration a = _blend_duration b ∧ _blend_time a = _blend_time b.

(** What [update] relies on to keep [blend_alpha] in range. *)
Definition alpha_inv (a : Animator) : Prop :=
  0 <= blend_alpha a <= 1 ∧ 0 <= _blend_time a.

(** ** Vocabulary for the forward-kinematics proofs *)

(** The fields of a bone that neither FK nor IK assigns... *)
Definition links (b : Bone.t) : Z * option Z := (Bone.id b, Bone.parent_id b).

(** ... and those FK never assigns. *)
Definition static (b : Bone.t) : Z * string * option Z * R * R * R * R :=
  (Bone.id b, Bone.name b, Bone.parent_id b, Bone.length b,
   Bone.rest_angle b, Bone.current_angle b, Bone.weight b).

(** Two skeletons with the same bones in the same order, up to the world
    fields. *)
Definition same_static (sk' sk : Skeleton) : Prop :=
  static <$> bones sk' = static <$> bones sk ∧
  root_x sk' = root_x sk ∧ root_y sk' = root_y sk.

(** The parent link of the bone stored under [i]. *)
Definition parent_of (sk : Skeleton) (i : Z) : option (option Z) :=
  Bone.parent_id <$> get_bone sk i.

(** [depth sk i n]: following parent links from bone [i] reaches a root
    bone after [n] links. *)
Inductive depth (sk : Skeleton) : Z → nat → Prop :=
  | depth_root i : parent_of sk i = Some None → depth sk i 0
  | depth_child i p n :
      parent_of sk i = Some (Some p) → depth sk p n → depth sk i (S n).

(** [under sk i j]: bone [j] is [i] or has [i] among its ancestors. *)
Inductive under (sk : Skeleton) (i : Z) : Z → Prop :=
  | under_refl : under sk i i
  | under_step j p :
      parent_of sk j = Some (Some p) → under sk i p → under sk i j.

(** A bone set at the position [(x, y)], its angle added to [a]. *)
Definition set_at (x y a : R) (b : Bone.t) : Prop :=
  Bone.world_x b = x ∧ Bone.world_y b = y ∧
  Bone.world_angle b = a + Bone.rest_angle b + Bone.current_angle b.

(** The bone stored under [j] starts at the tip of its parent and adds its
    angles to the parent's. *)
Definition placed (sk : Skeleton) (j : Z) : Prop :=
  ∀ c p P, get_bone sk j = Some c → Bone.parent_id c = Some p →
    get_bone sk p = Some P →
    set_at (Bone.tip_x P) (Bone.tip_y P) (Bone.world_angle P) c.

(** What a call of [_process] on bone [i] achieves. *)
Definition process_post (sk : Skeleton) (i : Z) (px py pa : R)
    (sk' : Skeleton) : Prop :=
  same_static sk' sk ∧
  (∀ j, ¬ under sk i j → get_bone sk' j = get_bone sk j) ∧
  (∀ b', get_bone sk' i = Some b' → set_at px py pa b') ∧
  (∀ j, under sk i j → j ≠ i → placed sk' j).

(** ** Vocabulary for the inverse-kinematics proofs *)

(** The bones of a chain are stored bones, found under their own ids. *)
Definition stored (sk : Skeleton) (chain : list Bone.t) : Prop :=
  ∀ b, b ∈ chain → get_bone sk (Bone.id b) = Some b.

(** The position of the first joint of a chain, as [positions[0]] has it. *)
Definition chain_root (chain : list Bone.t) : R * R :=
  match head chain with
  | Some b => (Bone.world_x b, Bone.world_y b)
  | None => (0, 0)
  end.




(** What the write-back loop leaves in the bone of the chain's place [k]. *)
Definition written (positions : list (R * R)) (k : nat) (b b' : Bone.t) : Prop :=
  ∃ p q, positions !! k = Some p ∧ positions !! S k = Some q ∧
    Bone.world_x b' = p.1 ∧ Bone.world_y b' = p.2 ∧
    Bone.world_angle b' = atan2 (q.2 - p.2) (q.1 - p.1) ∧
    Bone.length b' = Bone.length b ∧ links b' = links b ∧
    Bone.rest_angle b' = Bone.rest_angle b.

(** ** Sample data *)

(** A looping clip of duration 1 that swings bone 1 from 0 to 1. *)
Definition demo_clip (n : string) : Clip.t :=
  Clip.mk n
    [Keyframe.mk 0 {[ 1%Z := 0 ]} LINEAR; Keyframe.mk 1 {[ 1%Z := 1 ]} LINEAR]
    true 24 LOOP.

(** A Once clip whose two keyframes share the time 1. *)
Definition tied_clip : Clip.t :=
  Clip.mk "tied"
    [Keyframe.mk 1 {[ 0%Z := 1 ]} LINEAR; Keyframe.mk 1 {[ 0%Z := 2 ]} LINEAR]
    false 24 ONCE.

(** A bone as [Bone(i, "bone", parent, length=len)] constructs it. *)
Definition demo_bone (i : Z) (parent : option Z) (len : R) : Bone.t :=
  Bone.mk i "bone" parent len 0 0 0 0 0 1.

(** Two bones of length 1 in a line, as the constructor leaves them. *)
Definition two_bones : Skeleton :=
  Skeleton_init [demo_bone 0 None 1; demo_bone 1 (Some 0%Z) 1].

(** A bone with its world position given, all angles 0. *)
Definition posed_bone (i : Z) (parent : option Z) (len x y : R) : Bone.t :=
  Bone.mk i "bone" parent len 0 0 x y 0 1.

(** Two bones of length 1 along the x axis from the origin: the pose FK
    gives [two_bones]. *)
Definition rest_pose : Skeleton :=
  Skeleton_init [posed_bone 0 None 1 0 0; posed_bone 1 (Some 0%Z) 1 1 0].

(** An Animator over [two_bones] with the clips "A" and "B". *)
Definition demo_animator : Animator :=
  Animator_init two_bones
    {[ "A"%string := demo_clip "A"; "B"%string := demo_clip "B" ]}.

(** ** Vocabulary for the chain proofs *)

(** In walk order each bone is followed by its parent. *)
Definition linked_up (walk : list Bone.t) : Prop :=
  ∀ k b c, walk !! k = Some b → walk !! S k = Some c →
    Bone.parent_id b = Some (Bone.id c).

(** Why the walk stopped at its last bone: it has no parent, or its parent
    is not stored, or its parent was already walked. *)
Definition walk_end (sk : Skeleton) (walk : list Bone.t) : Prop :=
  ∀ r p, last walk = Some r → Bone.parent_id r = Some p →
    get_bone sk p = None ∨ p ∈ Bone.id <$> walk.

(** Every connected bone sits where FK puts it. *)
Definition fk_consistent (sk : Skeleton) : Prop :=
  (∀ r b, parent_of sk r = Some None → get_bone sk r = Some b →
     set_at (root_x sk) (root_y sk) 0 b) ∧
  (∀ j n, depth sk j (S n) → placed sk j).

(** ** Vocabulary for the clip proofs *)

#[global] Instance R_eq_dec : EqDecision R := Req_dec_T.

(** Keyframes in ascending order of time. *)
Definition ascending (kfs : list Keyframe.t) : Prop :=
  StronglySorted (λ k k', Keyframe.time k <= Keyframe.time k') kfs.

(** The keyframes of a list that are at time [t], in the list's order. *)
Definition at_time (t : R) (kfs : list Keyframe.t) : list Keyframe.t :=
  filter (λ k, Keyframe.time k = t) kfs.

(** The value an id has in a keyframe: [bone_angles.get(bid, 0.0)]. *)
Definition angle_of (k : Keyframe.t) (bid : Z) : R :=
  default 0 (Keyframe.bone_angles k !! bid).

(** A ping-pong clip of duration 1 that swings bone 1 from 0 to 1. *)
Definition pong_clip : Clip.t :=
  Clip.mk "pong"
    [Keyframe.mk 0 {[ 1%Z := 0 ]} LINEAR; Keyframe.mk 1 {[ 1%Z := 1 ]} LINEAR]
    true 24 PING_PONG.

(** ** Vocabulary for what every call of the solver does *)

(** The fields of a bone the solver never assigns. *)
Definition ik_fixed (b : Bone.t) : Z * string * option Z * R * R * R :=
  (Bone.id b, Bone.name b, Bone.parent_id b, Bone.length b,
   Bone.rest_angle b, Bone.weight b).

(** The bone's angles add up as FK adds them, on the world angle [pa] of
    the parent. *)
Definition angles_add_up (pa : R) (b : Bone.t) : Prop :=
  Bone.world_angle b = pa + Bone.rest_angle b + Bone.current_angle b.

(** The list has [n + 1] joints, the first at [root]. *)
Definition rooted (n : nat) (root : R * R) (ps : list (R * R)) : Prop :=
  Datatypes.length ps = S n ∧ ps !! 0%nat = Some root.

(** ** Vocabulary for the states an Animator can reach *)

(** The clip names an Animator holds name clips it has, and its fields
    fit its state. *)
Definition coherent (a : Animator) : Prop :=
  (∀ n, current_clip a = Some n → is_Some (clips a !! n)) ∧
  (∀ n, blend_clip a = Some n → is_Some (clips a !! n)) ∧
  match state a with
  | STOPPED => current_clip a = None ∧ _time a = 0
  | PLAYING | PAUSED =>
    is_Some (current_clip a) ∧ blend_clip a = None ∧ blend_alpha a = 0
  | BLENDING => is_Some (current_clip a) ∧ is_Some (blend_clip a)
  end.

(** The value an id has in a pose: [pose.get(bid, 0.0)]. *)
Definition pose_angle (pose : gmap Z R) (bid : Z) : R := default 0 (pose !! bid).

(** * The clock, the timer and the clips in binary64

    Where a claim turns on which side of a threshold a number falls, the
    rounding of Python's [float] decides, and the reals above do not tell.
    This part embeds the code that computes the Animator's own fields and
    the clips once more, on Rocq's primitive floats: IEEE 754 binary64 with
    round-to-nearest-even, which is CPython's [float].  The operators [+],
    [-], [*], [/], [<] and [<=] are the primitive ones; [%] and [min] are
    written out as CPython computes them. *)

Module F64.
Import PrimFloat SpecFloat FloatOps.
Local Open Scope float_scope.

(** C's [fmod(x, y)]: the exact remainder [x - n * y], [n] the quotient
    truncated towards zero; it is representable, so nothing is rounded.
    The remainder of finite operands is computed on their integer
    significands, brought to the smaller of the two exponents. *)
Definition fmod (x y : float) : float :=
  match Prim2SF x, Prim2SF y with
  | S754_nan, _ | _, S754_nan => nan
  | S754_infinity _, _ => nan
  | _, S754_zero _ => nan
  | S754_zero _, _ => x
  | S754_finite _ _ _, S754_infinity _ => x
  | S754_finite sx mx ex, S754_finite _ my ey =>
    let e := Z.min ex ey in
    match Z.rem (Z.pos mx * 2 ^ (ex - e)) (Z.pos my * 2 ^ (ey - e)) with
    | Z.pos r => SF2Prim (S754_finite sx r e)
    | _ => if sx then neg_zero else zero
    end
  end.

(** [x % y] on floats, CPython's [float_rem], for [y] other than zero
    (the one use in the source is guarded by [duration > 0]): C's [fmod],
    then the divisor is added when the remainder is not zero and has the
    other sign; a zero remainder gets the sign of the divisor. *)
Definition float_rem (x y : float) : float :=
  let m := fmod x y in
  if eqb m 0 then (if y <? 0 then neg_zero else zero)
  else if Bool.eqb (y <? 0) (m <? 0) then m else m + y.

(** [min(a, b)] of two floats: the first argument, unless the second is
    smaller. *)
Definition py_min (a b : float) : float := if b <? a then b else a.

(** The number a float stands for, counted in units of [2^-1074], the
    smallest positive float: an integer for every finite float (0 for the
    others). *)
Definition units (x : float) : Z :=
  match Prim2SF x with
  | S754_finite s m e =>
    let n := (Z.pos m * 2 ^ (e + 1074))%Z in
    if s then (- n)%Z else n
  | _ => 0%Z
  end.

(** ** Keyframe and Clip *)

Module Keyframe.
Record t : Type := mk {
  time : float;
  bone_angles : gmap Z float;
  easing : InterpolationType
}.
End Keyframe.

Module Clip.
Record t : Type := mk {
  name : string;
  keyframes : list Keyframe.t;
  loop : bool;
  fps : float;
  loop_mode : LoopMode
}.

Definition duration (c : t) : float :=
  match last (keyframes c) with
  | None => 0
  | Some k => Keyframe.time k
  end.

(** "Handle looping". *)
Definition normalize (c : t) (t0 : float) : float :=
  let duration := duration c in
  if 0 <? duration then
    match loop_mode c with
    | LOOP => float_rem t0 duration
    | PING_PONG =>
      let cycle := float_rem t0 (duration * 2) in
      if cycle <=? duration then cycle else duration * 2 - cycle
    | ONCE => py_min t0 duration
    end
  else t0.

Definition interpolate (k0 k1 : Keyframe.t) (t0 : float) : gmap Z float :=
  let span := Keyframe.time k1 - Keyframe.time k0 in
  let alpha := if 0 <? span then (t0 - Keyframe.time k0) / span else 0 in
  let alpha :=
    match Keyframe.easing k0 with
    | CUBIC => alpha * alpha * (3 - 2 * alpha)
    | STEP => 0
    | LINEAR => alpha
    end in
  merge (λ o0 o1,
           match o0, o1 with
           | None, None => None
           | _, _ =>
             let a0 := default 0 o0 in
             let a1 := default 0 o1 in
             Some (a0 + (a1 - a0) * alpha)
           end)
        (Keyframe.bone_angles k0) (Keyframe.bone_angles k1).

Fixpoint scan (kfs : list Keyframe.t) (t0 : float) : option (gmap Z float) :=
  match kfs with
  | k0 :: ((k1 :: _) as rest) =>
    if Keyframe.time k0 <=? t0 then
      if t0 <=? Keyframe.time k1 then Some (interpolate k0 k1 t0)
      else scan rest t0
    else scan rest t0
  | _ => None
  end.

Definition sample (c : t) (t0 : float) : gmap Z float :=
  match keyframes c, last (keyframes c) with
  | first :: _, Some final =>
    let t1 := normalize c t0 in
    if t1 <=? Keyframe.time first then Keyframe.bone_angles first
    else if Keyframe.time final <=? t1 then Keyframe.bone_angles final
    else match scan (keyframes c) t1 with
         | Some pose => pose
         | None => Keyframe.bone_angles final
         end
  | _, _ => ∅
  end.
End Clip.

(** ** Animator

    The skeleton's bones are written by the last lines of [update] only
    ("Apply angles to skeleton" and the FK pass, which calls [math.cos] and
    [math.sin]).  That effect is a parameter here, [write_pose]: what it
    does to the bones is the subject of the first part of this file, and
    it assigns none of the Animator's own fields. *)

Section animator.
Context {Sk : Type}.
Variable write_pose : gmap Z float → Sk → Sk.

Record Animator : Type := mkAnimator {
  skeleton : Sk;
  clips : gmap string Clip.t;
  state : PlaybackState;
  current_clip : option string;
  blend_clip : option string;
  blend_alpha : float;
  _time : float;
  _speed : float;
  _blend_duration : float;
  _blend_time : float
}.

Definition Animator_init (sk : Sk) (cl : gmap string Clip.t) : Animator :=
  mkAnimator sk cl STOPPED None None 0 0 1 0 0.

Definition play (a : Animator) (clip_name : string) (reset_time : bool)
    (speed : float) : result unit * Animator :=
  match clips a !! clip_name with
  | None => (Raise ValueError, a)
  | Some _ =>
    (Ok (),
     mkAnimator (skeleton a) (clips a) PLAYING (Some clip_name) None 0
       (if reset_time then 0 else _time a) speed
       (_blend_duration a) (_blend_time a))
  end.

Definition transition_to (a : Animator) (clip_name : string) (duration : float)
  : result unit * Animator :=
  match clips a !! clip_name with
  | None => (Raise ValueError, a)
  | Some _ =>
    match truthy (current_clip a) with
    | Some _ =>
      (Ok (),
       mkAnimator (skeleton a) (clips a) BLENDING (current_clip a)
         (Some clip_name) (blend_alpha a) (_time a) (_speed a) duration 0)
    | None => play a clip_name true 1
    end
  end.

(** [self._time += dt * self._speed]. *)
Definition advance_clock (a : Animator) (dt : float) : Animator :=
  mkAnimator (skeleton a) (clips a) (state a) (current_clip a) (blend_clip a)
    (blend_alpha a) (_time a + dt * _speed a) (_speed a)
    (_blend_duration a) (_blend_time a).

(** The timed-transition block of [update]. *)
Definition advance_blend (a : Animator) (dt : float) : Animator :=
  match state a with
  | BLENDING =>
    if 0 <? _blend_duration a then
      let blend_time := _blend_time a + dt in
      let alpha := py_min 1 (blend_time / _blend_duration a) in
      if 1 <=? alpha then
        mkAnimator (skeleton a) (clips a) PLAYING (blend_clip a) None 0
          (_time a) (_speed a) (_blend_duration a) blend_time
      else
        mkAnimator (skeleton a) (clips a) (state a) (current_clip a)
          (blend_clip a) alpha (_time a) (_speed a) (_blend_duration a)
          blend_time
    else a
  | _ => a
  end.

(** "Blend if needed". *)
Definition blend_poses (pose blend_pose : gmap Z float) (alpha : float)
  : gmap Z float :=
  merge (λ oa ob,
           match oa, ob with
           | None, None => None
           | _, _ =>
             let x := default 0 oa in
             let y := default 0 ob in
             Some (x + (y - x) * alpha)
           end)
        pose blend_pose.

Definition current_pose (a : Animator) : option (gmap Z float) :=
  match truthy (current_clip a) with
  | Some cname =>
    match clips a !! cname with
    | Some clip =>
      let pose := Clip.sample clip (_time a) in
      match truthy (blend_clip a) with
      | Some bname =>
        match clips a !! bname with
        | Some bclip =>
          Some (blend_poses pose (Clip.sample bclip (_time a)) (blend_alpha a))
        | None => Some pose
        end
      | None => Some pose
      end
    | None => None
    end
  | None => None
  end.

Definition set_skeleton (sk : Sk) (a : Animator) : Animator :=
  mkAnimator sk (clips a) (state a) (current_clip a) (blend_clip a)
    (blend_alpha a) (_time a) (_speed a) (_blend_duration a) (_blend_time a).

Definition update (a : Animator) (dt : float) : Animator :=
  match state a with
  | STOPPED | PAUSED => a
  | _ =>
    let a2 := advance_blend (advance_clock a dt) dt in
    match current_pose a2 with
    | Some pose => set_skeleton (write_pose pose (skeleton a2)) a2
    | None => a2
    end
  end.

End animator.

(** The timer after a run of updates of a transition that none of them
    completes: [_blend_time], set to [0.0] by [transition_to], then
    [+= dt] once per update. *)
Definition timer (dts : list float) : float := foldl add 0 dts.

(** ** Vocabulary for the proofs *)

(** Plain playback of [B]. *)
Definition settled {Sk : Type} (B : string) (a : @Animator Sk) : Prop :=
  state a = PLAYING ∧ current_clip a = Some B ∧ blend_clip a = None.

(** A crossfade to [B] over [d] seconds whose timer reads [bt]. *)
Definition transitioning {Sk : Type} (B : string) (d bt : float)
    (a : @Animator Sk) : Prop :=
  state a = BLENDING ∧ blend_clip a = Some B ∧
  _blend_duration a = d ∧ _blend_time a = bt.

(** ** Sample data *)

(** A looping clip of duration 1 that swings bone 1 from 0 to 1. *)
Definition demo_clip (n : string) : Clip.t :=
  Clip.mk n
    [Keyframe.mk 0 {[ 1%Z := 0 ]} LINEAR; Keyframe.mk 1 {[ 1%Z := 1 ]} LINEAR]
    true 24 LOOP.

(** An Animator with the clips "A" and "B", whose skeleton is left out. *)
Definition demo_animator : @Animator unit :=
  Animator_init tt {[ "A"%string := demo_clip "A"; "B"%string := demo_clip "B" ]}.

(** [0.1] and [0.8], as Python reads them. *)
Definition tenth : float := 0x1.999999999999ap-4.
Definition eight_tenths : float := 0x1.999999999999ap-1.
End F64.

(** * Animator: proofs *)

Section animator_facts.
Implicit Types (a : Animator) (dt d : R).

Lemma update_idle a dt :
  state a = STOPPED ∨ state a = PAUSED → update a dt = (Ok (), a).
Proof. unfold update. intros [-> | ->]; reflexivity. Qed.

Lemma update_playback a dt :
  state a ≠ STOPPED → state a ≠ PAUSED →
  playback_eq (update a dt).2 (advance_blend (advance_clock a dt) dt).
Proof.
  intros Hs Hp. unfold update.
  destruct (state a) eqn:E; try congruence;
    (destruct (current_pose _); [destruct (calculate_forward_kinematics _) |]);
    cbn; repeat split; reflexivity.
Qed.

Lemma Rmin_1_ge x : Rmin 1 x >= 1 ↔ 1 <= x.
Proof.
  unfold Rmin. destruct (Rle_dec 1 x); split; lra.
Qed.

(** The timed-transition block, case by case. *)
Lemma advance_blend_completes a dt :
  state a = BLENDING → 0 < _blend_duration a →
  _blend_duration a <= _blend_time a + dt →
  advance_blend a dt =
    mkAnimator (skeleton a) (clips a) PLAYING (blend_clip a) None 0
      (_time a) (_speed a) (_blend_duration a) (_blend_time a + dt).
Proof.
  intros Hs Hd Hle. unfold advance_blend. rewrite Hs.
  destruct (Rlt_dec 0 (_blend_duration a)); [| lra].
  destruct (Rge_dec _ 1) as [_ | Hn]; [reflexivity |].
  exfalso. apply Hn. apply Rmin_1_ge.
  apply Rmult_le_reg_r with (_blend_duration a); [lra |].
  unfold Rdiv. rewrite Rmult_assoc, Rinv_l by lra. lra.
Qed.

Lemma advance_blend_continues a dt :
  state a = BLENDING → 0 < _blend_duration a →
  _blend_time a + dt < _blend_duration a →
  advance_blend a dt =
    mkAnimator (skeleton a) (clips a) BLENDING (current_clip a) (blend_clip a)
      ((_blend_time a + dt) / _blend_duration a)
      (_time a) (_speed a) (_blend_duration a) (_blend_time a + dt).
Proof.
  intros Hs Hd Hlt. unfold advance_blend. rewrite Hs.
  destruct (Rlt_dec 0 (_blend_duration a)); [| lra].
  assert (Hq : (_blend_time a + dt) / _blend_duration a < 1).
  { apply Rmult_lt_reg_r with (_blend_duration a); [lra |].
    unfold Rdiv. rewrite Rmult_assoc, Rinv_l by lra. lra. }
  destruct (Rge_dec _ 1) as [Hge | _].
  - apply Rmin_1_ge in Hge. lra.
  - unfold Rmin. destruct (Rle_dec 1 _); [lra |]. reflexivity.
Qed.

Lemma advance_blend_untimed a dt :
  state a ≠ BLENDING ∨ _blend_duration a <= 0 → advance_blend a dt = a.
Proof.
  unfold advance_blend. intros [Hs | Hd].
  - destruct (state a); congruence.
  - destruct (state a); try reflexivity.
    destruct (Rlt_dec 0 (_blend_duration a)); [lra | reflexivity].
Qed.

End animator_facts.

(** ** Rejected calls *)

(** C5. A call of [play], [blend] or [transition_to] that names a clip
    absent from the clip set raises (ValueError, the "not found" signal) and
    leaves the Animator, skeleton included, exactly as it was: for [play]
    and [transition_to] whatever the other arguments, for [blend] whether
    the unknown name comes first or second. *)
Theorem unknown_clip_rejected (a : Animator) (n : string) :
  clips a !! n = None →
  (∀ reset_time speed, play a n reset_time speed = (Raise ValueError, a)) ∧
  (∀ other alpha, blend a n other alpha = (Raise ValueError, a)) ∧
  (∀ other alpha, blend a other n alpha = (Raise ValueError, a)) ∧
  (∀ duration, transition_to a n duration = (Raise ValueError, a)).
Proof.
  intros Hn. repeat split; intros.
  - unfold play. by rewrite Hn.
  - unfold blend. by rewrite Hn.
  - unfold blend. rewrite Hn. by destruct (clips a !! other).
  - unfold transition_to. by rewrite Hn.
Qed.

Lemma unknown_clip_rejected_witness :
  let a := Animator_init (mkSkeleton [] 0 0) ∅ in
  play a "walk" true 1 = (Raise ValueError, a) ∧
  blend a "walk" "idle" (1 / 2) = (Raise ValueError, a) ∧
  transition_to a "walk" (3 / 10) = (Raise ValueError, a).
Proof.
  intros a.
  destruct (unknown_clip_rejected a "walk" (lookup_empty _)) as (Hp & Hb & _ & Ht).
  split; [apply Hp | split; [apply Hb | apply Ht]].
Defined.

(** ** The blend weight stays in range *)

Lemma alpha_inv_playback a b : playback_eq a b → alpha_inv b → alpha_inv a.
Proof.
  unfold alpha_inv. intros (_ & _ & _ & _ & -> & _ & _ & _ & ->). done.
Qed.

Lemma advance_blend_alpha_inv a dt :
  0 <= dt → alpha_inv a → alpha_inv (advance_blend a dt).
Proof.
  intros Hdt [Ha Ht]. destruct (state a) eqn:Hs;
    try (rewrite advance_blend_untimed by (left; congruence); by split).
  destruct (Rlt_dec 0 (_blend_duration a)) as [Hd | Hd].
  - destruct (Rle_lt_dec (_blend_duration a) (_blend_time a + dt)) as [Hc | Hc].
    + rewrite advance_blend_completes by done. split; cbn; lra.
    + rewrite advance_blend_continues by done. split; cbn; [| lra].
      split.
      * apply Rmult_le_reg_r with (_blend_duration a); [lra |].
        unfold Rdiv. rewrite Rmult_assoc, Rinv_l by lra. lra.
      * apply Rmult_le_reg_r with (_blend_duration a); [lra |].
        unfold Rdiv. rewrite Rmult_assoc, Rinv_l by lra. lra.
  - rewrite advance_blend_untimed by (right; lra). by split.
Qed.

Lemma run_op_alpha_inv a o : nonneg_dt o → alpha_inv a → alpha_inv (run_op a o).
Proof.
  intros Hdt Ha. destruct o; cbn in *.
  - unfold play. destruct (clips a !! clip_name); [| done].
    destruct Ha. split; cbn; [lra | done].
  - done.
  - unfold pause. by destruct (state a).
  - unfold resume. by destruct (state a).
  - unfold blend. destruct (clips a !! clip1), (clips a !! clip2); try done.
    destruct Ha. split; [| done]. cbn.
    unfold Rmax, Rmin. repeat destruct (Rle_dec _ _); lra.
  - unfold transition_to, play. destruct (clips a !! clip_name); [| done].
    destruct (truthy _).
    + destruct Ha. split; cbn; [done | lra].
    + destruct Ha. split; cbn; [lra | done].
  - done.
  - destruct (decide (state a = STOPPED ∨ state a = PAUSED)) as [Hi | Hi].
    + by rewrite update_idle.
    + eapply alpha_inv_playback.
      * apply update_playback; intros ?; apply Hi; auto.
      * apply advance_blend_alpha_inv; [done |]. done.
Qed.

(** C10. Starting from a freshly constructed Animator, after any sequence
    of calls of play, stop, pause, resume, blend, transition_to, add_clip and
    update (whatever their arguments, whether they return or raise), the
    updates being given non-negative [dt], [blend_alpha] lies in [0, 1]. *)
Theorem blend_alpha_in_range (sk : Skeleton) (cl : gmap string Clip.t)
    (ops : list op) :
  Forall nonneg_dt ops →
  0 <= blend_alpha (foldl run_op (Animator_init sk cl) ops) <= 1.
Proof.
  intros Hops.
  cut (alpha_inv (foldl run_op (Animator_init sk cl) ops)); [by intros [] |].
  assert (H0 : alpha_inv (Animator_init sk cl)) by (split; cbn; lra).
  revert H0. generalize (Animator_init sk cl).
  induction Hops as [| o ops Ho _ IH]; intros a Ha; [done |].
  cbn. apply IH. by apply run_op_alpha_inv.
Qed.

Lemma blend_alpha_in_range_witness :
  0 <= blend_alpha
         (foldl run_op demo_animator
            [OpPlay "A" true 1; OpTransitionTo "B" 1; OpUpdate (1 / 2);
             OpBlend "A" "B" 3; OpUpdate 2]) <= 1.
Proof.
  apply (blend_alpha_in_range two_bones _
           [OpPlay "A" true 1; OpTransitionTo "B" 1; OpUpdate (1 / 2);
            OpBlend "A" "B" 3; OpUpdate 2]).
  repeat constructor; cbn; lra.
Defined.

(** * Skeleton: proofs *)

Section skeleton_facts.
Implicit Types (sk : Skeleton) (b : Bone.t) (i j : Z).

Lemma has_id_true i b : has_id i b = true ↔ Bone.id b = i.
Proof. unfold has_id. by rewrite bool_decide_eq_true. Qed.

Lemma find_has_id_Some i (bs : list Bone.t) b :
  List.find (has_id i) bs = Some b → b ∈ bs ∧ Bone.id b = i.
Proof.
  intros H. apply List.find_some in H as [Hin Hid].
  split; [by apply list_elem_of_In | by apply has_id_true].
Qed.

Lemma get_bone_Some sk i b :
  get_bone sk i = Some b → b ∈ bones sk ∧ Bone.id b = i.
Proof. apply find_has_id_Some. Qed.

Lemma find_has_id_None i (bs : list Bone.t) :
  List.find (has_id i) bs = None ↔ i ∉ Bone.id <$> bs.
Proof.
  induction bs as [| b bs IH]; cbn.
  - split; [intros _; apply not_elem_of_nil | done].
  - rewrite not_elem_of_cons. destruct (has_id i b) eqn:E.
    + apply has_id_true in E. split; [done | intros [? _]; congruence].
    + assert (Bone.id b ≠ i) by (intros ?%has_id_true; congruence).
      rewrite IH. split; [intros; split; congruence | tauto].
Qed.

Lemma get_bone_is_Some sk i : is_Some (get_bone sk i) ↔ i ∈ Bone.id <$> bones sk.
Proof.
  unfold get_bone. destruct (List.find _ _) eqn:E.
  - apply find_has_id_Some in E as [Hin <-].
    split; [intros _; by apply list_elem_of_fmap_2 | eauto].
  - apply find_has_id_None in E. split; [intros [? ?]; done | done].
Qed.

(** The keys are distinct: a stored bone is found under its own id. *)
Lemma get_bone_elem sk b :
  skeleton_wf sk → b ∈ bones sk → get_bone sk (Bone.id b) = Some b.
Proof.
  unfold skeleton_wf, get_bone. induction (bones sk) as [| b0 bs IH]; cbn.
  - intros _ H. by apply elem_of_nil in H.
  - intros Hnd Hin. apply NoDup_cons in Hnd as [Hb0 Hnd].
    destruct (has_id (Bone.id b) b0) eqn:E.
    + apply has_id_true in E. apply elem_of_cons in Hin as [-> | Hin]; [done |].
      exfalso. apply Hb0. rewrite E. by apply list_elem_of_fmap_2.
    + apply elem_of_cons in Hin as [-> | Hin]; [| by apply IH].
      unfold has_id in E. by rewrite bool_decide_eq_false in E.
Qed.

Lemma update_first_lookup i f (bs : list Bone.t) j :
  (∀ b, Bone.id (f b) = Bone.id b) →
  List.find (has_id j) (update_first i f bs) =
    if decide (i = j) then f <$> List.find (has_id i) bs
    else List.find (has_id j) bs.
Proof.
  intros Hf. induction bs as [| b bs IH]; cbn.
  - by destruct (decide _).
  - destruct (has_id i b) eqn:Ei; cbn.
    + apply has_id_true in Ei. destruct (decide (i = j)) as [<- | Hne].
      * assert (has_id i (f b) = true) as -> by (apply has_id_true; by rewrite Hf).
        done.
      * assert (has_id j (f b) = false) as ->.
        { unfold has_id. rewrite bool_decide_eq_false, Hf. congruence. }
        assert (has_id j b = false) as ->; [| done].
        unfold has_id. rewrite bool_decide_eq_false. congruence.
    + destruct (decide (i = j)) as [<- | Hne].
      * by rewrite Ei, IH.
      * destruct (has_id j b); [done |]. by rewrite IH.
Qed.

Lemma get_bone_update sk i f j :
  (∀ b, Bone.id (f b) = Bone.id b) →
  get_bone (update_bone sk i f) j =
    if decide (i = j) then f <$> get_bone sk i else get_bone sk j.
Proof. apply update_first_lookup. Qed.

Lemma update_first_fmap {A} (g : Bone.t → A) i f (bs : list Bone.t) :
  (∀ b, g (f b) = g b) → g <$> update_first i f bs = g <$> bs.
Proof.
  intros Hf. induction bs as [| b bs IH]; cbn; [done |].
  destruct (has_id i b); cbn; [by rewrite Hf | by rewrite IH].
Qed.

Lemma update_first_length i f (bs : list Bone.t) :
  Datatypes.length (update_first i f bs) = Datatypes.length bs.
Proof.
  induction bs as [| b bs IH]; cbn; [done |].
  destruct (has_id i b); cbn; by rewrite ?IH.
Qed.

End skeleton_facts.

(** * Forward kinematics: proofs *)

Section static_facts.
Implicit Types (sk : Skeleton) (b : Bone.t) (i j : Z).

Lemma same_static_refl sk : same_static sk sk.
Proof. by repeat split. Qed.

Lemma same_static_trans sk1 sk2 sk3 :
  same_static sk1 sk2 → same_static sk2 sk3 → same_static sk1 sk3.
Proof. intros (? & ? & ?) (? & ? & ?). repeat split; congruence. Qed.

Lemma same_static_length sk' sk :
  same_static sk' sk → Datatypes.length (bones sk') = Datatypes.length (bones sk).
Proof.
  intros [H _]. apply (f_equal Datatypes.length) in H.
  by rewrite !length_fmap in H.
Qed.

Lemma same_static_update sk i f :
  (∀ b, static (f b) = static b) → same_static (update_bone sk i f) sk.
Proof.
  intros Hf. repeat split. cbn. by apply update_first_fmap.
Qed.

Lemma static_set_world x y a b : static (Bone.set_world x y a b) = static b.
Proof. done. Qed.

(** Lookup by id sees the same static fields in both skeletons. *)
Lemma find_static i (bs' bs : list Bone.t) :
  static <$> bs' = static <$> bs →
  static <$> List.find (has_id i) bs' = static <$> List.find (has_id i) bs.
Proof.
  revert bs. induction bs' as [| b' bs' IH]; intros [| b bs] Heq; try done.
  rewrite !fmap_cons in Heq.
  assert (Hb : static b' = static b) by congruence.
  assert (Hbs : static <$> bs' = static <$> bs) by congruence. cbn.
  assert (has_id i b' = has_id i b) as ->.
  { assert (Bone.id b' = Bone.id b) as Hid by (unfold static in Hb; congruence).
    unfold has_id. apply bool_decide_ext. split; congruence. }
  destruct (has_id i b); cbn; [by rewrite Hb | by apply IH].
Qed.

Lemma get_bone_static sk' sk i :
  same_static sk' sk → static <$> get_bone sk' i = static <$> get_bone sk i.
Proof. intros [H _]. by apply find_static. Qed.

Lemma parent_of_static sk' sk i :
  same_static sk' sk → parent_of sk' i = parent_of sk i.
Proof.
  intros H. apply (get_bone_static _ _ i) in H. unfold parent_of.
  destruct (get_bone sk' i) as [b' |], (get_bone sk i) as [b |]; cbn in *;
    try done.
  injection H as H. unfold static in H. congruence.
Qed.

Lemma filter_ids_static (P : Bone.t → Prop) `{∀ b, Decision (P b)}
    (bs' bs : list Bone.t) :
  (∀ b' b, static b' = static b → P b' ↔ P b) →
  static <$> bs' = static <$> bs →
  Bone.id <$> filter P bs' = Bone.id <$> filter P bs.
Proof.
  intros HP. revert bs. induction bs' as [| b' bs' IH]; intros [| b bs] Heq;
    try done.
  rewrite !fmap_cons in Heq.
  assert (Hb : static b' = static b) by congruence.
  assert (Hbs : static <$> bs' = static <$> bs) by congruence.
  rewrite !filter_cons. specialize (IH _ Hbs).
  destruct (decide (P b')) as [Hp | Hp], (decide (P b)) as [Hq | Hq].
  - cbn. f_equal; [unfold static in Hb; congruence | done].
  - exfalso. apply Hq. by apply (HP b' b).
  - exfalso. apply Hp. by apply (HP b' b).
  - done.
Qed.

Lemma children_static sk' sk i :
  same_static sk' sk →
  Bone.id <$> get_children sk' i = Bone.id <$> get_children sk i.
Proof.
  intros [H _]. apply filter_ids_static; [| done].
  intros b' b Hb.
  assert (Bone.parent_id b' = Bone.parent_id b) as -> by (unfold static in Hb; congruence).
  done.
Qed.

Lemma roots_static sk' sk :
  same_static sk' sk → Bone.id <$> root_bones sk' = Bone.id <$> root_bones sk.
Proof.
  intros [H _]. apply filter_ids_static; [| done].
  intros b' b Hb.
  assert (Bone.parent_id b' = Bone.parent_id b) as -> by (unfold static in Hb; congruence).
  done.
Qed.

Lemma depth_static sk' sk i n :
  same_static sk' sk → depth sk i n → depth sk' i n.
Proof.
  intros Hs. induction 1 as [i Hp | i p n Hp _ IH].
  - apply depth_root. by rewrite (parent_of_static _ sk).
  - eapply depth_child; [| done]. by rewrite (parent_of_static _ sk).
Qed.

Lemma under_static sk' sk i j :
  same_static sk' sk → under sk i j → under sk' i j.
Proof.
  intros Hs. induction 1 as [| j p Hp _ IH].
  - apply under_refl.
  - eapply under_step; [| done]. by rewrite (parent_of_static _ sk).
Qed.

End static_facts.

Section forest_facts.
Variable sk : Skeleton.
Implicit Types (i j p c : Z) (n m k : nat).

Lemma depth_fun i n m : depth sk i n → depth sk i m → n = m.
Proof.
  intros Hn. revert m. induction Hn as [i Hp | i p n Hp _ IH]; intros m Hm.
  - inversion Hm; [done | congruence].
  - inversion Hm as [| ? p' m' Hp' Hm']; subst; [congruence |].
    assert (p' = p) as -> by congruence. f_equal. by apply IH.
Qed.

Lemma depth_in i n : depth sk i n → i ∈ Bone.id <$> bones sk.
Proof.
  intros H. apply get_bone_is_Some.
  assert (is_Some (parent_of sk i)) as [? Hp] by (inversion H; eauto).
  unfold parent_of in Hp. destruct (get_bone sk i); [eauto | done].
Qed.

(** The ancestors of a bone of depth [n], itself included: [n + 1] distinct
    ids of the skeleton. *)
Lemma depth_path i n :
  depth sk i n →
  ∃ path : list Z,
    Datatypes.length path = S n ∧ NoDup path ∧
    ∀ j, j ∈ path → ∃ m, (m ≤ n)%nat ∧ depth sk j m.
Proof.
  induction 1 as [i Hp | i p n Hp Hd (path & Hlen & Hnd & Hall)].
  - exists [i]. repeat split; [apply NoDup_singleton |].
    intros j ->%list_elem_of_singleton. exists 0%nat. split; [lia |].
    by apply depth_root.
  - exists (i :: path). repeat split.
    + cbn. by rewrite Hlen.
    + apply NoDup_cons. split; [| done].
      intros (m & Hm & Hdm)%Hall.
      assert (S n = m) by (eapply depth_fun; [eapply depth_child |]; done).
      lia.
    + intros j [-> | Hj]%elem_of_cons.
      * exists (S n). split; [lia |]. by eapply depth_child.
      * destruct (Hall j Hj) as (m & Hm & Hdm). exists m. split; [lia | done].
Qed.

(** No bone is deeper than the skeleton has bones. *)
Lemma depth_bound i n : depth sk i n → (n < Datatypes.length (bones sk))%nat.
Proof.
  intros (path & Hlen & Hnd & Hall)%depth_path.
  assert (Hsub : path ⊆+ Bone.id <$> bones sk).
  { apply NoDup_submseteq; [done |].
    intros j (m & _ & Hm)%Hall. by eapply depth_in. }
  apply submseteq_length in Hsub. rewrite length_fmap in Hsub. lia.
Qed.

Lemma under_depth_le i j :
  under sk i j → ∀ k, depth sk j k → ∃ m, depth sk i m ∧ (m ≤ k)%nat.
Proof.
  induction 1 as [| j p Hp _ IH]; intros k Hk.
  - exists k. split; [done | lia].
  - inversion Hk as [| ? p' k' Hp' Hk']; subst; [congruence |].
    assert (p' = p) as -> by congruence.
    destruct (IH _ Hk') as (m & Hm & Hle). exists m. split; [done | lia].
Qed.

Lemma under_depth_ge i j m :
  under sk i j → depth sk i m → ∃ k, depth sk j k ∧ (m ≤ k)%nat.
Proof.
  intros Hu Hm. induction Hu as [| j p Hp _ (k & Hk & Hle)].
  - exists m. split; [done | lia].
  - exists (S k). split; [by eapply depth_child | lia].
Qed.

(** Two bones of the same depth have disjoint subtrees. *)
Lemma under_disjoint c c' j m :
  under sk c j → under sk c' j → depth sk c m → depth sk c' m → c = c'.
Proof.
  intros Hu. induction Hu as [| j p Hp Hu IH]; intros Hu' Hc Hc'.
  - inversion Hu' as [| ? p Hp Hup]; subst; [done |].
    inversion Hc as [| ? p' m' Hp' Hm']; subst; [congruence |].
    assert (p' = p) as -> by congruence.
    destruct (under_depth_le _ _ Hup _ Hm') as (m2 & Hm2 & Hle).
    assert (m2 = S m') by (by eapply depth_fun). lia.
  - inversion Hu' as [| ? p' Hp' Hup]; subst.
    + inversion Hc' as [| ? p' m' Hp' Hm']; subst; [congruence |].
      assert (p' = p) as -> by congruence.
      destruct (under_depth_le _ _ Hu _ Hm') as (m2 & Hm2 & Hle).
      assert (m2 = S m') by (by eapply depth_fun). lia.
    + assert (p' = p) as -> by congruence. by apply IH.
Qed.

Lemma under_child i c j :
  parent_of sk c = Some (Some i) → under sk c j → under sk i j.
Proof.
  intros Hc. induction 1 as [| j p Hp _ IH].
  - eapply under_step; [done | apply under_refl].
  - by eapply under_step.
Qed.

Lemma under_cases i j :
  under sk i j → j = i ∨ ∃ c, parent_of sk c = Some (Some i) ∧ under sk c j.
Proof.
  induction 1 as [| j p Hp _ [-> | (c & Hc & Hcu)]].
  - by left.
  - right. exists j. split; [done | apply under_refl].
  - right. exists c. split; [done | by eapply under_step].
Qed.

Lemma under_parent c j p :
  under sk c j → j ≠ c → parent_of sk j = Some (Some p) → under sk c p.
Proof.
  intros Hu Hne Hp. inversion Hu as [| ? p' Hp' Hup]; subst; [done |].
  by assert (p' = p) as -> by congruence.
Qed.

(** A bone under a bone of depth [m] that is not that bone is deeper. *)
Lemma not_under_shallower c i m n :
  depth sk c m → depth sk i n → (n < m)%nat → ¬ under sk c i.
Proof.
  intros Hc Hi Hlt Hu.
  destruct (under_depth_le _ _ Hu _ Hi) as (m' & Hm' & Hle).
  assert (m' = m) by (by eapply depth_fun). lia.
Qed.

Lemma depth_under_root j n :
  depth sk j n → ∃ r, parent_of sk r = Some None ∧ under sk r j.
Proof.
  induction 1 as [i Hp | i p n Hp _ (r & Hr & Hu)].
  - exists i. split; [done | apply under_refl].
  - exists r. split; [done | by eapply under_step].
Qed.

(** ** Children and roots, by id *)

Hypothesis Hwf : skeleton_wf sk.

Lemma children_parent i c :
  c ∈ Bone.id <$> get_children sk i ↔ parent_of sk c = Some (Some i).
Proof.
  unfold get_children, parent_of. split.
  - intros (b & -> & [Hp Hin]%list_elem_of_filter)%list_elem_of_fmap.
    by rewrite (get_bone_elem sk b Hwf Hin), <- Hp.
  - destruct (get_bone sk c) as [b |] eqn:E; [| done].
    intros [= Hp]. apply get_bone_Some in E as [Hin <-].
    apply list_elem_of_fmap_2. by apply list_elem_of_filter.
Qed.

Lemma roots_parent r :
  r ∈ Bone.id <$> root_bones sk ↔ parent_of sk r = Some None.
Proof.
  unfold root_bones, parent_of. split.
  - intros (b & -> & [Hp Hin]%list_elem_of_filter)%list_elem_of_fmap.
    by rewrite (get_bone_elem sk b Hwf Hin), <- Hp.
  - destruct (get_bone sk r) as [b |] eqn:E; [| done].
    intros [= Hp]. apply get_bone_Some in E as [Hin <-].
    apply list_elem_of_fmap_2. by apply list_elem_of_filter.
Qed.

Lemma children_NoDup i : NoDup (Bone.id <$> get_children sk i).
Proof.
  eapply sublist_NoDup; [exact Hwf | apply fmap_sublist, sublist_filter].
Qed.

Lemma roots_NoDup : NoDup (Bone.id <$> root_bones sk).
Proof.
  eapply sublist_NoDup; [exact Hwf | apply fmap_sublist, sublist_filter].
Qed.

End forest_facts.

Section loops.
Context {A S : Type}.

(** A loop invariant indexed by the elements already handled. *)
Lemma for_each_inv (I : list A → S → Prop) (body : A → S → result S)
    (xs : list A) (s : S) :
  I [] s →
  (∀ done x rest s, xs = done ++ x :: rest → I done s →
     ∃ s', body x s = Ok s' ∧ I (done ++ [x]) s') →
  ∃ s', for_each xs body s = Ok s' ∧ I xs s'.
Proof.
  intros H0 Hstep.
  cut (∀ rest done s, xs = done ++ rest → I done s →
         ∃ s', for_each rest body s = Ok s' ∧ I xs s').
  { intros H. by apply (H xs [] s). }
  clear s H0. induction rest as [| x rest IH]; intros done s Hxs Hs.
  - exists s. rewrite app_nil_r in Hxs. subst. by split.
  - destruct (Hstep done x rest s Hxs Hs) as (s1 & Hb & Hs1).
    destruct (IH (done ++ [x]) s1) as (s' & Hrun & Hs').
    { by rewrite <- app_assoc. }
    { done. }
    exists s'. split; [| done]. cbn. rewrite Hb. exact Hrun.
Qed.
End loops.

Section fk_facts.
Implicit Types (sk s : Skeleton) (b : Bone.t) (i j c p : Z).

Lemma same_static_sym sk' sk : same_static sk' sk → same_static sk sk'.
Proof. intros (? & ? & ?). by repeat split. Qed.

Lemma same_static_ids sk' sk :
  same_static sk' sk → Bone.id <$> bones sk' = Bone.id <$> bones sk.
Proof.
  intros [H _].
  assert (Hc : ∀ bs : list Bone.t,
             Bone.id <$> bs = (λ t, t.1.1.1.1.1.1) <$> (static <$> bs)).
  { intros bs. rewrite <- list_fmap_compose. done. }
  by rewrite !Hc, H.
Qed.

Lemma same_static_wf sk' sk : same_static sk' sk → skeleton_wf sk → skeleton_wf sk'.
Proof. unfold skeleton_wf. by intros ->%same_static_ids. Qed.

Lemma under_static_iff s sk i j :
  same_static s sk → under s i j ↔ under sk i j.
Proof.
  intros Hs. split; apply under_static; [by apply same_static_sym | done].
Qed.

Lemma get_bone_parent_of sk j b p :
  get_bone sk j = Some b → Bone.parent_id b = Some p →
  parent_of sk j = Some (Some p).
Proof. unfold parent_of. by intros -> <-. Qed.

(** Moving bones that are neither [j] nor its parent keeps [j] placed. *)
Lemma placed_frame s s' j :
  get_bone s' j = get_bone s j →
  (∀ p, parent_of s j = Some (Some p) → get_bone s' p = get_bone s p) →
  placed s j → placed s' j.
Proof.
  intros Hj Hp Hpl b p P Hc Hcp HP. rewrite Hj in Hc.
  rewrite (Hp p) in HP by by eapply get_bone_parent_of.
  by eapply Hpl.
Qed.

Lemma process_spec fuel : ∀ sk i n px py pa,
  skeleton_wf sk → depth sk i n →
  (Datatypes.length (bones sk) < n + fuel)%nat →
  ∃ sk', _process fuel sk i px py pa = Ok sk' ∧ process_post sk i px py pa sk'.
Proof.
  induction fuel as [| f IH]; intros sk i n px py pa Hwf Hd Hfuel.
  { apply depth_bound in Hd. lia. }
  cbn [_process].
  destruct (get_bone sk i) as [bone |] eqn:Ebone.
  2:{ inversion Hd as [? Hp | ? ? ? Hp]; unfold parent_of in Hp;
      by rewrite Ebone in Hp. }
  set (bi := Bone.set_world px py
               (pa + Bone.rest_angle bone + Bone.current_angle bone) bone).
  set (sk1 := update_bone sk i _).
  assert (Hs1 : same_static sk1 sk) by by apply same_static_update.
  assert (Hg1 : ∀ j, get_bone sk1 j = if decide (i = j) then Some bi else get_bone sk j).
  { intros j. unfold sk1. rewrite get_bone_update by done.
    destruct (decide _); [by rewrite Ebone | done]. }
  rewrite (children_static sk1 sk i Hs1).
  set (xs := Bone.id <$> get_children sk i).
  assert (Hxs_nd : NoDup xs) by by apply children_NoDup.
  assert (Hxs : ∀ c, c ∈ xs ↔ parent_of sk c = Some (Some i))
    by (intros c; by apply children_parent).
  destruct (for_each_inv
    (λ done s,
       same_static s sk ∧ get_bone s i = Some bi ∧
       (∀ j, (∀ c, c ∈ done → ¬ under sk c j) → j ≠ i →
             get_bone s j = get_bone sk j) ∧
       (∀ c j, c ∈ done → under sk c j → placed s j))
    (λ child_id s,
       match get_bone s i with
       | Some b =>
         _process f s child_id (Bone.tip_x b) (Bone.tip_y b) (Bone.world_angle b)
       | None => Raise IndexError
       end) xs sk1) as (sk' & Hrun & Hs' & Hi' & Hout & Hin).
  - (* before the first child *)
    split; [done |]. split; [by rewrite Hg1, decide_True |]. split.
    + intros j _ Hne. by rewrite Hg1, decide_False.
    + intros c j Hc. by apply elem_of_nil in Hc.
  - (* one child *)
    intros done x rest s Hsplit (Hs & Hi & Hout & Hin).
    assert (Hx : x ∈ xs).
    { rewrite Hsplit, elem_of_app, elem_of_cons. auto. }
    assert (Hxp : parent_of sk x = Some (Some i)) by by apply Hxs.
    assert (Hxd : depth sk x (S n)) by by eapply depth_child.
    assert (Hx_done : x ∉ done).
    { rewrite Hsplit in Hxs_nd. apply NoDup_app in Hxs_nd as (_ & Hdis & _).
      intros Hxin. apply (Hdis x Hxin), list_elem_of_here. }
    rewrite Hi.
    destruct (IH s x (S n) (Bone.tip_x bi) (Bone.tip_y bi) (Bone.world_angle bi))
      as (s' & Hcall & Hs's & Hframe & Hself & Hsub).
    { by eapply same_static_wf. }
    { by eapply depth_static. }
    { rewrite (same_static_length s sk) by done. lia. }
    assert (Hframe' : ∀ j, ¬ under sk x j → get_bone s' j = get_bone s j).
    { intros j Hj. apply Hframe. by rewrite under_static_iff. }
    assert (Hi_out : ¬ under sk x i) by (eapply not_under_shallower; [done | done | lia]).
    exists s'. split; [done |].
    split; [by eapply same_static_trans |].
    split; [by rewrite Hframe' |].
    split.
    + intros j Hj Hne. rewrite Hframe'.
      * apply Hout; [| done]. intros c Hc. apply Hj, elem_of_app. auto.
      * apply Hj, elem_of_app. right. apply list_elem_of_here.
    + intros c j [Hc | ->%list_elem_of_singleton]%elem_of_app Hu.
      * (* an earlier child: its subtree is left alone *)
        assert (Hcp : parent_of sk c = Some (Some i)).
        { apply Hxs. rewrite Hsplit, elem_of_app. auto. }
        assert (Hcd : depth sk c (S n)) by by eapply depth_child.
        assert (Hcx : c ≠ x) by congruence.
        assert (Hdis : ∀ k, under sk c k → ¬ under sk x k).
        { intros k Hck Hxk. apply Hcx. by eapply (under_disjoint sk c x k). }
        apply (placed_frame s); [by apply Hframe', Hdis | | by eapply Hin].
        intros p Hp. rewrite (parent_of_static s sk) in Hp by done.
        apply Hframe'. destruct (decide (j = c)) as [-> | Hjc].
        -- by assert (p = i) as -> by congruence.
        -- apply Hdis. by eapply under_parent.
      * (* the child just processed *)
        destruct (decide (j = x)) as [-> | Hjx].
        -- intros c0 p P Hc0 Hp HP.
           assert (p = i) as ->.
           { apply (get_bone_parent_of _ _ _ _ Hc0) in Hp.
             rewrite (parent_of_static s' sk) in Hp
               by by eapply same_static_trans.
             congruence. }
           rewrite Hframe', Hi in HP by done. injection HP as <-.
           by apply Hself.
        -- apply Hsub; [| done]. by rewrite under_static_iff.
  - (* after the last child *)
    exists sk'. split; [done |]. split; [done |]. split; [| split].
    + intros j Hj. apply Hout.
      * intros c Hc Hu. apply Hj. eapply under_child; [| done]. by apply Hxs.
      * intros ->. apply Hj, under_refl.
    + intros b' Hb'. rewrite Hi' in Hb'. injection Hb' as <-. by repeat split.
    + intros j Hj Hne.
      destruct (under_cases _ _ _ Hj) as [-> | (c & Hc & Hu)]; [done |].
      eapply Hin; [| done]. by apply Hxs.
Qed.

End fk_facts.

Section fk_top.
Implicit Types (sk s : Skeleton) (b : Bone.t) (i j r p : Z).

(** The whole traversal: it returns; bones that no chain of parent links
    connects to a root are left as they were; root bones sit at the anchor;
    every other connected bone is placed at its parent's tip. *)
Lemma fk_spec sk :
  skeleton_wf sk →
  ∃ sk', calculate_forward_kinematics sk = Ok sk' ∧
    same_static sk' sk ∧
    (∀ j, (∀ n, ¬ depth sk j n) → get_bone sk' j = get_bone sk j) ∧
    (∀ r b, parent_of sk r = Some None → get_bone sk' r = Some b →
       set_at (root_x sk) (root_y sk) 0 b) ∧
    (∀ j n, depth sk j (S n) → placed sk' j).
Proof.
  intros Hwf. unfold calculate_forward_kinematics.
  set (xs := Bone.id <$> root_bones sk).
  assert (Hxs_nd : NoDup xs) by by apply roots_NoDup.
  assert (Hxs : ∀ r, r ∈ xs ↔ parent_of sk r = Some None)
    by (intros r; by apply roots_parent).
  destruct (for_each_inv
    (λ done s,
       same_static s sk ∧
       (∀ j, (∀ r, r ∈ done → ¬ under sk r j) → get_bone s j = get_bone sk j) ∧
       (∀ r, r ∈ done →
          (∀ b, get_bone s r = Some b → set_at (root_x sk) (root_y sk) 0 b) ∧
          (∀ j, under sk r j → j ≠ r → placed s j)))
    (λ root_id s,
       _process (S (Datatypes.length (bones s))) s root_id (root_x s) (root_y s) 0)
    xs sk) as (sk' & Hrun & Hs' & Hout & Hin).
  - split; [apply same_static_refl |]. split; [done |].
    intros r Hr. by apply elem_of_nil in Hr.
  - intros done x rest s Hsplit (Hs & Hout & Hin).
    assert (Hx : x ∈ xs).
    { rewrite Hsplit, elem_of_app, elem_of_cons. auto. }
    assert (Hxd : depth sk x 0) by by apply depth_root, Hxs.
    assert (Hx_done : x ∉ done).
    { rewrite Hsplit in Hxs_nd. apply NoDup_app in Hxs_nd as (_ & Hdis & _).
      intros Hxin. apply (Hdis x Hxin), list_elem_of_here. }
    destruct (process_spec (S (Datatypes.length (bones s))) s x 0
                (root_x s) (root_y s) 0)
      as (s' & Hcall & Hs's & Hframe & Hself & Hsub).
    { by eapply same_static_wf. }
    { by eapply depth_static. }
    { lia. }
    assert (Hframe' : ∀ j, ¬ under sk x j → get_bone s' j = get_bone s j).
    { intros j Hj. apply Hframe. by rewrite under_static_iff. }
    destruct Hs as (Hst & Hrx & Hry).
    exists s'. split; [done |].
    split; [eapply same_static_trans; [done | by repeat split] |].
    split.
    + intros j Hj. rewrite Hframe'.
      * apply Hout. intros r Hr. apply Hj, elem_of_app. auto.
      * apply Hj, elem_of_app. right. apply list_elem_of_here.
    + intros r [Hr | ->%list_elem_of_singleton]%elem_of_app.
      * assert (Hrd : depth sk r 0).
        { apply depth_root, Hxs. rewrite Hsplit, elem_of_app. auto. }
        assert (Hrx' : r ≠ x) by congruence.
        assert (Hdis : ∀ k, under sk r k → ¬ under sk x k).
        { intros k Hrk Hxk. apply Hrx'. by eapply (under_disjoint sk r x k). }
        destruct (Hin r Hr) as [Hroot Hsubr]. split.
        -- intros b. rewrite Hframe' by apply Hdis, under_refl. apply Hroot.
        -- intros j Hj Hne.
           apply (placed_frame s); [by apply Hframe', Hdis | | by apply Hsubr].
           intros p Hp. rewrite (parent_of_static s sk) in Hp by by repeat split.
           apply Hframe', Hdis. by eapply under_parent.
      * split.
        -- intros b Hb. rewrite <- Hrx, <- Hry. by apply Hself.
        -- intros j Hj Hne. apply Hsub; [| done].
           rewrite under_static_iff; [done | by repeat split].
  - exists sk'. split; [done |]. split; [done |]. split; [| split].
    + intros j Hj. apply Hout. intros r Hr Hu.
      destruct (under_depth_ge sk r j 0 Hu) as (k & Hk & _).
      { by apply depth_root, Hxs. }
      by apply (Hj k).
    + intros r b Hr. by apply Hin, Hxs.
    + intros j n Hd.
      destruct (depth_under_root _ _ _ Hd) as (r & Hr & Hu).
      apply (Hin r); [by apply Hxs | done |].
      intros ->. assert (S n = 0)%nat; [| done].
      eapply depth_fun; [done | by apply depth_root].
Qed.

End fk_top.

Lemma get_bone_static_Some sk' sk i b' :
  same_static sk' sk → get_bone sk' i = Some b' →
  ∃ b, get_bone sk i = Some b ∧ static b = static b'.
Proof.
  intros Hs Hb'. apply (get_bone_static _ _ i) in Hs. rewrite Hb' in Hs.
  destruct (get_bone sk i) as [b |]; [| done].
  exists b. split; [done |]. cbn in Hs. congruence.
Qed.

(** C8. For a skeleton whose bones have distinct ids,
    [calculate_forward_kinematics] returns, and in the skeleton it leaves:
    every root bone is at the root anchor with world angle
    [rest_angle + current_angle]; every bone whose parent is connected to a
    root by parent links is at its parent's tip with world angle
    [parent.world_angle + rest_angle + current_angle].  In particular, for a
    root bone [b1] and a child [b2] of it, all rest and current angles 0,
    the tip of [b2] is the anchor plus [(length b1 + length b2, 0)]. *)
Theorem forward_kinematics_correct (sk : Skeleton) :
  skeleton_wf sk →
  ∃ sk', calculate_forward_kinematics sk = Ok sk' ∧
    root_x sk' = root_x sk ∧ root_y sk' = root_y sk ∧
    (∀ b, b ∈ bones sk' → Bone.parent_id b = None →
       Bone.world_x b = root_x sk' ∧ Bone.world_y b = root_y sk' ∧
       Bone.world_angle b = Bone.rest_angle b + Bone.current_angle b) ∧
    (∀ c P n, c ∈ bones sk' → P ∈ bones sk' →
       Bone.parent_id c = Some (Bone.id P) → depth sk' (Bone.id P) n →
       Bone.world_x c = Bone.tip_x P ∧ Bone.world_y c = Bone.tip_y P ∧
       Bone.world_angle c =
         Bone.world_angle P + Bone.rest_angle c + Bone.current_angle c) ∧
    (∀ b1 b2, b1 ∈ bones sk → b2 ∈ bones sk →
       Bone.parent_id b1 = None → Bone.parent_id b2 = Some (Bone.id b1) →
       Bone.rest_angle b1 = 0 → Bone.current_angle b1 = 0 →
       Bone.rest_angle b2 = 0 → Bone.current_angle b2 = 0 →
       ∃ b2', get_bone sk' (Bone.id b2) = Some b2' ∧
         Bone.tip_x b2' = root_x sk + (Bone.length b1 + Bone.length b2) ∧
         Bone.tip_y b2' = root_y sk + 0).
Proof.
  intros Hwf.
  destruct (fk_spec sk Hwf) as (sk' & Hrun & Hs & _ & Hroot & Hchild).
  assert (Hwf' : skeleton_wf sk') by by eapply same_static_wf.
  assert (Hroots : ∀ b, b ∈ bones sk' → Bone.parent_id b = None →
            set_at (root_x sk) (root_y sk) 0 b).
  { intros b Hb Hp. apply (Hroot (Bone.id b)); [| by apply get_bone_elem].
    rewrite <- (parent_of_static sk' sk) by done.
    unfold parent_of. by rewrite (get_bone_elem sk' b), <- Hp. }
  assert (Hchildren : ∀ c P n, c ∈ bones sk' → P ∈ bones sk' →
            Bone.parent_id c = Some (Bone.id P) → depth sk' (Bone.id P) n →
            set_at (Bone.tip_x P) (Bone.tip_y P) (Bone.world_angle P) c).
  { intros c P n Hc HP Hp Hd.
    apply (Hchild (Bone.id c) n) with (p := Bone.id P);
      [| by apply get_bone_elem | done | by apply get_bone_elem].
    apply (depth_static sk sk'); [by apply same_static_sym |].
    eapply depth_child; [| done].
    unfold parent_of. by rewrite (get_bone_elem sk' c), <- Hp. }
  destruct Hs as (Hst & Hrx & Hry).
  exists sk'. split; [done |]. split; [done |]. split; [done |].
  split; [| split].
  - intros b Hb Hp. destruct (Hroots b Hb Hp) as (Hx & Hy & Ha).
    rewrite Hrx, Hry, Hx, Hy, Ha. repeat split; lra.
  - intros c P n Hc HP Hp Hd. by apply (Hchildren c P n).
  - intros b1 b2 Hb1 Hb2 Hp1 Hp2 Hr1 Hc1 Hr2 Hc2.
    assert (Hs : same_static sk sk') by (apply same_static_sym; by repeat split).
    destruct (get_bone_static_Some sk sk' (Bone.id b1) b1 Hs)
      as (b1' & Hg1 & Hs1); [by apply get_bone_elem |].
    destruct (get_bone_static_Some sk sk' (Bone.id b2) b2 Hs)
      as (b2' & Hg2 & Hs2); [by apply get_bone_elem |].
    unfold static in Hs1, Hs2.
    assert (Hid1 : Bone.id b1' = Bone.id b1) by congruence.
    apply get_bone_Some in Hg1 as Hin1. destruct Hin1 as [Hin1 _].
    apply get_bone_Some in Hg2 as Hin2. destruct Hin2 as [Hin2 _].
    destruct (Hroots b1' Hin1) as (Hx1 & Hy1 & Ha1); [congruence |].
    destruct (Hchildren b2' b1' 0%nat Hin2 Hin1) as (Hx2 & Hy2 & Ha2).
    { congruence. }
    { apply depth_root. unfold parent_of. rewrite Hid1, Hg1. cbn. congruence. }
    exists b2'. split; [done |].
    assert (Ha1' : Bone.world_angle b1' = 0).
    { rewrite Ha1. replace (Bone.rest_angle b1') with 0 by congruence.
      replace (Bone.current_angle b1') with 0 by congruence. lra. }
    assert (Ha2' : Bone.world_angle b2' = 0).
    { rewrite Ha2, Ha1'. replace (Bone.rest_angle b2') with 0 by congruence.
      replace (Bone.current_angle b2') with 0 by congruence. lra. }
    unfold Bone.tip_x, Bone.tip_y in *.
    rewrite Hx2, Hy2, Ha2', Hx1, Hy1, Ha1', cos_0, sin_0.
    replace (Bone.length b1') with (Bone.length b1) by congruence.
    replace (Bone.length b2') with (Bone.length b2) by congruence.
    split; lra.
Qed.

Lemma two_bones_wf : skeleton_wf two_bones.
Proof.
  unfold skeleton_wf. cbn.
  apply NoDup_cons. split; [| apply NoDup_singleton].
  by intros ?%list_elem_of_singleton.
Qed.

Lemma forward_kinematics_correct_witness :
  ∃ sk' b2', calculate_forward_kinematics two_bones = Ok sk' ∧
    get_bone sk' 1 = Some b2' ∧
    Bone.tip_x b2' = 0 + (1 + 1) ∧ Bone.tip_y b2' = 0 + 0.
Proof.
  destruct (forward_kinematics_correct two_bones two_bones_wf)
    as (sk' & Hrun & _ & _ & _ & _ & Htwo).
  destruct (Htwo (demo_bone 0 None 1) (demo_bone 1 (Some 0%Z) 1))
    as (b2' & Hg & Hx & Hy); try reflexivity.
  - apply list_elem_of_here.
  - apply list_elem_of_further, list_elem_of_here.
  - exists sk', b2'. by repeat split.
Defined.

(** * Animator over a skeleton: proofs *)

(** ** [update] returns *)

Lemma apply_pose_ids sk (pose : gmap Z R) :
  Bone.id <$> bones (apply_pose sk pose) = Bone.id <$> bones sk.
Proof.
  unfold apply_pose.
  apply (map_fold_weak_ind (λ s _, Bone.id <$> bones s = Bone.id <$> bones sk));
    [done |].
  intros i x m s _ IH. destruct (get_bone s i); [| done].
  cbn. by rewrite update_first_fmap.
Qed.

Lemma update_returns a dt :
  skeleton_wf (skeleton a) →
  ∃ a', update a dt = (Ok (), a') ∧ skeleton_wf (skeleton a').
Proof.
  intros Hwf. unfold update.
  assert (Hsk : ∀ a0 dt0, skeleton (advance_blend (advance_clock a0 dt0) dt0) = skeleton a0).
  { intros a0 dt0. unfold advance_blend.
    destruct (state (advance_clock a0 dt0)); try done.
    destruct (Rlt_dec _ _); [| done]. by destruct (Rge_dec _ _). }
  destruct (state a) eqn:Es; try by eauto.
  all: destruct (current_pose _) as [pose |];
    [| eexists; split; [done | by rewrite Hsk]].
  all: rewrite Hsk;
    assert (Hwf1 : skeleton_wf (apply_pose (skeleton a) pose))
      by (unfold skeleton_wf; by rewrite apply_pose_ids);
    destruct (fk_spec _ Hwf1) as (sk2 & -> & Hs & _);
    eexists; split; [done |]; cbn; by eapply same_static_wf.
Qed.

Lemma run_updates_returns dts : ∀ a,
  skeleton_wf (skeleton a) →
  run_updates a dts = (Ok (), foldl (λ a dt, (update a dt).2) a dts).
Proof.
  induction dts as [| dt dts IH]; intros a Hwf; [done |].
  cbn. destruct (update_returns a dt Hwf) as (a' & -> & Hwf'). cbn.
  by apply IH.
Qed.

(** ** [blend] and the transition timer *)

(** When no timed transition was ever started with a positive duration,
    [update] leaves a blend as the caller set it. *)
Lemma update_untimed_blend a dt :
  state a = BLENDING → _blend_duration a <= 0 →
  blend_alpha (update a dt).2 = blend_alpha a ∧
  current_clip (update a dt).2 = current_clip a ∧
  state (update a dt).2 = BLENDING.
Proof.
  intros Hs Hd.
  destruct (update_playback a dt) as (_ & Hs' & Hc' & _ & Ha' & _);
    [congruence | congruence |].
  rewrite advance_blend_untimed in Hs', Hc', Ha' by (right; done).
  cbn in *. by rewrite Hs', Hc', Ha', Hs.
Qed.

(** C4, on the code.  [play(A)], [transition_to(B, 1)], then
    [blend(A, B, 1/2)]: the blend returns with [blend_alpha = 1/2],
    [current_clip = A] and the state Blending, but [_blend_duration] is
    still the 1 second of the transition.  The next [update(1)] runs the
    timer: it returns with [blend_alpha = 0], [current_clip = B] and the
    state Playing. *)
Theorem blend_keeps_transition_timer :
  ∃ a1 a2 a3 a4,
    play demo_animator "A" true 1 = (Ok (), a1) ∧
    transition_to a1 "B" 1 = (Ok (), a2) ∧
    blend a2 "A" "B" (1 / 2) = (Ok (), a3) ∧
    blend_alpha a3 = 1 / 2 ∧ current_clip a3 = Some "A"%string ∧
    state a3 = BLENDING ∧
    update a3 1 = (Ok (), a4) ∧
    blend_alpha a4 = 0 ∧ current_clip a4 = Some "B"%string ∧
    state a4 = PLAYING.
Proof.
  eexists _, _, _.
  set (a3 := mkAnimator two_bones (clips demo_animator) BLENDING (Some "A"%string)
               (Some "B"%string) (Rmax 0 (Rmin 1 (1 / 2))) 0 1 1 0).
  destruct (update_returns a3 1 two_bones_wf) as (a4 & Hup & _).
  exists a4.
  split; [reflexivity |]. split; [reflexivity |]. split; [reflexivity |].
  assert (Halpha : Rmax 0 (Rmin 1 (1 / 2)) = 1 / 2).
  { unfold Rmax, Rmin. repeat destruct (Rle_dec _ _); lra. }
  split; [exact Halpha |]. split; [done |]. split; [done |].
  split; [exact Hup |].
  destruct (update_playback a3 1) as (_ & Hs & Hc & _ & Ha & _); [done | done |].
  rewrite Hup in Hs, Hc, Ha. cbn [snd] in Hs, Hc, Ha.
  rewrite advance_blend_completes in Hs, Hc, Ha by (cbn; done || lra).
  done.
Qed.

(** * Clip sampling: proofs *)

Section clip_facts.
Implicit Types (c : Clip.t) (k first final : Keyframe.t) (t : R).

Lemma duration_last c final :
  last (Clip.keyframes c) = Some final → Clip.duration c = Keyframe.time final.
Proof. unfold Clip.duration. by intros ->. Qed.

(** Under Once a time at or after the last keyframe is looked up at or
    after the last keyframe. *)
Lemma normalize_once_late c final t :
  Clip.loop_mode c = ONCE → last (Clip.keyframes c) = Some final →
  Keyframe.time final <= t → Keyframe.time final <= Clip.normalize c t.
Proof.
  intros Hm Hl Ht. unfold Clip.normalize.
  rewrite (duration_last c final Hl), Hm.
  destruct (Rlt_dec _ _); [| done].
  unfold Rmin. destruct (Rle_dec _ _); lra.
Qed.

Lemma normalize_once_le c t : Clip.loop_mode c = ONCE → Clip.normalize c t <= t.
Proof.
  intros Hm. unfold Clip.normalize. rewrite Hm.
  destruct (Rlt_dec _ _); [| lra].
  unfold Rmin. destruct (Rle_dec _ _); lra.
Qed.

Lemma sample_at_start c first rest t :
  Clip.keyframes c = first :: rest →
  Clip.normalize c t <= Keyframe.time first →
  Clip.sample c t = Keyframe.bone_angles first.
Proof.
  intros Hk Ht. unfold Clip.sample. rewrite Hk.
  destruct (last (first :: rest)) as [final |] eqn:El.
  - by destruct (Rle_dec _ _).
  - by rewrite last_cons in El; destruct (last rest).
Qed.

Lemma sample_at_end c first rest final t :
  Clip.keyframes c = first :: rest → last (Clip.keyframes c) = Some final →
  Keyframe.time first < Clip.normalize c t →
  Keyframe.time final <= Clip.normalize c t →
  Clip.sample c t = Keyframe.bone_angles final.
Proof.
  intros Hk Hl Hlo Hhi. unfold Clip.sample. rewrite Hl, Hk.
  destruct (Rle_dec _ _); [lra |].
  destruct (Rge_dec _ _); [done | lra].
Qed.

End clip_facts.

(** C6, as stated, fails on the code: under Once, sampling [tied_clip] at
    the time of its last keyframe returns the mapping of the first
    keyframe, which differs from the last one's. *)
Lemma sample_last_tie_counterexample :
  ¬ (∀ (c : Clip.t) (final : Keyframe.t) (t : R),
       Clip.loop_mode c = ONCE → last (Clip.keyframes c) = Some final →
       Keyframe.time final <= t →
       Clip.sample c t = Keyframe.bone_angles final).
Proof.
  intros H.
  specialize (H tied_clip (Keyframe.mk 1 {[ 0%Z := 2 ]} LINEAR) 1
                eq_refl eq_refl (Rle_refl 1)).
  rewrite (sample_at_start tied_clip _ _ 1 eq_refl) in H.
  - cbn in H. apply (f_equal (λ m : gmap Z R, m !! 0%Z)) in H.
    rewrite !lookup_singleton_eq in H. injection H as H. lra.
  - unfold Clip.normalize, Clip.duration. cbn.
    destruct (Rlt_dec 0 1); [| lra]. unfold Rmin. destruct (Rle_dec 1 1); lra.
Qed.

(** C6, amended.  For a non-empty clip: whenever the normalised time is at
    or before the first keyframe's time, in particular under Once whenever
    [t] is, [sample] returns exactly the first keyframe's mapping; under
    Once, when [t] is at or after the last keyframe's time, [sample]
    returns exactly the last keyframe's mapping if, and only if, the time
    it looks up ([min(t, D)], or [t] itself when [D <= 0]) is after the
    first keyframe's time or the two keyframes have the same mapping. *)
Theorem sample_boundaries (c : Clip.t) (first final : Keyframe.t)
    (rest : list Keyframe.t) (t : R) :
  Clip.keyframes c = first :: rest →
  last (Clip.keyframes c) = Some final →
  (Clip.normalize c t <= Keyframe.time first →
     Clip.sample c t = Keyframe.bone_angles first) ∧
  (Clip.loop_mode c = ONCE → t <= Keyframe.time first →
     Clip.sample c t = Keyframe.bone_angles first) ∧
  (Clip.loop_mode c = ONCE → Keyframe.time final <= t →
     (Clip.sample c t = Keyframe.bone_angles final ↔
      Keyframe.time first < Clip.normalize c t ∨
      Keyframe.bone_angles first = Keyframe.bone_angles final)).
Proof.
  intros Hk Hl. split; [| split].
  - intros Ht. by apply (sample_at_start c first rest).
  - intros Hm Ht. apply (sample_at_start c first rest); [done |].
    pose proof (normalize_once_le c t Hm). lra.
  - intros Hm Ht.
    pose proof (normalize_once_late c final t Hm Hl Ht) as Hlate.
    destruct (Rle_lt_dec (Clip.normalize c t) (Keyframe.time first))
      as [Hle | Hlt].
    + rewrite (sample_at_start c first rest t Hk Hle).
      split; [by right | intros [? | ?]; [lra | done]].
    + rewrite (sample_at_end c first rest final t Hk Hl Hlt Hlate).
      split; [by left | done].
Qed.

Lemma sample_boundaries_witness :
  let c := Clip.mk "jump"
             [Keyframe.mk 0 {[ 7%Z := 0 ]} CUBIC; Keyframe.mk 1 {[ 7%Z := 1 ]} CUBIC]
             false 24 ONCE in
  Clip.sample c (-1) = {[ 7%Z := 0 ]} ∧ Clip.sample c 2 = {[ 7%Z := 1 ]}.
Proof.
  intros c.
  destruct (sample_boundaries c (Keyframe.mk 0 {[ 7%Z := 0 ]} CUBIC)
              (Keyframe.mk 1 {[ 7%Z := 1 ]} CUBIC)
              [Keyframe.mk 1 {[ 7%Z := 1 ]} CUBIC] (-1) eq_refl eq_refl)
    as (_ & Hlo & _).
  destruct (sample_boundaries c (Keyframe.mk 0 {[ 7%Z := 0 ]} CUBIC)
              (Keyframe.mk 1 {[ 7%Z := 1 ]} CUBIC)
              [Keyframe.mk 1 {[ 7%Z := 1 ]} CUBIC] 2 eq_refl eq_refl)
    as (_ & _ & Hhi).
  split.
  - apply Hlo; [reflexivity | cbn; lra].
  - apply Hhi; [reflexivity | cbn; lra |]. left.
    unfold Clip.normalize, Clip.duration. cbn.
    destruct (Rlt_dec 0 1); [| lra]. unfold Rmin. destruct (Rle_dec 2 1); lra.
Defined.

(** ** Looping *)


(** * Chains: proofs *)

Section chain_facts.
Implicit Types (sk : Skeleton) (b : Bone.t) (i e : Z) (chain : list Bone.t).

Lemma size_list_to_set_le (l : list Z) :
  (size (list_to_set l : gset Z) ≤ Datatypes.length l)%nat.
Proof.
  induction l as [| x l IH]; cbn.
  - by rewrite size_empty.
  - rewrite size_union_alt, size_singleton.
    assert (size (list_to_set l ∖ {[x]} : gset Z)
            ≤ size (list_to_set l : gset Z))%nat
      by (apply subseteq_size; intros y [Hy _]%elem_of_difference; exact Hy).
    lia.
Qed.

Lemma get_chain_loop_spec sk fuel : ∀ bid (visited : gset Z) chain,
  visited ⊆ list_to_set (Bone.id <$> bones sk) →
  (size (list_to_set (Bone.id <$> bones sk) : gset Z) ≤ fuel + size visited)%nat →
  stored sk chain → (∀ b, b ∈ chain → Bone.id b ∈ visited) →
  NoDup (Bone.id <$> chain) →
  ∃ chain', get_chain_loop fuel sk bid visited chain = Ok chain' ∧
    chain `prefix_of` chain' ∧ stored sk chain' ∧ NoDup (Bone.id <$> chain') ∧
    (∀ i bone, chain = [] → bid = Some i → get_bone sk i = Some bone →
       i ∉ visited → head chain' = Some bone).
Proof.
  assert (Hstop : ∀ bid (visited : gset Z) chain,
            stored sk chain → NoDup (Bone.id <$> chain) →
            (∀ i bone, bid = Some i → get_bone sk i = Some bone →
               i ∉ visited → False) →
            ∃ chain', Ok chain = Ok chain' ∧
              chain `prefix_of` chain' ∧ stored sk chain' ∧
              NoDup (Bone.id <$> chain') ∧
              (∀ i bone, chain = [] → bid = Some i →
                 get_bone sk i = Some bone → i ∉ visited →
                 head chain' = Some bone)).
  { intros bid visited chain Hst Hnd Hno. exists chain.
    split; [done |]. split; [done |]. split; [done |]. split; [done |].
    intros i bone _ Hb Hg Hv. destruct (Hno i bone Hb Hg Hv). }
  induction fuel as [| fuel IH]; intros bid visited chain Hsub Hsize Hst Hvis Hnd.
  all: destruct bid as [i |]; cbn [get_chain_loop];
    [| apply Hstop; [done | done | congruence]].
  all: destruct (decide (i ∈ visited)) as [Hin | Hnin];
    [apply Hstop; [done | done | congruence] |].
  all: destruct (get_bone sk i) as [bone |] eqn:Eb;
    [| apply Hstop; [done | done | congruence]].
  all: assert (Hi : i ∈ (list_to_set (Bone.id <$> bones sk) : gset Z))
    by (apply elem_of_list_to_set, get_bone_is_Some; eauto).
  all: assert (Hlt : (size visited
                      < size (list_to_set (Bone.id <$> bones sk) : gset Z))%nat)
    by (apply subset_size; split; [done | intros H; apply Hnin, H, Hi]).
  - lia.
  - apply get_bone_Some in Eb as Hbone. destruct Hbone as [_ Hid].
    destruct (IH (Bone.parent_id bone) ({[i]} ∪ visited) (chain ++ [bone]))
      as (chain' & Hrun & Hpre & Hst' & Hnd' & _).
    + apply union_least; [by apply singleton_subseteq_l | done].
    + rewrite size_union, size_singleton by by apply disjoint_singleton_l.
      lia.
    + intros b [Hb | ->%list_elem_of_singleton]%elem_of_app;
        [by apply Hst | by rewrite Hid].
    + intros b [Hb | ->%list_elem_of_singleton]%elem_of_app.
      * apply elem_of_union. right. by apply Hvis.
      * rewrite Hid. apply elem_of_union. left. by apply elem_of_singleton.
    + rewrite fmap_app. apply NoDup_app. split; [done |]. split.
      * intros x (b & -> & Hb)%list_elem_of_fmap. cbn.
        intros Heq%list_elem_of_singleton. apply Hnin.
        rewrite <- Hid, <- Heq. by apply Hvis.
      * apply NoDup_singleton.
    + exists chain'. split; [done |]. split.
      { etrans; [| done]. by apply prefix_app_r. }
      split; [done |]. split; [done |].
      intros i' bone' -> [= <-] Hb' _.
      assert (bone' = bone) as -> by congruence.
      destruct Hpre as [k ->]. done.
Qed.

(** [get_chain] returns: the walk ends.  Its result lists stored bones
    with distinct ids, and ends with the bone asked for when there is one. *)
Lemma get_chain_spec sk e :
  ∃ chain, get_chain sk e = Ok chain ∧ stored sk chain ∧
    NoDup (Bone.id <$> chain) ∧
    (∀ bone, get_bone sk e = Some bone → last chain = Some bone).
Proof.
  unfold get_chain.
  destruct (get_chain_loop_spec sk (Datatypes.length (bones sk)) (Some e) ∅ [])
    as (walk & -> & _ & Hst & Hnd & Hhead).
  - apply empty_subseteq.
  - rewrite size_empty, Nat.add_0_r.
    etrans; [apply size_list_to_set_le |]. by rewrite length_fmap.
  - intros b Hb. by apply elem_of_nil in Hb.
  - intros b Hb. by apply elem_of_nil in Hb.
  - apply NoDup_nil_2.
  - exists (reverse walk). cbn. split; [done |]. split; [| split].
    + intros b Hb. apply Hst. by apply elem_of_reverse.
    + by rewrite fmap_reverse, reverse_Permutation.
    + intros bone Hb. rewrite last_reverse. by apply (Hhead e).
Qed.

End chain_facts.

(** * Plane geometry of the solver *)

Section geometry.
Implicit Types (p q : R * R) (a b lam : R).












End geometry.

(** ** Sums of bone lengths *)

Section sums.
Implicit Types (xs ys : list R).






End sums.

(** * The loops of the solver *)


Lemma nth_or_raise_Some {A} (xs : list A) i x :
  xs !! i = Some x → nth_or_raise xs i = Ok x.
Proof. unfold nth_or_raise. by intros ->. Qed.

Lemma set_or_raise_lt {A} (xs : list A) i x :
  (i < Datatypes.length xs)%nat → set_or_raise xs i x = Ok (<[i := x]> xs).
Proof. unfold set_or_raise. intros H. by rewrite decide_True. Qed.

Section solver_loops.
Variable lens : list R.
Variable n : nat.
Hypothesis Hn : Datatypes.length lens = n.
Hypothesis Hlens : Forall (Rle 0) lens.
Implicit Types (ps : list (R * R)) (p q : R * R) (k j : nat).

(** ** Out of reach *)


(** ** Within reach *)

Lemma forward_pass_returns ps :
  Datatypes.length ps = S n →
  ∃ ps', for_each (reverse (seq 0 n)) (forward_step lens) ps = Ok ps' ∧
    Datatypes.length ps' = S n.
Proof.
  intros Hlen.
  destruct (for_each_inv (λ _ ps', Datatypes.length ps' = S n)
              (forward_step lens) (reverse (seq 0 n)) ps)
    as (ps' & Hrun & Hlen'); [done | | by exists ps'].
  intros done k rest ps1 Hsplit Hlen1.
  assert (Hk : (k < n)%nat).
  { assert (Hin : k ∈ reverse (seq 0 n)).
    { rewrite Hsplit, elem_of_app, elem_of_cons. auto. }
    apply elem_of_reverse, elem_of_seq in Hin. lia. }
  destruct (lookup_lt_is_Some_2 ps1 k) as [p Hp]; [lia |].
  destruct (lookup_lt_is_Some_2 ps1 (S k)) as [q Hq]; [lia |].
  destruct (lookup_lt_is_Some_2 lens k) as [len Hlenk]; [lia |].
  unfold forward_step.
  rewrite (nth_or_raise_Some _ _ _ Hp), (nth_or_raise_Some _ _ _ Hq),
    (nth_or_raise_Some _ _ _ Hlenk).
  cbn. rewrite set_or_raise_lt by lia.
  eexists. split; [done |]. by rewrite length_insert.
Qed.




End solver_loops.

(** * The angle of a segment *)

Section angles.
Implicit Types (x y : R).





End angles.

(** * Inverse kinematics: proofs *)

Section ik_facts.
Implicit Types (sk s : Skeleton) (b : Bone.t) (e i j : Z)
  (chain : list Bone.t) (positions ps : list (R * R)).

Lemma zip_seq_split chain (done : list (nat * Bone.t)) k b rest :
  zip (seq 0 (Datatypes.length chain)) chain = done ++ (k, b) :: rest →
  chain !! k = Some b ∧
  Bone.id <$> chain = (Bone.id ∘ snd <$> done) ++ Bone.id b :: (Bone.id ∘ snd <$> rest).
Proof.
  intros H. split.
  - assert (Hx : zip (seq 0 (Datatypes.length chain)) chain
                   !! Datatypes.length done = Some (k, b)).
    { rewrite H. by apply list_lookup_middle. }
    apply lookup_zip_Some in Hx as [Hk Hb]. apply lookup_seq in Hk as [-> _].
    done.
  - rewrite <- (snd_zip (seq 0 (Datatypes.length chain)) chain) at 1
      by (rewrite length_seq; lia).
    rewrite H, <- list_fmap_compose, fmap_app. done.
Qed.

Lemma apply_loop_spec sk chain positions :
  stored sk chain → NoDup (Bone.id <$> chain) →
  Datatypes.length positions = S (Datatypes.length chain) →
  ∃ sk', for_each (zip (seq 0 (Datatypes.length chain)) chain)
           (apply_step positions) sk = Ok sk' ∧
    (∀ j, j ∉ Bone.id <$> chain → get_bone sk' j = get_bone sk j) ∧
    (∀ k b, chain !! k = Some b →
       ∃ b', get_bone sk' (Bone.id b) = Some b' ∧ written positions k b b').
Proof.
  intros Hst Hnd Hlen.
  destruct (for_each_inv
    (λ done s,
       (∀ j, j ∉ (Bone.id ∘ snd <$> done) → get_bone s j = get_bone sk j) ∧
       (∀ k b, (k, b) ∈ done →
          ∃ b', get_bone s (Bone.id b) = Some b' ∧ written positions k b b'))
    (apply_step positions) (zip (seq 0 (Datatypes.length chain)) chain) sk)
    as (sk' & Hrun & Hframe & Hdone).
  - split; [done |]. intros k b Hin. by apply elem_of_nil in Hin.
  - intros done [k b] rest s Hsplit (Hframe & Hdone).
    apply zip_seq_split in Hsplit as [Hkb Hids].
    assert (Hk : (k < Datatypes.length chain)%nat) by by eapply lookup_lt_Some.
    assert (Hfresh : Bone.id b ∉ (Bone.id ∘ snd <$> done)).
    { rewrite Hids in Hnd. apply NoDup_app in Hnd as (_ & Hdis & _).
      intros Hin. apply (Hdis _ Hin), list_elem_of_here. }
    destruct (lookup_lt_is_Some_2 positions k) as [p Hp]; [lia |].
    destruct (lookup_lt_is_Some_2 positions (S k)) as [q Hq]; [lia |].
    unfold apply_step.
    rewrite (nth_or_raise_Some _ _ _ Hp), (nth_or_raise_Some _ _ _ Hq). cbn.
    eexists. split; [done |].
    assert (Hb : get_bone s (Bone.id b) = Some b).
    { rewrite Hframe by done. apply Hst. by eapply list_elem_of_lookup_2. }
    split.
    + intros j Hj. rewrite fmap_app, not_elem_of_app in Hj. destruct Hj as [Hj Hjb].
      cbn in Hjb. apply not_elem_of_cons in Hjb as [Hjb _].
      rewrite get_bone_update by done.
      rewrite decide_False by congruence. by apply Hframe.
    + intros k0 b0 [Hin | Hin%list_elem_of_singleton]%elem_of_app.
      * destruct (Hdone k0 b0 Hin) as (b' & Hb' & Hw). exists b'.
        split; [| done]. rewrite get_bone_update by done.
        rewrite decide_False; [done |]. intros Heq. apply Hfresh.
        rewrite Heq. apply list_elem_of_fmap. by exists (k0, b0).
      * injection Hin as -> ->. rewrite get_bone_update by done.
        rewrite decide_True, Hb by done. cbn. eexists. split; [done |].
        exists p, q. by repeat split.
  - exists sk'. split; [done |]. split.
    + intros j Hj. apply Hframe.
      rewrite list_fmap_compose, snd_zip by (rewrite length_seq; lia). done.
    + intros k b Hkb. apply Hdone.
      apply (list_elem_of_lookup_2 _ k). apply lookup_zip_Some. split; [| done].
      apply lookup_seq. split; [done |]. by eapply lookup_lt_Some.
Qed.


End ik_facts.

Section ik_claims.
Implicit Types (sk : Skeleton) (b : Bone.t) (e : Z) (chain : list Bone.t).


(** C9. [get_chain] always returns; when the chain it returns has fewer
    than 2 bones, [calculate_inverse_kinematics] returns False and the
    skeleton is the one it was given. *)
Theorem inverse_kinematics_short_chain sk e (target_x target_y : R)
    (iterations : Z) (tolerance : R) :
  (∃ chain, get_chain sk e = Ok chain) ∧
  ∀ chain, get_chain sk e = Ok chain → (Datatypes.length chain < 2)%nat →
    calculate_inverse_kinematics sk e target_x target_y iterations tolerance
      = Ok (false, sk).
Proof.
  split.
  - destruct (get_chain_spec sk e) as (chain & Hc & _). eauto.
  - intros chain Hc Hlen. unfold calculate_inverse_kinematics.
    rewrite Hc. cbn. by rewrite decide_True.
Qed.


End ik_claims.

(** * The iteration, joint by joint *)

Section passes.
Implicit Types (lens : list R) (ps reached : list (R * R)).





End passes.

Section ik_reach.
Implicit Types (sk : Skeleton) (b : Bone.t) (e : Z) (chain : list Bone.t).




End ik_reach.

(** * The solver on the rest pose *)








(** [rest_pose] is a pose FK leaves: running FK on it changes no joint. *)
Lemma rest_pose_is_fk_pose :
  ∃ sk' b0 b1, calculate_forward_kinematics rest_pose = Ok sk' ∧
    get_bone sk' 0 = Some b0 ∧ get_bone sk' 1 = Some b1 ∧
    (Bone.world_x b0, Bone.world_y b0) = (0, 0) ∧
    (Bone.world_x b1, Bone.world_y b1) = (1, 0) ∧
    (Bone.tip_x b1, Bone.tip_y b1) = (2, 0).
Proof.
  assert (Hwf : skeleton_wf rest_pose).
  { unfold skeleton_wf. cbn. apply NoDup_cons. split; [| apply NoDup_singleton].
    by intros ?%list_elem_of_singleton. }
  destruct (fk_spec rest_pose Hwf) as (sk' & Hrun & Hs & _ & Hroot & Hchild).
  destruct (get_bone_static_Some rest_pose sk' 0 (posed_bone 0 None 1 0 0))
    as (b0 & Hb0 & Hs0); [by apply same_static_sym | done |].
  destruct (get_bone_static_Some rest_pose sk' 1 (posed_bone 1 (Some 0%Z) 1 1 0))
    as (b1 & Hb1 & Hs1); [by apply same_static_sym | done |].
  unfold static in Hs0, Hs1. cbn in Hs0, Hs1.
  destruct (Hroot 0%Z b0) as (Hx0 & Hy0 & Ha0); [done | done |].
  assert (Hd1 : depth rest_pose 1 1).
  { eapply depth_child; [| apply depth_root]; done. }
  destruct (Hchild 1%Z 0%nat Hd1 b1 0%Z b0) as (Hx1 & Hy1 & Ha1);
    [done | congruence | done |].
  change (root_x rest_pose) with 0 in Hx0.
  change (root_y rest_pose) with 0 in Hy0.
  assert (Hr0 : Bone.rest_angle b0 = 0) by congruence.
  assert (Hc0 : Bone.current_angle b0 = 0) by congruence.
  assert (Hr1 : Bone.rest_angle b1 = 0) by congruence.
  assert (Hc1 : Bone.current_angle b1 = 0) by congruence.
  assert (Hl0 : Bone.length b0 = 1) by congruence.
  assert (Hl1 : Bone.length b1 = 1) by congruence.
  assert (Ha0' : Bone.world_angle b0 = 0) by (rewrite Ha0, Hr0, Hc0; lra).
  assert (Ha1' : Bone.world_angle b1 = 0) by (rewrite Ha1, Ha0', Hr1, Hc1; lra).
  unfold Bone.tip_x, Bone.tip_y in *.
  rewrite Hx0, Ha0', Hl0, cos_0 in Hx1.
  rewrite Hy0, Ha0', Hl0, sin_0 in Hy1.
  exists sk', b0, b1. do 3 (split; [done |]).
  split; [by rewrite Hx0, Hy0 |].
  rewrite Hx1, Hy1, Ha1', Hl1, cos_0, sin_0.
  split; f_equal; lra.
Qed.






Lemma inverse_kinematics_short_chain_witness :
  let sk := Skeleton_init [demo_bone 0 None 1] in
  calculate_inverse_kinematics sk 0 3 4 20 (1 / 100) = Ok (false, sk).
Proof.
  intros sk.
  apply (proj2 (inverse_kinematics_short_chain sk 0 3 4 20 (1 / 100))
           [demo_bone 0 None 1]).
  - reflexivity.
  - cbn. lia.
Defined.

(** * Building a skeleton: proofs *)

Section skeleton_build.
Implicit Types (sk : Skeleton) (b bone : Bone.t) (i j : Z) (bs : list Bone.t).

Lemma find_has_id_app j bs1 bs2 :
  List.find (has_id j) (bs1 ++ bs2) =
    match List.find (has_id j) bs1 with
    | Some b => Some b
    | None => List.find (has_id j) bs2
    end.
Proof.
  induction bs1 as [| b bs1 IH]; cbn; [done |].
  by destruct (has_id j b).
Qed.

(** Overwriting the bone stored under [i] by a bone of the same id. *)
Lemma update_first_const_lookup i bone bs j :
  Bone.id bone = i →
  List.find (has_id j) (update_first i (λ _, bone) bs) =
    if decide (j = i) then (λ _, bone) <$> List.find (has_id i) bs
    else List.find (has_id j) bs.
Proof.
  intros Hid. induction bs as [| b bs IH]; cbn.
  - by destruct (decide _).
  - destruct (has_id i b) eqn:Ei; cbn.
    + apply has_id_true in Ei. destruct (decide (j = i)) as [-> | Hne].
      * by assert (has_id i bone = true) as -> by by apply has_id_true.
      * assert (has_id j bone = false) as ->.
        { unfold has_id. rewrite bool_decide_eq_false. congruence. }
        assert (has_id j b = false) as ->; [| done].
        unfold has_id. rewrite bool_decide_eq_false. congruence.
    + destruct (decide (j = i)) as [-> | Hne].
      * by rewrite Ei, IH.
      * destruct (has_id j b); [done |]. by rewrite IH.
Qed.

Lemma add_bone_get sk bone j :
  get_bone (add_bone sk bone) j =
    if decide (j = Bone.id bone) then Some bone else get_bone sk j.
Proof.
  unfold add_bone. destruct (get_bone sk (Bone.id bone)) as [old |] eqn:Eold.
  - unfold get_bone, update_bone. cbn.
    rewrite update_first_const_lookup by done.
    destruct (decide _); [| done]. fold (get_bone sk (Bone.id bone)).
    by rewrite Eold.
  - unfold get_bone. cbn. rewrite find_has_id_app.
    fold (get_bone sk j). destruct (decide (j = Bone.id bone)) as [-> | Hne].
    + rewrite Eold. cbn.
      by assert (has_id (Bone.id bone) bone = true) as -> by by apply has_id_true.
    + destruct (get_bone sk j); [done |]. cbn.
      assert (has_id j bone = false) as ->; [| done].
      unfold has_id. rewrite bool_decide_eq_false. congruence.
Qed.

Lemma add_bone_wf sk bone : skeleton_wf sk → skeleton_wf (add_bone sk bone).
Proof.
  unfold skeleton_wf, add_bone. intros Hwf.
  destruct (get_bone sk (Bone.id bone)) as [old |] eqn:Eold; cbn.
  - assert (Hids : ∀ bs, Bone.id <$> update_first (Bone.id bone) (λ _, bone) bs
                         = Bone.id <$> bs).
    { induction bs as [| b bs IH]; cbn; [done |].
      destruct (has_id (Bone.id bone) b) eqn:E; cbn.
      - apply has_id_true in E. by rewrite E.
      - by rewrite IH. }
    by rewrite Hids.
  - rewrite fmap_app. apply NoDup_app. split; [done |]. split.
    + intros x Hx ->%list_elem_of_singleton.
      apply get_bone_is_Some in Hx as [? Hx]. congruence.
    + apply NoDup_singleton.
Qed.

(** X1. [add_bone] then [get_bone]: the bone added is found under its id,
    whether it replaced a bone or not, and every other id is looked up as
    before. *)
Theorem add_bone_lookup sk bone :
  get_bone (add_bone sk bone) (Bone.id bone) = Some bone ∧
  ∀ j, j ≠ Bone.id bone → get_bone (add_bone sk bone) j = get_bone sk j.
Proof.
  split.
  - by rewrite add_bone_get, decide_True.
  - intros j Hj. by rewrite add_bone_get, decide_False.
Qed.

Lemma find_has_id_snoc j bs b :
  List.find (has_id j) (reverse (bs ++ [b])) =
    if has_id j b then Some b else List.find (has_id j) (reverse bs).
Proof. by rewrite reverse_app. Qed.

Lemma foldl_add_bone_spec bs : ∀ sk,
  skeleton_wf sk →
  skeleton_wf (foldl add_bone sk bs) ∧
  root_x (foldl add_bone sk bs) = root_x sk ∧
  root_y (foldl add_bone sk bs) = root_y sk ∧
  ∀ j, get_bone (foldl add_bone sk bs) j =
         match List.find (has_id j) (reverse bs) with
         | Some b => Some b
         | None => get_bone sk j
         end.
Proof.
  induction bs as [| b bs IH] using rev_ind; intros sk Hwf.
  - by repeat split.
  - rewrite foldl_app. cbn.
    destruct (IH sk Hwf) as (Hwf' & Hx & Hy & Hget).
    split; [by apply add_bone_wf |].
    split; [unfold add_bone; by destruct (get_bone _ _) |].
    split; [unfold add_bone; by destruct (get_bone _ _) |].
    intros j. rewrite add_bone_get, find_has_id_snoc, Hget.
    unfold has_id. destruct (decide (j = Bone.id b)) as [-> | Hne].
    + by rewrite bool_decide_eq_true_2.
    + by rewrite bool_decide_eq_false_2 by congruence.
Qed.

(** X2. [Skeleton(bones)] always has distinct keys, its anchor is the
    origin, and looking an id up gives the last bone of the argument with
    that id: a later bone overwrites an earlier one of the same id. *)
Theorem skeleton_init_spec bs :
  skeleton_wf (Skeleton_init bs) ∧
  root_x (Skeleton_init bs) = 0 ∧ root_y (Skeleton_init bs) = 0 ∧
  ∀ j, get_bone (Skeleton_init bs) j = List.find (has_id j) (reverse bs).
Proof.
  destruct (foldl_add_bone_spec bs (mkSkeleton [] 0 0)) as (Hwf & Hx & Hy & Hget).
  { apply NoDup_nil_2. }
  split; [done |]. split; [done |]. split; [done |].
  intros j. unfold Skeleton_init. rewrite Hget.
  by destruct (List.find _ _).
Qed.

(** X3. [get_bone_by_name] returns the first bone of that name in the
    order of the dict, and nothing exactly when no bone has the name. *)
Theorem get_bone_by_name_spec sk (name : string) :
  match get_bone_by_name sk name with
  | Some b =>
    Bone.name b = name ∧
    ∃ earlier later, bones sk = earlier ++ b :: later ∧
      ∀ b', b' ∈ earlier → Bone.name b' ≠ name
  | None => ∀ b, b ∈ bones sk → Bone.name b ≠ name
  end.
Proof.
  unfold get_bone_by_name. induction (bones sk) as [| b0 bs IH]; cbn.
  - intros b Hb. by apply elem_of_nil in Hb.
  - destruct (bool_decide (Bone.name b0 = name)) eqn:E.
    + apply bool_decide_eq_true in E. split; [done |].
      exists [], bs. split; [done |]. intros b' Hb'. by apply elem_of_nil in Hb'.
    + apply bool_decide_eq_false in E.
      destruct (List.find _ bs) as [b |].
      * destruct IH as (Hn & earlier & later & -> & Hearlier).
        split; [done |]. exists (b0 :: earlier), later. split; [done |].
        intros b' [-> | Hb']%elem_of_cons; [done | by apply Hearlier].
      * intros b' [-> | Hb']%elem_of_cons; [done | by apply IH].
Qed.

End skeleton_build.

(** * The shape of a chain: proofs *)

Section chain_shape.
Implicit Types (sk : Skeleton) (b c r bone : Bone.t) (e i p : Z)
  (chain walk : list Bone.t).

Lemma linked_up_snoc walk b bone :
  linked_up walk → last walk = Some b →
  Bone.parent_id b = Some (Bone.id bone) → linked_up (walk ++ [bone]).
Proof.
  intros Hl Hlast Hp k x y Hx Hy.
  rewrite last_lookup in Hlast.
  destruct (decide (S k < Datatypes.length walk)%nat) as [Hlt | Hge].
  - rewrite lookup_app_l in Hx by lia. rewrite lookup_app_l in Hy by lia.
    by eapply Hl.
  - assert (S k = Datatypes.length walk).
    { apply lookup_lt_Some in Hy. rewrite length_app in Hy. cbn in Hy. lia. }
    rewrite lookup_app_l in Hx by lia.
    rewrite lookup_app_r in Hy by lia.
    replace (S k - Datatypes.length walk)%nat with 0%nat in Hy by lia.
    cbn in Hy. injection Hy as <-.
    replace (pred (Datatypes.length walk)) with k in Hlast by lia.
    congruence.
Qed.

Lemma get_chain_loop_links sk fuel : ∀ bid (visited : gset Z) walk walk',
  get_chain_loop fuel sk bid visited walk = Ok walk' →
  linked_up walk →
  (∀ b, last walk = Some b → bid = Bone.parent_id b) →
  (∀ i, i ∈ visited ↔ i ∈ Bone.id <$> walk) →
  linked_up walk' ∧ walk_end sk walk'.
Proof.
  assert (Hstop : ∀ bid (visited : gset Z) walk,
            linked_up walk →
            (∀ b, last walk = Some b → bid = Bone.parent_id b) →
            (∀ i, i ∈ visited ↔ i ∈ Bone.id <$> walk) →
            (∀ i, bid = Some i → i ∈ visited ∨ get_bone sk i = None) →
            linked_up walk ∧ walk_end sk walk).
  { intros bid visited walk Hl Hbid Hvis Hwhy. split; [done |].
    intros r p Hr Hp. rewrite <- (Hbid r Hr) in Hp.
    destruct (Hwhy p Hp) as [Hin | Hnone]; [right; by apply Hvis | by left]. }
  induction fuel as [| fuel IH]; intros bid visited walk walk' Hrun Hl Hbid Hvis.
  all: destruct bid as [i |]; cbn [get_chain_loop] in Hrun;
    [| injection Hrun as <-; by apply (Hstop None visited)].
  all: destruct (decide (i ∈ visited)) as [Hin | Hnin];
    [injection Hrun as <-; apply (Hstop (Some i) visited); try done;
     intros ? [= <-]; by left |].
  all: destruct (get_bone sk i) as [bone |] eqn:Eb;
    [| injection Hrun as <-; apply (Hstop (Some i) visited); try done;
       intros ? [= <-]; by right].
  - done.
  - apply get_bone_Some in Eb as Hbone. destruct Hbone as [_ Hid].
    apply (IH _ _ _ _ Hrun).
    + destruct (last walk) as [b |] eqn:Hlast.
      * apply (linked_up_snoc walk b); [done | done |].
        rewrite <- (Hbid b eq_refl). by rewrite Hid.
      * apply last_None in Hlast as ->. intros k x y Hx Hy.
        destruct k; cbn in Hy; done.
    + intros b Hb. rewrite last_snoc in Hb. congruence.
    + intros j. rewrite fmap_app, elem_of_app, elem_of_union, <- Hvis.
      cbn. rewrite list_elem_of_singleton, elem_of_singleton, Hid. tauto.
Qed.

Lemma get_chain_loop_none sk fuel e :
  get_bone sk e = None → get_chain_loop fuel sk (Some e) ∅ [] = Ok [].
Proof. intros H. destruct fuel; cbn; by rewrite H. Qed.

(** The walk behind [get_chain], with what the loop keeps. *)
Lemma get_chain_walk sk e :
  ∃ walk, get_chain sk e = Ok (reverse walk) ∧
    linked_up walk ∧ walk_end sk walk ∧ stored sk walk ∧
    NoDup (Bone.id <$> walk) ∧
    match get_bone sk e with
    | Some bone => head walk = Some bone
    | None => walk = []
    end.
Proof.
  destruct (get_chain_spec sk e) as (chain & Hc & Hst & Hnd & Hlast).
  pose proof Hc as Hc'. unfold get_chain in Hc'.
  destruct (get_chain_loop _ sk (Some e) ∅ []) as [walk |] eqn:Hwalk; [| done].
  cbn in Hc'. injection Hc' as <-.
  destruct (get_chain_loop_links sk _ _ _ _ _ Hwalk) as [Hlinks Hend].
  { intros k x y Hx. done. }
  { done. }
  { intros i. split; [by intros ?%elem_of_empty | by intros ?%elem_of_nil]. }
  exists walk. split; [done |]. split; [done |]. split; [done |].
  split; [intros b Hb; by apply Hst, elem_of_reverse |].
  split; [by rewrite fmap_reverse, reverse_Permutation in Hnd |].
  destruct (get_bone sk e) as [bone |] eqn:Eb.
  - rewrite <- last_reverse. by apply Hlast.
  - rewrite get_chain_loop_none in Hwalk by done. by injection Hwalk as <-.
Qed.

(** In a chain each bone is the parent of the next. *)
Lemma get_chain_links sk e chain :
  get_chain sk e = Ok chain →
  ∀ k b c, chain !! k = Some b → chain !! S k = Some c →
    Bone.parent_id c = Some (Bone.id b).
Proof.
  intros Hchain.
  destruct (get_chain_walk sk e) as (walk & Hc & Hlinks & _).
  assert (chain = reverse walk) as -> by congruence.
  intros k b c Hb Hc0.
  assert (Hk : (S k < Datatypes.length walk)%nat).
  { apply lookup_lt_Some in Hc0. by rewrite length_reverse in Hc0. }
  rewrite reverse_lookup in Hb by lia. rewrite reverse_lookup in Hc0 by lia.
  apply (Hlinks (Datatypes.length walk - S (S k))%nat c b); [done |].
  by replace (S (Datatypes.length walk - S (S k)))
    with (Datatypes.length walk - S k)%nat by lia.
Qed.

(** X4. [get_chain] always returns, with at most as many bones as the
    skeleton has, all stored and of distinct ids, each the parent of the
    next; the chain is empty when the end bone is missing and ends with the
    end bone otherwise; and its first bone is one whose parent, if it names
    one, is missing from the skeleton or lies on the chain itself (a cycle
    of parent links). *)
Theorem get_chain_structure sk e :
  ∃ chain, get_chain sk e = Ok chain ∧
    (Datatypes.length chain ≤ Datatypes.length (bones sk))%nat ∧
    NoDup (Bone.id <$> chain) ∧ stored sk chain ∧
    (∀ k b c, chain !! k = Some b → chain !! S k = Some c →
       Bone.parent_id c = Some (Bone.id b)) ∧
    match get_bone sk e with
    | Some bone => last chain = Some bone
    | None => chain = []
    end ∧
    (∀ r p, head chain = Some r → Bone.parent_id r = Some p →
       get_bone sk p = None ∨ p ∈ Bone.id <$> chain).
Proof.
  destruct (get_chain_walk sk e) as (walk & Hc & Hlinks & Hend & Hst & Hnd & He).
  exists (reverse walk). split; [done |].
  split.
  { assert (Hsub : Bone.id <$> walk ⊆+ Bone.id <$> bones sk).
    { apply NoDup_submseteq; [done |].
      intros x (b & -> & Hb)%list_elem_of_fmap.
      apply get_bone_is_Some. rewrite (Hst b Hb). eauto. }
    apply submseteq_length in Hsub.
    by rewrite !length_fmap in Hsub; rewrite length_reverse. }
  split; [by rewrite fmap_reverse, reverse_Permutation |].
  split; [intros b Hb; by apply Hst, elem_of_reverse |].
  split; [by apply (get_chain_links sk e) |].
  split.
  { destruct (get_bone sk e); [by rewrite last_reverse | by subst]. }
  intros r p Hr Hp. rewrite head_reverse in Hr.
  destruct (Hend r p Hr Hp) as [? | Hin]; [by left | right].
  by rewrite fmap_reverse, elem_of_reverse.
Qed.

(** Walking up from a bone of depth [n], the bone met after [k] steps has
    depth [n - k]. *)
Lemma walk_depth sk walk b0 n :
  linked_up walk → stored sk walk →
  walk !! 0%nat = Some b0 → depth sk (Bone.id b0) n →
  ∀ k b, walk !! k = Some b → (k ≤ n)%nat ∧ depth sk (Bone.id b) (n - k).
Proof.
  intros Hl Hst H0 Hd. induction k as [| k IH]; intros b Hb.
  - assert (b = b0) as -> by congruence.
    split; [lia |]. by rewrite Nat.sub_0_r.
  - destruct (lookup_lt_is_Some_2 walk k) as [a Ha].
    { apply lookup_lt_Some in Hb. lia. }
    destruct (IH a Ha) as [Hk Hda].
    pose proof (Hl k a b Ha Hb) as Hp.
    assert (Hpa : parent_of sk (Bone.id a) = Some (Some (Bone.id b))).
    { unfold parent_of. rewrite (Hst a) by by eapply list_elem_of_lookup_2.
      cbn. by rewrite Hp. }
    inversion Hda as [? Hroot | ? p m Hpar Hdp Heq]; subst; [congruence |].
    assert (p = Bone.id b) as -> by congruence.
    split; [lia |]. by replace (n - S k)%nat with m by lia.
Qed.

(** X5. When parent links lead from the end bone to a root bone in [n]
    steps, [get_chain] returns exactly those [n + 1] bones: the chain
    starts with a bone that has no parent. *)
Theorem get_chain_connected sk e (n : nat) :
  depth sk e n →
  ∃ chain r, get_chain sk e = Ok chain ∧
    Datatypes.length chain = S n ∧
    head chain = Some r ∧ Bone.parent_id r = None.
Proof.
  intros Hd.
  destruct (get_chain_walk sk e) as (walk & Hc & Hlinks & Hend & Hst & Hnd & He).
  assert (Hbone : ∃ bone, get_bone sk e = Some bone).
  { apply depth_in, get_bone_is_Some in Hd. by destruct Hd as [bone ?]; eauto. }
  destruct Hbone as [bone Hbone]. rewrite Hbone in He.
  apply get_bone_Some in Hbone as Hid. destruct Hid as [_ Hid].
  rewrite head_lookup in He.
  assert (Hdepths := walk_depth sk walk bone n Hlinks Hst He).
  rewrite <- Hid in Hd. specialize (Hdepths Hd).
  destruct (last walk) as [r |] eqn:Hlast.
  2:{ apply last_None in Hlast. by subst. }
  pose proof Hlast as Hlast'. rewrite last_lookup in Hlast'.
  destruct (Hdepths _ _ Hlast') as [Hle Hdr].
  assert (Hlen : (0 < Datatypes.length walk)%nat)
    by (apply lookup_lt_Some in He; lia).
  exists (reverse walk), r. split; [done |].
  rewrite length_reverse, head_reverse. 
  destruct (Bone.parent_id r) as [p |] eqn:Hp.
  - exfalso.
    assert (Hpr : parent_of sk (Bone.id r) = Some (Some p)).
    { unfold parent_of. rewrite (Hst r) by by eapply list_elem_of_lookup_2.
      cbn. by rewrite Hp. }
    inversion Hdr as [? Hroot | ? p' m Hpar Hdp Heq]; subst; [congruence |].
    assert (p' = p) as -> by congruence.
    destruct (Hend r p Hlast Hp) as [Hnone | Hin].
    + apply depth_in, get_bone_is_Some in Hdp. rewrite Hnone in Hdp.
      by destruct Hdp.
    + apply list_elem_of_fmap in Hin as (b & -> & Hb).
      apply list_elem_of_lookup in Hb as [k Hk].
      destruct (Hdepths _ _ Hk) as [_ Hdb].
      pose proof (depth_fun sk _ _ _ Hdb Hdp) as Heqd.
      apply lookup_lt_Some in Hk. lia.
  - split; [| done].
    assert (Hr0 : depth sk (Bone.id r) 0).
    { apply depth_root. unfold parent_of.
      rewrite (Hst r) by by eapply list_elem_of_lookup_2. cbn. by rewrite Hp. }
    pose proof (depth_fun sk _ _ _ Hdr Hr0). lia.
Qed.

Lemma get_chain_connected_witness :
  ∃ chain r, get_chain rest_pose 1 = Ok chain ∧
    Datatypes.length chain = 2%nat ∧
    head chain = Some r ∧ Bone.parent_id r = None.
Proof.
  apply (get_chain_connected rest_pose 1 1).
  eapply depth_child; [| apply depth_root]; reflexivity.
Defined.

End chain_shape.

(** * Forward kinematics as a function of the static fields: proofs *)

Section fk_function.
Implicit Types (sk A B : Skeleton) (a b P : Bone.t) (i j p : Z).

Lemma bone_ext a b :
  static a = static b → Bone.world_x a = Bone.world_x b →
  Bone.world_y a = Bone.world_y b → Bone.world_angle a = Bone.world_angle b →
  a = b.
Proof.
  destruct a, b. unfold static. cbn. intros [= -> -> -> -> -> -> ->] -> -> ->.
  done.
Qed.

Lemma fk_consistent_unique A B :
  same_static A B → fk_consistent A → fk_consistent B →
  ∀ n j, depth A j n → get_bone A j = get_bone B j.
Proof.
  intros Hs [HrA HcA] [HrB HcB].
  pose proof Hs as (_ & Hx & Hy).
  induction n as [| n IH]; intros j Hd.
  - inversion Hd as [? Hp |]; subst.
    pose proof (get_bone_static A B j Hs) as Hst.
    pose proof Hp as HpB. rewrite (parent_of_static A B) in HpB by done.
    unfold parent_of in Hp.
    destruct (get_bone A j) as [a |] eqn:Ea; [| done].
    destruct (get_bone B j) as [b |] eqn:Eb; [| done].
    cbn in Hst. assert (Hab : static a = static b) by congruence.
    clear Hst. rename Hab into Hst. f_equal.
    destruct (HrA j a) as (Hax & Hay & Haa);
      [unfold parent_of; by rewrite Ea | done |].
    destruct (HrB j b HpB Eb) as (Hbx & Hby & Hba).
    apply bone_ext; [done | congruence | congruence |].
    rewrite Haa, Hba. unfold static in Hst.
    replace (Bone.rest_angle a) with (Bone.rest_angle b) by congruence.
    replace (Bone.current_angle a) with (Bone.current_angle b) by congruence.
    done.
  - inversion Hd as [| ? p ? Hp Hdp]; subst.
    pose proof (get_bone_static A B j Hs) as Hst.
    pose proof (IH p Hdp) as HP.
    assert (HPs : ∃ P, get_bone A p = Some P).
    { apply depth_in, get_bone_is_Some in Hdp. by destruct Hdp; eauto. }
    destruct HPs as [P HPA]. pose proof HPA as HPB. rewrite HP in HPB.
    unfold parent_of in Hp.
    destruct (get_bone A j) as [a |] eqn:Ea; [| done].
    destruct (get_bone B j) as [b |] eqn:Eb; [| done].
    cbn in Hst. assert (Hab : static a = static b) by congruence.
    clear Hst. rename Hab into Hst. cbn in Hp.
    assert (Hpa : Bone.parent_id a = Some p) by congruence.
    clear Hp. rename Hpa into Hp. f_equal.
    destruct (HcA j n Hd a p P Ea Hp HPA) as (Hax & Hay & Haa).
    assert (HdB : depth B j (S n))
      by (apply (depth_static B A); [by apply same_static_sym | done]).
    assert (HpB : Bone.parent_id b = Some p)
      by (unfold static in Hst; congruence).
    destruct (HcB j n HdB b p P Eb HpB HPB) as (Hbx & Hby & Hba).
    apply bone_ext; [done | congruence | congruence |].
    rewrite Haa, Hba. unfold static in Hst.
    replace (Bone.rest_angle a) with (Bone.rest_angle b) by congruence.
    replace (Bone.current_angle a) with (Bone.current_angle b) by congruence.
    done.
Qed.

(** What FK returns is consistent. *)
Lemma fk_result_consistent sk sk' :
  same_static sk' sk →
  (∀ r b, parent_of sk r = Some None → get_bone sk' r = Some b →
     set_at (root_x sk) (root_y sk) 0 b) →
  (∀ j n, depth sk j (S n) → placed sk' j) →
  fk_consistent sk'.
Proof.
  intros Hs Hroot Hchild. pose proof Hs as (_ & Hx & Hy). split.
  - intros r b Hr Hb. rewrite Hx, Hy. apply (Hroot r); [| done].
    by rewrite <- (parent_of_static sk' sk).
  - intros j n Hd. apply (Hchild j n). apply (depth_static sk sk'); [| done].
    by apply same_static_sym.
Qed.

(** Skeletons with the same static fields and the same lookups are equal. *)
Lemma skeleton_ext A B :
  skeleton_wf A → skeleton_wf B → same_static A B →
  (∀ j, get_bone A j = get_bone B j) → A = B.
Proof.
  intros HwA HwB (Hst & Hx & Hy) Hget.
  assert (Hbs : bones A = bones B).
  { apply list_eq. intros k.
    pose proof (f_equal (λ l, l !! k) Hst) as Hk. cbn in Hk.
    rewrite !list_lookup_fmap in Hk.
    destruct (bones A !! k) as [a |] eqn:Ea, (bones B !! k) as [b |] eqn:Eb;
      try done.
    cbn in Hk. f_equal.
    assert (Hid : Bone.id a = Bone.id b) by (unfold static in Hk; congruence).
    pose proof (get_bone_elem A a HwA (list_elem_of_lookup_2 _ _ _ Ea)) as Ha.
    pose proof (get_bone_elem B b HwB (list_elem_of_lookup_2 _ _ _ Eb)) as Hb.
    rewrite Hget, Hid, Hb in Ha. congruence. }
  destruct A, B. cbn in *. by subst.
Qed.

(** X6. FK writes world fields only, and only of connected bones: the
    skeleton it returns has the same bones in the same order with the same
    id, name, parent, length, rest and current angle and weight, the same
    anchor, and a bone that no chain of parent links connects to a root
    bone is exactly as it was. *)
Theorem forward_kinematics_frame sk :
  skeleton_wf sk →
  ∃ sk', calculate_forward_kinematics sk = Ok sk' ∧
    skeleton_wf sk' ∧
    static <$> bones sk' = static <$> bones sk ∧
    root_x sk' = root_x sk ∧ root_y sk' = root_y sk ∧
    ∀ j, (∀ n, ¬ depth sk j n) → get_bone sk' j = get_bone sk j.
Proof.
  intros Hwf.
  destruct (fk_spec sk Hwf) as (sk' & Hrun & Hs & Hout & _).
  exists sk'. split; [done |]. split; [by eapply same_static_wf |].
  by destruct Hs as (? & ? & ?).
Qed.

Lemma forward_kinematics_frame_witness :
  ∃ sk', calculate_forward_kinematics two_bones = Ok sk' ∧
    static <$> bones sk' = static <$> bones two_bones.
Proof.
  destruct (forward_kinematics_frame two_bones two_bones_wf)
    as (sk' & Hrun & _ & Hs & _).
  by exists sk'.
Defined.

(** X7. FK is idempotent: run on the skeleton it returned, it returns that
    skeleton again. *)
Theorem forward_kinematics_idempotent sk :
  skeleton_wf sk →
  ∃ sk', calculate_forward_kinematics sk = Ok sk' ∧
    calculate_forward_kinematics sk' = Ok sk'.
Proof.
  intros Hwf.
  destruct (fk_spec sk Hwf) as (sk1 & Hrun1 & Hs1 & _ & Hroot1 & Hchild1).
  assert (Hwf1 : skeleton_wf sk1) by by eapply same_static_wf.
  destruct (fk_spec sk1 Hwf1) as (sk2 & Hrun2 & Hs2 & Hout2 & Hroot2 & Hchild2).
  exists sk1. split; [done |]. rewrite Hrun2. f_equal.
  apply skeleton_ext; [by eapply same_static_wf | done | done |].
  intros j. destruct (classic (∃ n, depth sk1 j n)) as [[n Hd] | Hno].
  - apply (fk_consistent_unique sk2 sk1 Hs2) with n.
    + by apply (fk_result_consistent sk1).
    + by apply (fk_result_consistent sk).
    + by apply (depth_static sk2 sk1).
  - apply Hout2. intros n Hd. apply Hno. by exists n.
Qed.

Lemma forward_kinematics_idempotent_witness :
  ∃ sk', calculate_forward_kinematics two_bones = Ok sk' ∧
    calculate_forward_kinematics sk' = Ok sk'.
Proof. apply (forward_kinematics_idempotent two_bones two_bones_wf). Defined.

(** X8. The transform FK gives a connected bone depends on the anchor and
    on the static fields only: two skeletons that differ in their world
    fields alone come out of FK with every connected bone equal. *)
Theorem forward_kinematics_ignores_world sk1 sk2 :
  skeleton_wf sk1 → same_static sk1 sk2 →
  ∃ r1 r2, calculate_forward_kinematics sk1 = Ok r1 ∧
    calculate_forward_kinematics sk2 = Ok r2 ∧
    ∀ j n, depth sk1 j n → get_bone r1 j = get_bone r2 j.
Proof.
  intros Hwf1 Hs.
  assert (Hwf2 : skeleton_wf sk2)
    by (eapply same_static_wf; [by apply same_static_sym | done]).
  destruct (fk_spec sk1 Hwf1) as (r1 & Hrun1 & Hs1 & _ & Hroot1 & Hchild1).
  destruct (fk_spec sk2 Hwf2) as (r2 & Hrun2 & Hs2 & _ & Hroot2 & Hchild2).
  exists r1, r2. split; [done |]. split; [done |].
  intros j n Hd.
  assert (Hs12 : same_static r1 r2).
  { eapply same_static_trans; [done |].
    eapply same_static_trans; [done |]. by apply same_static_sym. }
  apply (fk_consistent_unique r1 r2 Hs12) with n.
  - by apply (fk_result_consistent sk1).
  - by apply (fk_result_consistent sk2).
  - by apply (depth_static r1 sk1).
Qed.

Lemma forward_kinematics_ignores_world_witness :
  ∃ r1 r2, calculate_forward_kinematics two_bones = Ok r1 ∧
    calculate_forward_kinematics rest_pose = Ok r2 ∧
    get_bone r1 1 = get_bone r2 1.
Proof.
  destruct (forward_kinematics_ignores_world two_bones rest_pose two_bones_wf)
    as (r1 & r2 & H1 & H2 & Heq).
  - by repeat split.
  - exists r1, r2. split; [done |]. split; [done |].
    apply (Heq 1%Z 1%nat).
    eapply depth_child; [| apply depth_root]; reflexivity.
Defined.

End fk_function.

(** * Clips: sorting, looking up and interpolating: proofs *)

Section clip_order.
Implicit Types (k : Keyframe.t) (kfs : list Keyframe.t) (c : Clip.t).

Lemma insert_by_time_at_time t k kfs :
  at_time t (Clip.insert_by_time k kfs) = at_time t (k :: kfs).
Proof.
  unfold at_time. induction kfs as [| k' kfs IH]; [done |].
  cbn [Clip.insert_by_time]. destruct (Rle_dec _ _) as [| Hlt]; [done |].
  rewrite filter_cons, IH, !filter_cons.
  destruct (decide (Keyframe.time k' = t)), (decide (Keyframe.time k = t));
    try done.
  lra.
Qed.

Lemma insert_by_time_perm k kfs : Clip.insert_by_time k kfs ≡ₚ k :: kfs.
Proof.
  induction kfs as [| k' kfs IH]; [done |].
  cbn [Clip.insert_by_time]. destruct (Rle_dec _ _); [done |].
  rewrite IH. apply Permutation_swap.
Qed.

Lemma insert_by_time_ascending k kfs :
  ascending kfs → ascending (Clip.insert_by_time k kfs).
Proof.
  unfold ascending. induction 1 as [| k' kfs Hs IH Hall]; cbn [Clip.insert_by_time].
  - by repeat constructor.
  - destruct (Rle_dec _ _) as [Hle | Hgt].
    + constructor; [by constructor |]. constructor; [done |].
      eapply Forall_impl; [exact Hall |]. cbn. intros; lra.
    + constructor; [done |].
      rewrite (insert_by_time_perm k kfs). constructor; [lra | done].
Qed.

Lemma sort_by_time_ascending kfs : ascending (Clip.sort_by_time kfs).
Proof.
  induction kfs as [| k kfs IH]; [constructor |].
  change (Clip.sort_by_time (k :: kfs))
    with (Clip.insert_by_time k (Clip.sort_by_time kfs)).
  by apply insert_by_time_ascending.
Qed.

Lemma sort_by_time_perm kfs : Clip.sort_by_time kfs ≡ₚ kfs.
Proof.
  induction kfs as [| k kfs IH]; [done |].
  change (Clip.sort_by_time (k :: kfs))
    with (Clip.insert_by_time k (Clip.sort_by_time kfs)).
  by rewrite insert_by_time_perm, IH.
Qed.

Lemma sort_by_time_at_time t kfs :
  at_time t (Clip.sort_by_time kfs) = at_time t kfs.
Proof.
  induction kfs as [| k kfs IH]; [done |].
  change (Clip.sort_by_time (k :: kfs))
    with (Clip.insert_by_time k (Clip.sort_by_time kfs)).
  rewrite insert_by_time_at_time.
  unfold at_time in *. by rewrite !filter_cons, IH.
Qed.

(** X9. Whatever the order of the keyframes before, [add_keyframe] leaves
    them ascending in time; they are the old keyframes and the new one,
    and the keyframes of any one time are in the order they had, the new
    one after the old ones. *)
Theorem add_keyframe_sorts c k :
  let kfs := Clip.keyframes (Clip.add_keyframe c k) in
  ascending kfs ∧ kfs ≡ₚ Clip.keyframes c ++ [k] ∧
  ∀ t, at_time t kfs = at_time t (Clip.keyframes c ++ [k]).
Proof.
  cbn. split; [apply sort_by_time_ascending |].
  split; [apply sort_by_time_perm |]. intros t. apply sort_by_time_at_time.
Qed.

Lemma insert_by_time_front k kfs :
  Forall (λ k', Keyframe.time k <= Keyframe.time k') kfs →
  Clip.insert_by_time k kfs = k :: kfs.
Proof.
  destruct 1 as [| k' kfs Hk _]; [done |].
  cbn. by destruct (Rle_dec _ _).
Qed.

Lemma sort_into_ascending k kfs :
  ascending kfs →
  ∃ earlier later, kfs = earlier ++ later ∧
    foldr Clip.insert_by_time [k] kfs = earlier ++ k :: later ∧
    Forall (λ k', Keyframe.time k' <= Keyframe.time k) earlier ∧
    Forall (λ k', Keyframe.time k < Keyframe.time k') later.
Proof.
  unfold ascending. induction 1 as [| x kfs Hs IH Hall].
  - exists [], []. by repeat split.
  - destruct IH as (earlier & later & -> & Hrun & He & Hl). cbn [foldr].
    rewrite Hrun. destruct (Rle_dec (Keyframe.time x) (Keyframe.time k)) as [Hle | Hgt].
    + exists (x :: earlier), later. split; [done |].
      split; [| split; [by constructor | done]].
      rewrite insert_by_time_front; [done |].
      apply Forall_app in Hall as [Hall1 Hall2].
      apply Forall_app. split; [done |]. by constructor.
    + assert (earlier = []) as ->.
      { destruct earlier as [| y ?]; [done |]. exfalso.
        apply Forall_cons in He as [He _].
        cbn in Hall. apply Forall_cons in Hall as [Hy _]. lra. }
      exists [], (x :: later). cbn in *. split; [done |].
      destruct (Rle_dec _ _); [lra |].
      rewrite insert_by_time_front by done.
      split; [done |]. split; [done |]. constructor; [lra | done].
Qed.

(** X10. On a clip whose keyframes ascend in time, [add_keyframe] puts the
    new keyframe behind the keyframes that are not later than it and
    before the later ones, and moves no other; the duration becomes the
    larger of the old duration and the new keyframe's time. *)
Theorem add_keyframe_inserts c k :
  ascending (Clip.keyframes c) →
  (∃ earlier later, Clip.keyframes c = earlier ++ later ∧
    Clip.keyframes (Clip.add_keyframe c k) = earlier ++ k :: later ∧
    Forall (λ k', Keyframe.time k' <= Keyframe.time k) earlier ∧
    Forall (λ k', Keyframe.time k < Keyframe.time k') later) ∧
  Clip.duration (Clip.add_keyframe c k) =
    match Clip.keyframes c with
    | [] => Keyframe.time k
    | _ => Rmax (Clip.duration c) (Keyframe.time k)
    end.
Proof.
  intros Hasc.
  destruct (sort_into_ascending k (Clip.keyframes c) Hasc)
    as (earlier & later & Hsplit & Hrun & He & Hl).
  assert (Hkfs : Clip.keyframes (Clip.add_keyframe c k) = earlier ++ k :: later).
  { cbn. unfold Clip.sort_by_time. by rewrite foldr_app. }
  split; [by exists earlier, later |].
  unfold Clip.duration. rewrite Hkfs, Hsplit.
  destruct later as [| l0 later _] using rev_ind.
  - rewrite app_nil_r, last_snoc.
    destruct earlier as [| e0 earlier _] using rev_ind; [done |].
    apply Forall_app in He as [_ He]. apply Forall_cons in He as [He _].
    rewrite last_snoc.
    destruct (earlier ++ [e0]) eqn:E; [by destruct earlier |].
    by rewrite Rmax_right.
  - apply Forall_app in Hl as [_ Hl]. apply Forall_cons in Hl as [Hl _].
    rewrite (app_assoc earlier), last_snoc.
    replace (earlier ++ k :: later ++ [l0]) with ((earlier ++ k :: later) ++ [l0])
      by by rewrite <- app_assoc.
    rewrite last_snoc.
    destruct ((earlier ++ later) ++ [l0]) eqn:E;
      [by destruct (earlier ++ later) |].
    rewrite Rmax_left; [done | lra].
Qed.

Lemma add_keyframe_inserts_witness :
  Clip.duration (Clip.add_keyframe pong_clip (Keyframe.mk 2 ∅ LINEAR)) =
    Rmax (Clip.duration pong_clip) 2.
Proof.
  apply (add_keyframe_inserts pong_clip (Keyframe.mk 2 ∅ LINEAR)).
  unfold ascending. cbn. repeat constructor. cbn. lra.
Defined.

End clip_order.

Section clip_lookup.
Implicit Types (k : Keyframe.t) (kfs : list Keyframe.t) (c : Clip.t).

(** The scan stops at the first adjacent pair around [t]; started on a
    keyframe before [t] with a keyframe after [t] at the end, it finds
    one. *)
Lemma scan_bracket kfs first final t :
  head kfs = Some first → last kfs = Some final →
  Keyframe.time first < t → t < Keyframe.time final →
  ∃ (i : nat) k0 k1, kfs !! i = Some k0 ∧ kfs !! S i = Some k1 ∧
    Keyframe.time k0 < t <= Keyframe.time k1 ∧
    (∀ j k', (j ≤ i)%nat → kfs !! j = Some k' → Keyframe.time k' < t) ∧
    Clip.scan kfs t = Some (Clip.interpolate k0 k1 t).
Proof.
  revert first. induction kfs as [| k0 kfs IH]; intros first Hh Hl Hlo Hhi;
    [done |].
  cbn in Hh. injection Hh as ->.
  destruct kfs as [| k1 kfs].
  { cbn in Hl. injection Hl as ->. lra. }
  cbn [Clip.scan]. destruct (Rle_dec _ _) as [_ | ?]; [| lra].
  destruct (Rle_dec t (Keyframe.time k1)) as [Hle | Hgt].
  - exists 0%nat, first, k1. repeat split; try done; try lra.
    intros j k' Hj Hk'. assert (j = 0%nat) as -> by lia.
    cbn in Hk'. by injection Hk' as <-.
  - destruct (IH k1) as (i & a & b & Ha & Hb & Hab & Hfirst & Hscan);
      [done | by rewrite last_cons_cons in Hl | lra | done |].
    exists (S i), a, b. repeat split; try done; try lra.
    intros [| j] k' Hj Hk'.
    + cbn in Hk'. by injection Hk' as <-.
    + apply (Hfirst j); [lia | done].
Qed.

(** X11. Between the times of its first and its last keyframe, [sample]
    interpolates: the scan always finds an adjacent pair of keyframes
    around the looked-up time, the first such pair of the list, and the
    return after the loop is never reached. *)
Theorem sample_interpolates c first rest final t :
  Clip.keyframes c = first :: rest → last (Clip.keyframes c) = Some final →
  Keyframe.time first < Clip.normalize c t →
  Clip.normalize c t < Keyframe.time final →
  ∃ (i : nat) k0 k1,
    Clip.keyframes c !! i = Some k0 ∧ Clip.keyframes c !! S i = Some k1 ∧
    Keyframe.time k0 < Clip.normalize c t <= Keyframe.time k1 ∧
    (∀ j k', (j ≤ i)%nat → Clip.keyframes c !! j = Some k' →
       Keyframe.time k' < Clip.normalize c t) ∧
    Clip.sample c t = Clip.interpolate k0 k1 (Clip.normalize c t).
Proof.
  intros Hk Hl Hlo Hhi.
  destruct (scan_bracket (Clip.keyframes c) first final (Clip.normalize c t))
    as (i & k0 & k1 & H0 & H1 & Hb & Hfirst & Hscan);
    [by rewrite Hk | done | done | done |].
  exists i, k0, k1. repeat split; try done; try apply Hb.
  unfold Clip.sample. rewrite Hl, Hscan. rewrite Hk.
  destruct (Rle_dec _ _); [lra |]. destruct (Rge_dec _ _); [lra | done].
Qed.

(** The floor of a quotient in [[0, 1)]. *)
Lemma fmod_small a b : 0 <= a < b → fmod a b = a.
Proof.
  intros Hab. unfold fmod. rewrite (Zfloor_eq 0); [lra |].
  split.
  - apply Rmult_le_pos; [lra |]. left. apply Rinv_0_lt_compat. lra.
  - apply (Rmult_lt_reg_r b); [lra |]. unfold Rdiv.
    rewrite Rmult_assoc, Rinv_l by lra. lra.
Qed.


Lemma sample_witness_time : Clip.normalize pong_clip (1 / 2) = 1 / 2.
Proof.
  unfold Clip.normalize, Clip.duration. cbn.
  destruct (Rlt_dec 0 1); [| lra].
  rewrite fmod_small by lra. destruct (Rle_dec _ _); [done | lra].
Qed.

Lemma sample_interpolates_witness :
  ∃ (i : nat) k0 k1,
    Clip.keyframes pong_clip !! i = Some k0 ∧
    Clip.keyframes pong_clip !! S i = Some k1 ∧
    Clip.sample pong_clip (1 / 2) =
      Clip.interpolate k0 k1 (Clip.normalize pong_clip (1 / 2)).
Proof.
  destruct (sample_interpolates pong_clip (Keyframe.mk 0 {[ 1%Z := 0 ]} LINEAR)
              [Keyframe.mk 1 {[ 1%Z := 1 ]} LINEAR]
              (Keyframe.mk 1 {[ 1%Z := 1 ]} LINEAR) (1 / 2))
    as (i & k0 & k1 & H0 & H1 & _ & _ & Hs).
  - reflexivity.
  - reflexivity.
  - rewrite sample_witness_time. cbn. lra.
  - rewrite sample_witness_time. cbn. lra.
  - by exists i, k0, k1.
Defined.

(** The eased weight of the later keyframe. *)
Lemma interpolate_lookup k0 k1 t bid :
  ∃ alpha,
    (Keyframe.time k0 <= t <= Keyframe.time k1 → 0 <= alpha <= 1) ∧
    (Keyframe.easing k0 = STEP → alpha = 0) ∧
    (t = Keyframe.time k0 → alpha = 0) ∧
    (t = Keyframe.time k1 → Keyframe.time k0 < Keyframe.time k1 →
       Keyframe.easing k0 ≠ STEP → alpha = 1) ∧
    Clip.interpolate k0 k1 t !! bid =
      match Keyframe.bone_angles k0 !! bid, Keyframe.bone_angles k1 !! bid with
      | None, None => None
      | _, _ => Some (angle_of k0 bid + (angle_of k1 bid - angle_of k0 bid) * alpha)
      end.
Proof.
  unfold Clip.interpolate.
  set (span := Keyframe.time k1 - Keyframe.time k0).
  set (lin := if Rlt_dec 0 span then (t - Keyframe.time k0) / span else 0).
  assert (Hlin : Keyframe.time k0 <= t <= Keyframe.time k1 → 0 <= lin <= 1).
  { intros Ht. subst lin. destruct (Rlt_dec _ _) as [Hs |]; [| lra].
    split.
    - apply Rmult_le_pos; [lra |]. left. by apply Rinv_0_lt_compat.
    - apply (Rmult_le_reg_r span); [done |]. unfold Rdiv.
      rewrite Rmult_assoc, Rinv_l by lra. subst span. lra. }
  assert (Hlin0 : t = Keyframe.time k0 → lin = 0).
  { intros ->. subst lin. destruct (Rlt_dec _ _); [| done].
    unfold Rdiv. rewrite Rminus_diag. lra. }
  assert (Hlin1 : t = Keyframe.time k1 → Keyframe.time k0 < Keyframe.time k1 →
                  lin = 1).
  { intros -> Hlt. subst lin span. destruct (Rlt_dec _ _); [| lra].
    field. lra. }
  set (alpha := match Keyframe.easing k0 with
                | CUBIC => lin * lin * (3 - 2 * lin)
                | STEP => 0
                | LINEAR => lin
                end).
  exists alpha. split; [| split; [| split; [| split]]].
  - intros Ht. specialize (Hlin Ht). subst alpha.
    destruct (Keyframe.easing k0); [done | lra |]. split.
    + apply Rmult_le_pos; [apply Rmult_le_pos; lra | lra].
    + assert (0 <= (1 - lin) * (1 - lin) * (1 + 2 * lin))
        by (apply Rmult_le_pos; [apply Rmult_le_pos; lra | lra]).
      lra.
  - intros He. subst alpha. by rewrite He.
  - intros Ht. subst alpha. rewrite (Hlin0 Ht).
    destruct (Keyframe.easing k0); lra.
  - intros Ht Hlt He. subst alpha. rewrite (Hlin1 Ht Hlt).
    destruct (Keyframe.easing k0); [done | done | lra].
  - rewrite lookup_merge. unfold angle_of.
    by destruct (Keyframe.bone_angles k0 !! bid), (Keyframe.bone_angles k1 !! bid).
Qed.

(** X12. A pose interpolated at a time between the two keyframes has the
    ids of both keyframes and no other, and the angle of each id lies
    between its angles in the two keyframes, an id missing in one of them
    counting as 0 there; this holds for the linear, the cubic and the step
    easing. *)
Theorem interpolate_between k0 k1 t bid :
  Keyframe.time k0 <= t <= Keyframe.time k1 →
  match Clip.interpolate k0 k1 t !! bid with
  | Some v =>
    bid ∈ dom (Keyframe.bone_angles k0) ∪ dom (Keyframe.bone_angles k1) ∧
    Rmin (angle_of k0 bid) (angle_of k1 bid) <= v
      <= Rmax (angle_of k0 bid) (angle_of k1 bid)
  | None => bid ∉ dom (Keyframe.bone_angles k0) ∪ dom (Keyframe.bone_angles k1)
  end.
Proof.
  intros Ht.
  destruct (interpolate_lookup k0 k1 t bid) as (alpha & Ha & _ & _ & _ & ->).
  specialize (Ha Ht).
  assert (Hb : ∀ x y, Rmin x y <= x + (y - x) * alpha <= Rmax x y).
  { intros x y. unfold Rmin, Rmax. destruct (Rle_dec x y); split; nra. }
  destruct (Keyframe.bone_angles k0 !! bid) eqn:E0,
           (Keyframe.bone_angles k1 !! bid) eqn:E1;
    rewrite elem_of_union, !elem_of_dom, E0, E1;
    try (split; [eauto | apply Hb]).
  intros [[? ?] | [? ?]]; done.
Qed.

Lemma interpolate_between_witness :
  match Clip.interpolate (Keyframe.mk 0 {[ 1%Z := 0 ]} CUBIC)
          (Keyframe.mk 1 {[ 1%Z := 1 ]} LINEAR) (1 / 2) !! 1%Z with
  | Some v => 0 <= v <= 1
  | None => False
  end.
Proof.
  pose proof (interpolate_between (Keyframe.mk 0 {[ 1%Z := 0 ]} CUBIC)
                (Keyframe.mk 1 {[ 1%Z := 1 ]} LINEAR) (1 / 2) 1%Z) as H.
  destruct (Clip.interpolate _ _ _ !! 1%Z).
  - destruct H as [_ H]; [cbn; lra |].
    unfold angle_of in H. cbn in H. rewrite !lookup_singleton in H.
    rewrite !decide_True in H by done. cbn in H.
    unfold Rmin, Rmax in H. destruct (Rle_dec 0 1); lra.
  - apply H; [cbn; lra |]. apply elem_of_union_l, elem_of_dom.
    cbn. by rewrite lookup_singleton.
Defined.

(** X13. At a keyframe the interpolated pose is the keyframe's own: on
    the earlier keyframe's time every id has the angle of the earlier
    keyframe, and on the later keyframe's time, the two times apart and
    the easing not Step, the angle of the later one; under Step easing the
    angles are those of the earlier keyframe at every time. *)
Theorem interpolate_at_keyframes k0 k1 t bid v :
  Clip.interpolate k0 k1 t !! bid = Some v →
  (t = Keyframe.time k0 → v = angle_of k0 bid) ∧
  (Keyframe.easing k0 = STEP → v = angle_of k0 bid) ∧
  (t = Keyframe.time k1 → Keyframe.time k0 < Keyframe.time k1 →
     Keyframe.easing k0 ≠ STEP → v = angle_of k1 bid).
Proof.
  destruct (interpolate_lookup k0 k1 t bid) as (alpha & _ & Hs & H0 & H1 & ->).
  intros Hv.
  assert (Hval : v = angle_of k0 bid + (angle_of k1 bid - angle_of k0 bid) * alpha).
  { by destruct (Keyframe.bone_angles k0 !! bid), (Keyframe.bone_angles k1 !! bid);
      simplify_eq. }
  split; [| split].
  - intros Ht. rewrite Hval, (H0 Ht). lra.
  - intros He. rewrite Hval, (Hs He). lra.
  - intros Ht Hlt He. rewrite Hval, (H1 Ht Hlt He). lra.
Qed.

Lemma interpolate_at_keyframes_witness :
  Clip.interpolate (Keyframe.mk 0 {[ 1%Z := 0 ]} CUBIC)
    (Keyframe.mk 1 {[ 1%Z := 1 ]} LINEAR) 1 !! 1%Z = Some 1.
Proof.
  destruct (Clip.interpolate (Keyframe.mk 0 {[ 1%Z := 0 ]} CUBIC)
              (Keyframe.mk 1 {[ 1%Z := 1 ]} LINEAR) 1 !! 1%Z) as [v |] eqn:E.
  - destruct (interpolate_at_keyframes _ _ _ _ _ E) as (_ & _ & H).
    rewrite H; [| done | cbn; lra | done].
    unfold angle_of. cbn. by rewrite lookup_singleton.
  - unfold Clip.interpolate in E. rewrite lookup_merge in E. cbn in E.
    by rewrite !lookup_singleton in E.
Defined.






End clip_lookup.

(** * Inverse kinematics: what every call does: proofs *)

Section ik_total.
Implicit Types (sk s : Skeleton) (chain : list Bone.t) (b : Bone.t)
  (ps positions : list (R * R)) (lens : list R).

Lemma denom_pos r : 0 < denom r.
Proof.
  unfold denom, eps. destruct (Rlt_dec 0 r); [done |].
  apply Rinv_0_lt_compat. lra.
Qed.

(** A loop over joints below [n] whose turns keep [P]. *)
Lemma steps_keep (P : list (R * R) → Prop)
    (step : nat → list (R * R) → result (list (R * R))) (n : nat)
    (idxs : list nat) :
  (∀ i ps, (i < n)%nat → P ps → ∃ ps', step i ps = Ok ps' ∧ P ps') →
  Forall (λ i, (i < n)%nat) idxs →
  ∀ ps, P ps → ∃ ps', for_each idxs step ps = Ok ps' ∧ P ps'.
Proof.
  intros Hstep. induction 1 as [| i idxs Hi _ IH]; intros ps Hps.
  - by exists ps.
  - cbn. destruct (Hstep i ps Hi Hps) as (ps1 & -> & Hps1). cbn. by apply IH.
Qed.

Lemma seq_below n : Forall (λ i, (i < n)%nat) (seq 0 n).
Proof. apply Forall_forall. intros i Hi%elem_of_seq. lia. Qed.

Lemma stretch_step_keeps lens target n root i ps :
  Datatypes.length lens = n → (i < n)%nat → rooted n root ps →
  ∃ ps', stretch_step lens target i ps = Ok ps' ∧ rooted n root ps'.
Proof.
  intros Hn Hi [Hlen Hroot]. unfold stretch_step.
  destruct (lookup_lt_is_Some_2 ps i) as [p Hp]; [lia |].
  destruct (lookup_lt_is_Some_2 lens i) as [len Hl]; [lia |].
  rewrite (nth_or_raise_Some _ _ _ Hp), (nth_or_raise_Some _ _ _ Hl). cbn.
  rewrite set_or_raise_lt by lia. eexists. split; [done |].
  split; [by rewrite length_insert |]. by rewrite list_lookup_insert_ne.
Qed.

Lemma backward_step_keeps lens n root i ps :
  Datatypes.length lens = n → (i < n)%nat → rooted n root ps →
  ∃ ps', backward_step lens i ps = Ok ps' ∧ rooted n root ps'.
Proof.
  intros Hn Hi [Hlen Hroot]. unfold backward_step.
  destruct (lookup_lt_is_Some_2 ps i) as [p Hp]; [lia |].
  destruct (lookup_lt_is_Some_2 ps (S i)) as [q Hq]; [lia |].
  destruct (lookup_lt_is_Some_2 lens i) as [len Hl]; [lia |].
  rewrite (nth_or_raise_Some _ _ _ Hp), (nth_or_raise_Some _ _ _ Hq),
    (nth_or_raise_Some _ _ _ Hl). cbn.
  rewrite set_or_raise_lt by lia. eexists. split; [done |].
  split; [by rewrite length_insert |]. by rewrite list_lookup_insert_ne.
Qed.

Lemma fabrik_pass_keeps lens n root target ps :
  Datatypes.length lens = n → Datatypes.length ps = S n →
  ∃ ps', fabrik_pass lens root target ps = Ok ps' ∧ rooted n root ps'.
Proof.
  intros Hn Hlen. unfold fabrik_pass. rewrite Hlen.
  replace (S n - 1)%nat with n by lia.
  rewrite set_or_raise_lt by lia. cbn.
  destruct (forward_pass_returns lens n Hn (<[n := target]> ps))
    as (ps1 & -> & Hlen1); [by rewrite length_insert |].
  cbn. rewrite set_or_raise_lt by lia. cbn.
  apply (steps_keep (rooted n root) (backward_step lens) n).
  - intros i ps0 Hi Hps0. by apply backward_step_keeps.
  - apply seq_below.
  - split; [by rewrite length_insert |].
    apply list_lookup_insert_eq. lia.
Qed.

Lemma fabrik_loop_keeps lens n root target tolerance : ∀ iterations ps,
  Datatypes.length lens = n → rooted n root ps →
  ∃ ps', fabrik_loop iterations lens root target tolerance ps = Ok ps' ∧
    rooted n root ps'.
Proof.
  induction iterations as [| it IH]; intros ps Hn Hps.
  - by exists ps.
  - cbn [fabrik_loop].
    destruct (fabrik_pass_keeps lens n root target ps Hn (proj1 Hps))
      as (ps1 & -> & Hps1). cbn.
    destruct (lookup_lt_is_Some_2 ps1 (Datatypes.length ps1 - 1)) as [tip Htip];
      [destruct Hps1 as [-> _]; lia |].
    rewrite (nth_or_raise_Some _ _ _ Htip). cbn.
    destruct (Rlt_dec _ _); [by exists ps1 | by apply IH].
Qed.

(** The solve returns for every chain that is not empty, and leaves the
    first joint where it was. *)
Lemma ik_positions_keeps chain target iterations tolerance :
  chain ≠ [] →
  ∃ ps, ik_positions chain target iterations tolerance = Ok ps ∧
    rooted (Datatypes.length chain) (chain_root chain) ps.
Proof.
  intros Hne.
  destruct (last chain) as [final |] eqn:Hlast;
    [| by apply last_None in Hlast].
  destruct chain as [| first chain']; [done |].
  set (chain := first :: chain') in *.
  assert (Hn : Datatypes.length (Bone.length <$> chain) = Datatypes.length chain)
    by apply length_fmap.
  unfold ik_positions.
  rewrite (nth_or_raise_Some _ _ final)
    by (rewrite last_lookup in Hlast; by replace (Datatypes.length chain - 1)%nat
          with (pred (Datatypes.length chain)) by lia).
  cbn [mbind result_bind].
  assert (Hlen0 : Datatypes.length (initial_positions chain final)
                    = S (Datatypes.length chain)).
  { unfold initial_positions. rewrite length_app, length_fmap. cbn. lia. }
  assert (Hroot : initial_positions chain final !! 0%nat = Some (chain_root chain))
    by done.
  rewrite (nth_or_raise_Some _ _ _ Hroot). cbn [mbind result_bind].
  rewrite Hlen0. replace (S (Datatypes.length chain) - 1)%nat
    with (Datatypes.length chain) by lia.
  destruct (Rlt_dec _ _).
  - apply (steps_keep (rooted (Datatypes.length chain) (chain_root chain))
             (stretch_step (Bone.length <$> chain) target) (Datatypes.length chain)).
    + intros i ps0 Hi Hps0. by apply stretch_step_keeps.
    + apply seq_below.
    + by split.
  - apply fabrik_loop_keeps; [done | by split].
Qed.

(** The write-back loop assigns world fields and current angles only, and
    only of the bones it is given. *)
Lemma apply_steps_fixed positions (xs : list (nat * Bone.t)) : ∀ s s',
  for_each xs (apply_step positions) s = Ok s' →
  ik_fixed <$> bones s' = ik_fixed <$> bones s ∧
  root_x s' = root_x s ∧ root_y s' = root_y s.
Proof.
  induction xs as [| [i b] xs IH]; intros s s' Hrun.
  - cbn in Hrun. by injection Hrun as <-.
  - cbn in Hrun. unfold apply_step at 1 in Hrun.
    destruct (nth_or_raise positions i) as [p |]; [| done].
    destruct (nth_or_raise positions (S i)) as [q |]; [| done].
    cbn in Hrun. apply IH in Hrun as (Hb & Hx & Hy).
    rewrite Hb, Hx, Hy. split; [| done]. cbn.
    by apply update_first_fmap.
Qed.

(** The solver as a whole: the chain, the positions and the write-back. *)
Lemma inverse_kinematics_runs sk e tx ty iterations tolerance chain :
  get_chain sk e = Ok chain → (2 ≤ Datatypes.length chain)%nat →
  ∃ positions tip sk',
    ik_positions chain (tx, ty) iterations tolerance = Ok positions ∧
    rooted (Datatypes.length chain) (chain_root chain) positions ∧
    last positions = Some tip ∧
    for_each (zip (seq 0 (Datatypes.length chain)) chain)
      (apply_step positions) sk = Ok sk' ∧
    calculate_inverse_kinematics sk e tx ty iterations tolerance
      = Ok (if Rlt_dec (dist tip (tx, ty)) tolerance then true else false, sk') ∧
    (∀ j, j ∉ Bone.id <$> chain → get_bone sk' j = get_bone sk j) ∧
    (∀ k b, chain !! k = Some b →
       ∃ b', get_bone sk' (Bone.id b) = Some b' ∧ written positions k b b').
Proof.
  intros Hc Hlen.
  destruct (get_chain_spec sk e) as (chain' & Hc' & Hst & Hnd & _).
  assert (chain' = chain) as -> by congruence.
  destruct (ik_positions_keeps chain (tx, ty) iterations tolerance)
    as (ps & Hps & Hpslen & Hroot); [intros ->; cbn in Hlen; lia |].
  destruct (apply_loop_spec sk chain ps Hst Hnd Hpslen)
    as (sk' & Hrun & Hframe & Hw).
  destruct (lookup_lt_is_Some_2 ps (Datatypes.length ps - 1)) as [tip Htip];
    [lia |].
  exists ps, tip, sk'. split; [done |]. split; [done |].
  split.
  { rewrite last_lookup.
    by replace (pred (Datatypes.length ps)) with (Datatypes.length ps - 1)%nat
      by lia. }
  split; [done |]. split; [| done].
  unfold calculate_inverse_kinematics. rewrite Hc. cbn.
  rewrite decide_False by lia. rewrite Hps. cbn. rewrite Hrun. cbn.
  by rewrite (nth_or_raise_Some _ _ _ Htip).
Qed.

(** X16. The solver returns on every skeleton, end bone, target,
    iteration count and tolerance: no index is out of range and no divisor
    is zero.  It changes no bone's id, name, parent link, length, rest
    angle or weight, nor the order of the bones or the anchor, and a bone
    off the chain is exactly as it was. *)
Theorem inverse_kinematics_total sk e (target_x target_y : R)
    (iterations : Z) (tolerance : R) :
  ∃ chain conv sk',
    get_chain sk e = Ok chain ∧
    calculate_inverse_kinematics sk e target_x target_y iterations tolerance
      = Ok (conv, sk') ∧
    ik_fixed <$> bones sk' = ik_fixed <$> bones sk ∧
    root_x sk' = root_x sk ∧ root_y sk' = root_y sk ∧
    (∀ j, j ∉ Bone.id <$> chain → get_bone sk' j = get_bone sk j) ∧
    (∀ r, 0 < denom r).
Proof.
  destruct (get_chain_spec sk e) as (chain & Hc & _).
  destruct (decide (Datatypes.length chain < 2)%nat) as [Hshort | Hlong].
  - exists chain, false, sk. split; [done |]. split.
    { unfold calculate_inverse_kinematics. rewrite Hc. cbn.
      by rewrite decide_True. }
    repeat split; try done. apply denom_pos.
  - destruct (inverse_kinematics_runs sk e target_x target_y iterations
                tolerance chain Hc)
      as (ps & tip & sk' & _ & _ & _ & Hloop & Hrun & Hframe & _); [lia |].
    apply apply_steps_fixed in Hloop as (Hb & Hx & Hy).
    eexists chain, _, sk'. split; [done |]. split; [exact Hrun |].
    repeat split; try done. apply denom_pos.
Qed.

(** X17. The solver leaves the first joint of the chain where it was: the
    first bone of the chain has the world position it had. *)
Theorem inverse_kinematics_keeps_root sk e (target_x target_y : R)
    (iterations : Z) (tolerance : R) chain r :
  get_chain sk e = Ok chain → head chain = Some r →
  ∃ conv sk' r',
    calculate_inverse_kinematics sk e target_x target_y iterations tolerance
      = Ok (conv, sk') ∧
    get_bone sk' (Bone.id r) = Some r' ∧
    Bone.world_x r' = Bone.world_x r ∧ Bone.world_y r' = Bone.world_y r.
Proof.
  intros Hc Hr.
  destruct (decide (Datatypes.length chain < 2)%nat) as [Hshort | Hlong].
  - exists false, sk, r. split.
    { unfold calculate_inverse_kinematics. rewrite Hc. cbn.
      by rewrite decide_True. }
    split; [| done].
    destruct (get_chain_spec sk e) as (chain' & Hc' & Hst & _).
    assert (chain' = chain) as -> by congruence.
    apply Hst. destruct chain; [done |]. cbn in Hr. injection Hr as ->.
    apply list_elem_of_here.
  - destruct (inverse_kinematics_runs sk e target_x target_y iterations
                tolerance chain Hc)
      as (ps & tip & sk' & _ & [_ Hroot] & _ & _ & Hrun & _ & Hw); [lia |].
    assert (H0 : chain !! 0%nat = Some r) by by destruct chain.
    destruct (Hw 0%nat r H0) as (r' & Hr' & p & q & Hp & _ & Hx & Hy & _).
    assert (p = chain_root chain) as -> by congruence.
    eexists _, sk', r'. split; [exact Hrun |]. split; [done |].
    unfold chain_root in Hx, Hy. rewrite Hr in Hx, Hy. done.
Qed.

Lemma inverse_kinematics_keeps_root_witness :
  ∃ conv sk' r',
    calculate_inverse_kinematics rest_pose 1 (-1) 0 20 (1 / 100) = Ok (conv, sk') ∧
    get_bone sk' 0 = Some r' ∧ Bone.world_x r' = 0 ∧ Bone.world_y r' = 0.
Proof.
  apply (inverse_kinematics_keeps_root rest_pose 1 (-1) 0 20 (1 / 100)
           [posed_bone 0 None 1 0 0; posed_bone 1 (Some 0%Z) 1 1 0]
           (posed_bone 0 None 1 0 0)); reflexivity.
Defined.

End ik_total.

(** * Inverse kinematics: the flag and the angles: proofs *)

Section ik_result.
Implicit Types (sk s : Skeleton) (chain : list Bone.t) (b : Bone.t)
  (ps positions : list (R * R)) (lens : list R).






End ik_result.

Section ik_angles.
Implicit Types (sk s : Skeleton) (chain : list Bone.t) (b : Bone.t)
  (ps positions : list (R * R)).

(** The turns of the write-back loop that are over are those of the
    places before the current one. *)
Lemma zip_seq_done chain (done : list (nat * Bone.t)) k b rest :
  zip (seq 0 (Datatypes.length chain)) chain = done ++ (k, b) :: rest →
  ∀ k0 b0, (k0, b0) ∈ done ↔ (k0 < k)%nat ∧ chain !! k0 = Some b0.
Proof.
  intros H.
  assert (Hk : k = Datatypes.length done).
  { assert (Hx : zip (seq 0 (Datatypes.length chain)) chain
                   !! Datatypes.length done = Some (k, b))
      by (rewrite H; by apply list_lookup_middle).
    apply lookup_zip_Some in Hx as [Hx _]. by apply lookup_seq in Hx as [-> _]. }
  assert (Hat : ∀ i x, done !! i = Some x →
                  zip (seq 0 (Datatypes.length chain)) chain !! i = Some x).
  { intros i x Hi. rewrite H. by apply lookup_app_l_Some. }
  intros k0 b0. split.
  - intros [i Hi]%list_elem_of_lookup_1.
    pose proof (lookup_lt_Some _ _ _ Hi) as Hlt.
    apply Hat, lookup_zip_Some in Hi as [Hs Hb].
    apply lookup_seq in Hs as [-> _]. cbn. split; [lia | done].
  - intros [Hlt Hb]. apply (list_elem_of_lookup_2 _ k0).
    assert (Hz : zip (seq 0 (Datatypes.length chain)) chain !! k0 = Some (k0, b0)).
    { apply lookup_zip_Some. split; [| done]. apply lookup_seq.
      split; [done |]. by eapply lookup_lt_Some. }
    rewrite H, lookup_app_l in Hz by lia. done.
Qed.

(** What the write-back loop leaves in the current angle of the bone of
    place [k]: the world angle less the rest angle, and less the world
    angle of the parent where the parent is an earlier bone of the chain. *)
Lemma apply_loop_angles sk chain positions :
  stored sk chain → NoDup (Bone.id <$> chain) →
  Datatypes.length positions = S (Datatypes.length chain) →
  ∃ sk', for_each (zip (seq 0 (Datatypes.length chain)) chain)
           (apply_step positions) sk = Ok sk' ∧
    ∀ k b, chain !! k = Some b →
      ∃ b', get_bone sk' (Bone.id b) = Some b' ∧
        Bone.parent_id b' = Bone.parent_id b ∧
        (Bone.parent_id b = None → angles_add_up 0 b') ∧
        (∀ pid, Bone.parent_id b = Some pid → get_bone sk pid = None →
           angles_add_up 0 b') ∧
        (∀ k0 b0, (k0 < k)%nat → chain !! k0 = Some b0 →
           Bone.parent_id b = Some (Bone.id b0) →
           ∃ b0', get_bone sk' (Bone.id b0) = Some b0' ∧
             angles_add_up (Bone.world_angle b0') b').
Proof.
  intros Hst Hnd Hlen.
  set (post := λ (s : Skeleton) (k : nat) (b b' : Bone.t),
         Bone.parent_id b' = Bone.parent_id b ∧
         (Bone.parent_id b = None → angles_add_up 0 b') ∧
         (∀ pid, Bone.parent_id b = Some pid → get_bone sk pid = None →
            angles_add_up 0 b') ∧
         (∀ k0 b0, (k0 < k)%nat → chain !! k0 = Some b0 →
            Bone.parent_id b = Some (Bone.id b0) →
            ∃ b0', get_bone s (Bone.id b0) = Some b0' ∧
              angles_add_up (Bone.world_angle b0') b')).
  destruct (for_each_inv
    (λ done s,
       (∀ j, j ∉ (Bone.id ∘ snd <$> done) → get_bone s j = get_bone sk j) ∧
       (∀ k b, (k, b) ∈ done →
          ∃ b', get_bone s (Bone.id b) = Some b' ∧ post s k b b'))
    (apply_step positions) (zip (seq 0 (Datatypes.length chain)) chain) sk)
    as (sk' & Hrun & Hframe & Hdone).
  - split; [done |]. intros k b Hin. by apply elem_of_nil in Hin.
  - intros done [k b] rest s Hsplit (Hframe & Hdone).
    pose proof (zip_seq_done _ _ _ _ _ Hsplit) as Hin_done.
    apply zip_seq_split in Hsplit as [Hkb Hids].
    assert (Hk : (k < Datatypes.length chain)%nat) by by eapply lookup_lt_Some.
    assert (Hfresh : Bone.id b ∉ (Bone.id ∘ snd <$> done)).
    { rewrite Hids in Hnd. apply NoDup_app in Hnd as (_ & Hdis & _).
      intros Hin. apply (Hdis _ Hin), list_elem_of_here. }
    assert (Hother : ∀ k0 b0, (k0, b0) ∈ done → Bone.id b ≠ Bone.id b0).
    { intros k0 b0 Hin Heq. apply Hfresh. rewrite Heq.
      apply list_elem_of_fmap. by exists (k0, b0). }
    destruct (lookup_lt_is_Some_2 positions k) as [p Hp]; [lia |].
    destruct (lookup_lt_is_Some_2 positions (S k)) as [q Hq]; [lia |].
    unfold apply_step.
    rewrite (nth_or_raise_Some _ _ _ Hp), (nth_or_raise_Some _ _ _ Hq). cbn.
    eexists. split; [done |].
    assert (Hb : get_bone s (Bone.id b) = Some b).
    { rewrite Hframe by done. apply Hst. by eapply list_elem_of_lookup_2. }
    split.
    + intros j Hj. rewrite fmap_app, not_elem_of_app in Hj. destruct Hj as [Hj Hjb].
      cbn in Hjb. apply not_elem_of_cons in Hjb as [Hjb _].
      rewrite get_bone_update by done.
      rewrite decide_False by congruence. by apply Hframe.
    + intros k1 b1 [Hin | Hin%list_elem_of_singleton]%elem_of_app.
      * destruct (Hdone k1 b1 Hin) as (b' & Hb' & Hpar & Hnone & Hmiss & Hprev).
        exists b'. split.
        { rewrite get_bone_update by done.
          rewrite decide_False; [done |]. by apply (Hother k1). }
        split; [done |]. split; [done |]. split; [done |].
        intros k0 b0 Hlt Hb0 Hp0.
        destruct (Hprev k0 b0 Hlt Hb0 Hp0) as (b0' & Hb0' & Hadd).
        exists b0'. split; [| done].
        rewrite get_bone_update by done. rewrite decide_False; [done |].
        apply (Hother k0). apply Hin_done. split; [| done].
        apply Hin_done in Hin as [? _]. lia.
      * injection Hin as -> ->. rewrite get_bone_update by done.
        rewrite decide_True, Hb by done. cbn. eexists. split; [done |].
        split; [done |]. unfold angles_add_up.
        cbn [Bone.world_angle Bone.set_world Bone.set_current_angle
             Bone.rest_angle Bone.current_angle].
        split; [intros ->; lra |]. split.
        { intros pid Hpid Hmiss. rewrite Hpid.
          destruct (decide (pid ∈ (Bone.id ∘ snd <$> done))) as [Hin | Hout].
          - apply list_elem_of_fmap in Hin as ([k0 b0] & -> & Hin). cbn in Hmiss.
            assert (Hb0 : b0 ∈ chain).
            { apply Hin_done in Hin as [_ Hb0]. by eapply list_elem_of_lookup_2. }
            by rewrite (Hst b0 Hb0) in Hmiss.
          - rewrite (Hframe pid Hout), Hmiss. lra. }
        intros k0 b0 Hlt Hb0 Hp0.
        assert (Hin : (k0, b0) ∈ done) by by apply Hin_done.
        destruct (Hdone k0 b0 Hin) as (b0' & Hb0' & _).
        exists b0'. split.
        { rewrite get_bone_update by done.
          rewrite decide_False; [done |]. by apply (Hother k0). }
        rewrite Hp0, Hb0'. lra.
  - exists sk'. split; [done |].
    intros k b Hkb. apply Hdone.
    apply (list_elem_of_lookup_2 _ k). apply lookup_zip_Some. split; [| done].
    apply lookup_seq. split; [done |]. by eapply lookup_lt_Some.
Qed.

(** X20. The angles the solver writes add up as FK adds them: in the
    skeleton it leaves, every bone of the chain after the first has its
    world angle equal to its parent's world angle plus its own rest and
    current angle, the parent being the bone before it on the chain; and
    the first bone has its world angle equal to its rest plus its current
    angle when it has no parent or its parent is not stored. *)
Theorem inverse_kinematics_angles sk e (target_x target_y : R)
    (iterations : Z) (tolerance : R) chain :
  get_chain sk e = Ok chain → (2 ≤ Datatypes.length chain)%nat →
  ∃ conv sk',
    calculate_inverse_kinematics sk e target_x target_y iterations tolerance
      = Ok (conv, sk') ∧
    (∀ k b0 b, chain !! k = Some b0 → chain !! S k = Some b →
       ∃ b0' b', get_bone sk' (Bone.id b0) = Some b0' ∧
         get_bone sk' (Bone.id b) = Some b' ∧
         Bone.parent_id b' = Some (Bone.id b0) ∧
         angles_add_up (Bone.world_angle b0') b') ∧
    (∀ r, head chain = Some r →
       (∀ pid, Bone.parent_id r = Some pid → get_bone sk pid = None) →
       ∃ r', get_bone sk' (Bone.id r) = Some r' ∧ angles_add_up 0 r').
Proof.
  intros Hc Hlen.
  destruct (inverse_kinematics_runs sk e target_x target_y iterations
              tolerance chain Hc Hlen)
    as (ps & tip & sk' & _ & [Hpslen _] & _ & Hloop & Hrun & _ & _).
  destruct (get_chain_spec sk e) as (chain' & Hc' & Hst & Hnd & _).
  assert (chain' = chain) as -> by congruence.
  destruct (apply_loop_angles sk chain ps Hst Hnd Hpslen) as (sk2 & Hloop2 & Hang).
  assert (sk2 = sk') as -> by congruence.
  eexists _, sk'. split; [exact Hrun |]. split.
  - intros k b0 b Hb0 Hb.
    pose proof (get_chain_links sk e chain Hc k b0 b Hb0 Hb) as Hpar.
    destruct (Hang (S k) b Hb) as (b' & Hb' & Hpar' & _ & _ & Hprev).
    destruct (Hprev k b0 (Nat.lt_succ_diag_r k) Hb0 Hpar) as (b0' & Hb0' & Hadd).
    exists b0', b'. split; [done |]. split; [done |]. split; [congruence | done].
  - intros r Hr Hroot.
    assert (H0 : chain !! 0%nat = Some r) by by destruct chain.
    destruct (Hang 0%nat r H0) as (r' & Hr' & _ & Hnone & Hmiss & _).
    exists r'. split; [done |].
    destruct (Bone.parent_id r) as [pid |] eqn:Ep.
    + by apply (Hmiss pid), Hroot.
    + by apply Hnone.
Qed.

Lemma inverse_kinematics_angles_witness :
  ∃ conv sk',
    calculate_inverse_kinematics rest_pose 1 (-1) 0 20 (1 / 100) = Ok (conv, sk') ∧
    ∃ r', get_bone sk' 0 = Some r' ∧ angles_add_up 0 r'.
Proof.
  destruct (inverse_kinematics_angles rest_pose 1 (-1) 0 20 (1 / 100)
              [posed_bone 0 None 1 0 0; posed_bone 1 (Some 0%Z) 1 1 0])
    as (conv & sk' & Hrun & _ & Hroot).
  - reflexivity.
  - cbn. lia.
  - exists conv, sk'. split; [done |].
    apply (Hroot (posed_bone 0 None 1 0 0)); [reflexivity | done].
Defined.

End ik_angles.

(** * Animator: reachable states and the clock: proofs *)

Section animator_states.
Implicit Types (a : Animator) (dt d : R) (o : op).

Lemma coherent_playback a b : playback_eq a b → coherent b → coherent a.
Proof.
  unfold coherent. intros (-> & -> & -> & -> & -> & -> & _). done.
Qed.

Lemma advance_coherent a dt :
  state a ≠ STOPPED →
  coherent a → coherent (advance_blend (advance_clock a dt) dt).
Proof.
  intros Hrun (Hc & Hb & Hs). unfold advance_blend. cbn [state advance_clock].
  destruct (state a) eqn:Es.
  - done.
  - unfold coherent. cbn. rewrite Es. done.
  - unfold coherent. cbn. rewrite Es. done.
  - destruct Hs as [Hcur Hbl]. cbn [_blend_duration advance_clock].
    destruct (Rlt_dec _ _).
    + destruct (Rge_dec _ _); unfold coherent; cbn; rewrite ?Es; done.
    + unfold coherent. cbn. rewrite Es. done.
Qed.

Lemma update_coherent a dt : coherent a → coherent (update a dt).2.
Proof.
  intros Ha.
  destruct (decide (state a = STOPPED ∨ state a = PAUSED)) as [Hidle | Hrun].
  - by rewrite update_idle.
  - eapply coherent_playback; [apply update_playback; tauto |].
    apply advance_coherent; tauto.
Qed.

Lemma run_op_coherent a o : coherent a → coherent (run_op a o).
Proof.
  intros Ha. pose proof Ha as (Hc & Hb & Hs). destruct o; cbn.
  - unfold play. destruct (clips a !! clip_name) eqn:E; [| done].
    unfold coherent. cbn. split; [| by eauto].
    intros n [= <-]. by rewrite E.
  - unfold coherent, stop. cbn. done.
  - unfold pause. by destruct (state a) eqn:Es.
  - unfold resume. by destruct (state a) eqn:Es.
  - unfold blend. destruct (clips a !! clip1) eqn:E1; [| done].
    destruct (clips a !! clip2) eqn:E2; [| done].
    unfold coherent. cbn. split; [| split; [| by eauto]].
    + intros n [= <-]. by rewrite E1.
    + intros n [= <-]. by rewrite E2.
  - unfold transition_to, play. destruct (clips a !! clip_name) eqn:E; [| done].
    destruct (truthy (current_clip a)) eqn:Et.
    + unfold coherent. cbn. split; [done |]. split.
      * intros n [= <-]. by rewrite E.
      * split; [| by eauto].
        unfold truthy in Et. destruct (current_clip a); [eauto | done].
    + unfold coherent. cbn. split; [| by eauto].
      intros n [= <-]. by rewrite E.
  - unfold coherent, add_clip. cbn. split; [| split; [| done]].
    + intros n Hn. apply lookup_insert_is_Some'. right. by apply Hc.
    + intros n Hn. apply lookup_insert_is_Some'. right. by apply Hb.
  - by apply update_coherent.
Qed.

(** X21. Whatever calls are made on a new Animator, in any order, with
    any arguments, returning or raising: the clip it plays and the clip it
    blends in are clips it has; stopped it has no current clip and its
    clock is at 0; playing or paused it has a current clip, no blend clip
    and a blend weight of 0; blending it has both clips. *)
Theorem animator_coherent (sk : Skeleton) (cl : gmap string Clip.t)
    (ops : list op) :
  coherent (foldl run_op (Animator_init sk cl) ops).
Proof.
  assert (H0 : coherent (Animator_init sk cl)) by (unfold coherent; cbn; done).
  revert H0. generalize (Animator_init sk cl).
  induction ops as [| o ops IH]; intros a Ha; [done |].
  cbn. apply IH. by apply run_op_coherent.
Qed.

Lemma updates_idle dts : ∀ a,
  state a = STOPPED ∨ state a = PAUSED → run_updates a dts = (Ok (), a).
Proof.
  induction dts as [| dt dts IH]; intros a Ha; [done |].
  cbn. rewrite (update_idle a dt Ha). by apply IH.
Qed.

(** X22. A paused Animator is frozen: paused while playing, it goes
    through any number of updates, whatever their [dt], without a change
    to its clock, its clips or its skeleton, and [resume] then gives back
    the very Animator that was paused. *)
Theorem pause_freezes a (dts : list R) :
  state a = PLAYING →
  run_updates (pause a) dts = (Ok (), pause a) ∧
  state (pause a) = PAUSED ∧
  resume (run_updates (pause a) dts).2 = a.
Proof.
  intros Hs.
  assert (Hp : state (pause a) = PAUSED) by (unfold pause; by rewrite Hs).
  rewrite updates_idle by by right.
  split; [done |]. split; [done |]. cbn.
  unfold resume. rewrite Hp. unfold pause. rewrite Hs.
  destruct a. cbn in *. by subst.
Qed.

Lemma pause_freezes_witness :
  resume (run_updates (pause (play demo_animator "A" true 1).2) [1; 2]).2
    = (play demo_animator "A" true 1).2.
Proof.
  apply (pause_freezes (play demo_animator "A" true 1).2 [1; 2]).
  reflexivity.
Defined.

Lemma update_playing a dt :
  state a = PLAYING →
  state (update a dt).2 = PLAYING ∧
  current_clip (update a dt).2 = current_clip a ∧
  blend_clip (update a dt).2 = blend_clip a ∧
  _speed (update a dt).2 = _speed a ∧
  _time (update a dt).2 = _time a + dt * _speed a.
Proof.
  intros Hs.
  destruct (update_playback a dt) as (_ & Hs' & Hc' & Hb' & _ & Ht' & Hv' & _);
    [congruence | congruence |].
  rewrite advance_blend_untimed in Hs', Hc', Hb', Ht', Hv'
    by (left; cbn; congruence).
  cbn in *. by rewrite Hs', Hc', Hb', Ht', Hv', Hs.
Qed.

Lemma updates_playing dts : ∀ a,
  state a = PLAYING →
  let a' := foldl (λ a dt, (update a dt).2) a dts in
  state a' = PLAYING ∧ current_clip a' = current_clip a ∧
  blend_clip a' = blend_clip a ∧ _speed a' = _speed a ∧
  _time a' = _time a + _speed a * total_dt dts.
Proof.
  induction dts as [| dt dts IH]; intros a Hs.
  - cbn. repeat split; try done. unfold total_dt. cbn. lra.
  - cbn. destruct (update_playing a dt Hs) as (Hs1 & Hc1 & Hb1 & Hv1 & Ht1).
    destruct (IH _ Hs1) as (Hs2 & Hc2 & Hb2 & Hv2 & Ht2).
    rewrite Hs2, Hc2, Hb2, Hv2, Ht2, Hc1, Hb1, Hv1, Ht1.
    repeat split; try done. unfold total_dt. cbn. lra.
Qed.

(** X23. The clock of a playing Animator runs at the speed given to
    [play]: after [play(name, reset_time, speed)] of a clip it has and any
    run of updates, all calls return, the Animator is still playing that
    clip, and its clock reads the start (0, or the old clock when
    [reset_time] is false) plus [speed] times the sum of the [dt]. *)
Theorem play_clock a (name : string) (reset_time : bool) (speed : R)
    (dts : list R) :
  skeleton_wf (skeleton a) → is_Some (clips a !! name) →
  ∃ a1 a2,
    play a name reset_time speed = (Ok (), a1) ∧
    run_updates a1 dts = (Ok (), a2) ∧
    state a2 = PLAYING ∧ current_clip a2 = Some name ∧ blend_clip a2 = None ∧
    _time a2 = (if reset_time then 0 else _time a) + speed * total_dt dts.
Proof.
  intros Hwf [c Hc]. unfold play. rewrite Hc.
  eexists _, _. split; [done |].
  rewrite run_updates_returns by done. split; [done |].
  match goal with |- context [foldl _ ?a1 dts] =>
    destruct (updates_playing dts a1 eq_refl) as (Hs & Hcur & Hb & _ & Ht)
  end.
  by rewrite Hs, Hcur, Hb, Ht.
Qed.

Lemma play_clock_witness :
  ∃ a1 a2,
    play demo_animator "A" true 2 = (Ok (), a1) ∧
    run_updates a1 [1; 2] = (Ok (), a2) ∧
    _time a2 = 0 + 2 * total_dt [1; 2].
Proof.
  destruct (play_clock demo_animator "A" true 2 [1; 2])
    as (a1 & a2 & H1 & H2 & _ & _ & _ & Ht).
  - apply two_bones_wf.
  - by eexists.
  - by exists a1, a2.
Defined.

End animator_states.

(** * Animator: transitions that never end and the pose written: proofs *)

Section animator_pose.
Implicit Types (a : Animator) (dt d : R) (sk : Skeleton) (pose : gmap Z R).

Lemma update_untimed a dt :
  state a = BLENDING → _blend_duration a <= 0 →
  state (update a dt).2 = BLENDING ∧
  current_clip (update a dt).2 = current_clip a ∧
  blend_clip (update a dt).2 = blend_clip a ∧
  blend_alpha (update a dt).2 = blend_alpha a ∧
  _blend_duration (update a dt).2 = _blend_duration a.
Proof.
  intros Hs Hd.
  destruct (update_playback a dt)
    as (_ & Hs' & Hc' & Hb' & Ha' & _ & _ & Hd' & _);
    [congruence | congruence |].
  rewrite advance_blend_untimed in Hs', Hc', Hb', Ha', Hd' by (right; done).
  cbn in *. by rewrite Hs', Hc', Hb', Ha', Hd', Hs.
Qed.

Lemma updates_untimed dts : ∀ a,
  state a = BLENDING → _blend_duration a <= 0 →
  let a' := foldl (λ a dt, (update a dt).2) a dts in
  state a' = BLENDING ∧ current_clip a' = current_clip a ∧
  blend_clip a' = blend_clip a ∧ blend_alpha a' = blend_alpha a.
Proof.
  induction dts as [| dt dts IH]; intros a Hs Hd; [done |].
  cbn. destruct (update_untimed a dt Hs Hd) as (Hs1 & Hc1 & Hb1 & Ha1 & Hd1).
  destruct (IH (update a dt).2) as (Hs2 & Hc2 & Hb2 & Ha2);
    [done | by rewrite Hd1 |].
  by rewrite Hs2, Hc2, Hb2, Ha2, Hc1, Hb1, Ha1.
Qed.

(** X25. A transition of duration 0 (or less) never completes: after
    [transition_to(B, d)] with [d <= 0] on an Animator with a current
    clip, every run of updates leaves it blending, with its old current
    clip, the blend clip [B] and the blend weight it had before the
    call. *)
Theorem transition_without_duration a (A B : string) (d : R) (dts : list R) :
  skeleton_wf (skeleton a) →
  truthy (current_clip a) = Some A → is_Some (clips a !! B) → d <= 0 →
  ∃ a1 a2,
    transition_to a B d = (Ok (), a1) ∧
    run_updates a1 dts = (Ok (), a2) ∧
    state a2 = BLENDING ∧ current_clip a2 = Some A ∧ blend_clip a2 = Some B ∧
    blend_alpha a2 = blend_alpha a.
Proof.
  intros Hwf Hcur [cB HB] Hd.
  assert (HA : current_clip a = Some A).
  { unfold truthy in Hcur. destruct (current_clip a) as [n |]; [| done].
    by destruct (bool_decide _); simplify_eq. }
  unfold transition_to. rewrite HB, Hcur.
  eexists _, _. split; [done |].
  rewrite run_updates_returns by done. split; [done |].
  match goal with |- context [foldl _ ?a1 dts] =>
    destruct (updates_untimed dts a1) as (Hs & Hc & Hb & Hal); [done | done |]
  end.
  by rewrite Hs, Hb, Hc, Hal.
Qed.

Lemma transition_without_duration_witness :
  ∃ a1 a2,
    transition_to (play demo_animator "A" true 1).2 "B" 0 = (Ok (), a1) ∧
    run_updates a1 [1; 2] = (Ok (), a2) ∧ state a2 = BLENDING.
Proof.
  destruct (transition_without_duration (play demo_animator "A" true 1).2
              "A" "B" 0 [1; 2])
    as (a1 & a2 & H1 & H2 & Hs & _).
  - apply two_bones_wf.
  - reflexivity.
  - by eexists.
  - lra.
  - by exists a1, a2.
Defined.

(** X26. The mix of two poses has the ids of both and no other; with a
    weight in [[0, 1]] the angle of each id lies between its angles in
    the two poses, an id missing in one of them counting as 0 there; the
    weight 0 gives the angles of the first pose and the weight 1 those of
    the second. *)
Theorem blend_poses_between pose blend_pose (alpha : R) (bid : Z) :
  0 <= alpha <= 1 →
  match blend_poses pose blend_pose alpha !! bid with
  | Some v =>
    bid ∈ dom pose ∪ dom blend_pose ∧
    Rmin (pose_angle pose bid) (pose_angle blend_pose bid) <= v
      <= Rmax (pose_angle pose bid) (pose_angle blend_pose bid) ∧
    (alpha = 0 → v = pose_angle pose bid) ∧
    (alpha = 1 → v = pose_angle blend_pose bid)
  | None => bid ∉ dom pose ∪ dom blend_pose
  end.
Proof.
  intros Ha. unfold blend_poses. rewrite lookup_merge.
  assert (Hb : ∀ x y, Rmin x y <= x + (y - x) * alpha <= Rmax x y).
  { intros x y. unfold Rmin, Rmax. destruct (Rle_dec x y); split; nra. }
  unfold pose_angle.
  destruct (pose !! bid) eqn:E0, (blend_pose !! bid) eqn:E1; cbn;
    rewrite elem_of_union, !elem_of_dom, E0, E1;
    try (split; [eauto | split; [apply Hb | split; intros ->; lra]]).
  intros [[? ?] | [? ?]]; done.
Qed.

Lemma blend_poses_between_witness :
  match blend_poses {[ 1%Z := 0 ]} {[ 1%Z := 1 ]} (1 / 2) !! 1%Z with
  | Some v => 0 <= v <= 1
  | None => False
  end.
Proof.
  pose proof (blend_poses_between {[ 1%Z := 0 ]} {[ 1%Z := 1 ]} (1 / 2) 1%Z) as H.
  destruct (blend_poses _ _ _ !! 1%Z).
  - destruct H as (_ & H & _); [lra |].
    unfold pose_angle in H. rewrite !lookup_singleton in H.
    rewrite !decide_True in H by done. cbn in H.
    unfold Rmin, Rmax in H. destruct (Rle_dec 0 1); lra.
  - apply H; [lra |]. apply elem_of_union_l, elem_of_dom.
    by rewrite lookup_singleton_eq.
Defined.

(** The loop "Apply angles to skeleton": a stored bone named in the pose
    gets the pose's angle, every other bone is as it was. *)
Lemma apply_pose_lookup sk pose j :
  get_bone (apply_pose sk pose) j =
    (λ b, match pose !! j with
          | Some angle => Bone.set_current_angle angle b
          | None => b
          end) <$> get_bone sk j.
Proof.
  unfold apply_pose. revert j.
  apply (map_fold_weak_ind (λ s (m : gmap Z R), ∀ j,
    get_bone s j = (λ b, match m !! j with
                         | Some angle => Bone.set_current_angle angle b
                         | None => b
                         end) <$> get_bone sk j)).
  - intros j. rewrite lookup_empty. by destruct (get_bone sk j).
  - intros i x m s Hi IH j.
    destruct (get_bone s i) as [bi |] eqn:Ei.
    + rewrite get_bone_update by done.
      destruct (decide (i = j)) as [<- | Hne].
      * rewrite lookup_insert_eq, Ei. rewrite IH, Hi in Ei.
        destruct (get_bone sk i); cbn in *; by simplify_eq.
      * by rewrite lookup_insert_ne, IH.
    + destruct (decide (i = j)) as [<- | Hne].
      * rewrite Ei. rewrite IH in Ei. by destruct (get_bone sk i).
      * by rewrite lookup_insert_ne, IH.
Qed.

(** An update that finds a pose writes it and runs FK. *)
Lemma update_writes a dt pose :
  skeleton_wf (skeleton a) → state a ≠ STOPPED → state a ≠ PAUSED →
  current_pose (advance_blend (advance_clock a dt) dt) = Some pose →
  ∃ a', update a dt = (Ok (), a') ∧
    playback_eq a' (advance_blend (advance_clock a dt) dt) ∧
    fk_consistent (skeleton a') ∧
    ∀ j b, get_bone (skeleton a) j = Some b →
      ∃ b', get_bone (skeleton a') j = Some b' ∧ ik_fixed b' = ik_fixed b ∧
        Bone.current_angle b' = default (Bone.current_angle b) (pose !! j).
Proof.
  intros Hwf Hs Hp Hpose.
  set (a2 := advance_blend (advance_clock a dt) dt) in *.
  assert (Hsk : skeleton a2 = skeleton a).
  { subst a2. unfold advance_blend.
    destruct (state (advance_clock a dt)); try done.
    destruct (Rlt_dec _ _); [| done]. by destruct (Rge_dec _ _). }
  set (sk1 := apply_pose (skeleton a2) pose).
  assert (Hwf1 : skeleton_wf sk1).
  { unfold skeleton_wf, sk1. by rewrite apply_pose_ids, Hsk. }
  destruct (fk_spec sk1 Hwf1) as (sk2 & Hfk & Hsame & _ & Hroot & Hchild).
  exists (set_skeleton sk2 a2). split.
  { unfold update. destruct (state a); try done; fold a2; rewrite Hpose;
      fold sk1; by rewrite Hfk. }
  split; [by repeat split |]. split; [by apply (fk_result_consistent sk1) |].
  intros j b Hb. cbn.
  pose proof (get_bone_static sk2 sk1 j Hsame) as Hst.
  unfold sk1 in Hst. rewrite apply_pose_lookup, Hsk, Hb in Hst.
  destruct (get_bone sk2 j) as [b' |]; [| done].
  exists b'. split; [done |]. cbn in Hst.
  assert (Hst' : static b' = static (match pose !! j with
                                     | Some angle => Bone.set_current_angle angle b
                                     | None => b
                                     end)) by congruence.
  unfold static in Hst'. unfold ik_fixed.
  destruct (pose !! j); cbn in *; split; congruence.
Qed.

(** X27. An update of an Animator that plays a clip: the call returns;
    the clock has advanced by [dt] times the speed; every bone named in
    the clip's sample at the new clock has that angle as its current
    angle, every other bone keeps the current angle it had, and no bone's
    id, name, parent, length, rest angle or weight changes; and the world
    transforms are those FK gives: root bones on the anchor, every
    connected bone on the tip of its parent. *)
Theorem update_applies_sample a dt (name : string) (clip : Clip.t) :
  skeleton_wf (skeleton a) → state a = PLAYING →
  current_clip a = Some name → name ≠ ""%string →
  clips a !! name = Some clip → blend_clip a = None →
  ∃ a', update a dt = (Ok (), a') ∧
    state a' = PLAYING ∧ _time a' = _time a + dt * _speed a ∧
    fk_consistent (skeleton a') ∧
    ∀ j b, get_bone (skeleton a) j = Some b →
      ∃ b', get_bone (skeleton a') j = Some b' ∧ ik_fixed b' = ik_fixed b ∧
        Bone.current_angle b' =
          default (Bone.current_angle b) (Clip.sample clip (_time a') !! j).
Proof.
  intros Hwf Hs Hc Hname Hclip Hb.
  assert (Hadv : advance_blend (advance_clock a dt) dt = advance_clock a dt).
  { apply advance_blend_untimed. left. cbn. congruence. }
  destruct (update_writes a dt (Clip.sample clip (_time a + dt * _speed a)))
    as (a' & Hrun & Heq & Hfk & Hpose); [done | congruence | congruence | |].
  { rewrite Hadv. unfold current_pose. cbn. rewrite Hc. cbn.
    rewrite bool_decide_eq_false_2 by done. rewrite Hclip, Hb. done. }
  rewrite Hadv in Heq.
  destruct Heq as (_ & Hs' & _ & _ & _ & Ht' & _). cbn in Hs', Ht'.
  exists a'. split; [done |]. split; [congruence |]. split; [done |].
  split; [done |]. by rewrite Ht'.
Qed.

Lemma update_applies_sample_witness :
  ∃ a', update (play demo_animator "A" true 1).2 (1 / 2) = (Ok (), a') ∧
    state a' = PLAYING.
Proof.
  destruct (update_applies_sample (play demo_animator "A" true 1).2 (1 / 2)
              "A" (demo_clip "A"))
    as (a' & Hrun & Hs & _).
  - apply two_bones_wf.
  - reflexivity.
  - reflexivity.
  - done.
  - reflexivity.
  - reflexivity.
  - by exists a'.
Defined.

(** X28. An update of a manual blend: after [blend(A, B, alpha)] of two
    clips it has, with no timed transition pending, an update returns,
    leaves the Animator blending with the weight [alpha] clamped to
    [[0, 1]], and writes to every bone named in either sample the mix of
    the two clips' samples at the new clock with that weight. *)
Theorem update_applies_blend a dt (A B : string) (cA cB : Clip.t) (alpha : R) :
  skeleton_wf (skeleton a) → _blend_duration a <= 0 →
  A ≠ ""%string → B ≠ ""%string →
  clips a !! A = Some cA → clips a !! B = Some cB →
  ∃ a1 a2,
    blend a A B alpha = (Ok (), a1) ∧ update a1 dt = (Ok (), a2) ∧
    state a2 = BLENDING ∧ blend_alpha a2 = Rmax 0 (Rmin 1 alpha) ∧
    ∀ j b, get_bone (skeleton a) j = Some b →
      ∃ b', get_bone (skeleton a2) j = Some b' ∧
        Bone.current_angle b' =
          default (Bone.current_angle b)
            (blend_poses (Clip.sample cA (_time a2)) (Clip.sample cB (_time a2))
               (Rmax 0 (Rmin 1 alpha)) !! j).
Proof.
  intros Hwf Hd HA HB HcA HcB.
  set (a1 := mkAnimator (skeleton a) (clips a) BLENDING (Some A) (Some B)
               (Rmax 0 (Rmin 1 alpha)) (_time a) (_speed a)
               (_blend_duration a) (_blend_time a)).
  assert (Hadv : advance_blend (advance_clock a1 dt) dt = advance_clock a1 dt).
  { apply advance_blend_untimed. right. done. }
  destruct (update_writes a1 dt
              (blend_poses (Clip.sample cA (_time a + dt * _speed a))
                 (Clip.sample cB (_time a + dt * _speed a))
                 (Rmax 0 (Rmin 1 alpha))))
    as (a' & Hrun & Heq & _ & Hpose); [done | done | done | |].
  { rewrite Hadv. unfold current_pose. cbn.
    rewrite !bool_decide_eq_false_2 by done. by rewrite HcA, HcB. }
  rewrite Hadv in Heq.
  destruct Heq as (_ & Hs' & _ & _ & Hal' & Ht' & _). cbn in Hs', Hal', Ht'.
  exists a1, a'. split; [unfold blend; by rewrite HcA, HcB |].
  split; [done |]. split; [done |]. split; [done |].
  intros j b Hb. destruct (Hpose j b Hb) as (b' & Hb' & _ & Hang).
  exists b'. split; [done |]. by rewrite Ht'.
Qed.

Lemma update_applies_blend_witness :
  ∃ a1 a2,
    blend demo_animator "A" "B" (1 / 2) = (Ok (), a1) ∧
    update a1 1 = (Ok (), a2) ∧ state a2 = BLENDING.
Proof.
  destruct (update_applies_blend demo_animator 1 "A" "B" (demo_clip "A")
              (demo_clip "B") (1 / 2))
    as (a1 & a2 & H1 & H2 & Hs & _).
  - apply two_bones_wf.
  - cbn. lra.
  - done.
  - done.
  - reflexivity.
  - reflexivity.
  - by exists a1, a2.
Defined.

End animator_pose.

(** * Binary64: transitions and loops: proofs *)

Section binary64_remainder.
Import PrimFloat.

(** [%] on some floats: both signs of either operand, a remainder that
    the addition of the divisor rounds up to the divisor itself, and the
    largest float by the smallest. *)
Lemma float_rem_values :
  F64.float_rem 5.5 2 = 1.5%float ∧ F64.float_rem (-5.5) 2 = 0.5%float ∧
  F64.float_rem 7 (-2) = (-1)%float ∧ F64.float_rem (-7) (-2) = (-1)%float ∧
  F64.float_rem (-0x1p-70) 1 = 1%float ∧
  F64.float_rem 0x1.fffffffffffffp1023 0x1p-1074 = 0%float ∧
  F64.float_rem 0x1.fffffffffffffp1023 3 = 2%float.
Proof. by vm_compute. Qed.

End binary64_remainder.

Section transitions_binary64.
Import PrimFloat.
Local Open Scope float_scope.
Context {Sk : Type} (write_pose : gmap Z float → Sk → Sk).
Implicit Types (a : @F64.Animator Sk) (dt d bt : float) (dts : list float).

Lemma update64_fields a dt :
  F64.state a ≠ STOPPED → F64.state a ≠ PAUSED →
  let a2 := F64.advance_blend (F64.advance_clock a dt) dt in
  let a' := F64.update write_pose a dt in
  F64.state a' = F64.state a2 ∧ F64.current_clip a' = F64.current_clip a2 ∧
  F64.blend_clip a' = F64.blend_clip a2 ∧
  F64._blend_duration a' = F64._blend_duration a2 ∧
  F64._blend_time a' = F64._blend_time a2.
Proof.
  intros Hs Hp. unfold F64.update.
  destruct (F64.state a) eqn:E; try done; by destruct (F64.current_pose _).
Qed.

Lemma update64_settled a B dt :
  F64.settled B a → F64.settled B (F64.update write_pose a dt).
Proof.
  intros (Hs & Hc & Hb).
  destruct (update64_fields a dt) as (Hs' & Hc' & Hb' & _);
    [congruence | congruence |].
  unfold F64.settled. rewrite Hs', Hc', Hb'.
  unfold F64.advance_blend. cbn. by rewrite Hs.
Qed.

Lemma updates64_settled B dts : ∀ a,
  F64.settled B a → F64.settled B (foldl (F64.update write_pose) a dts).
Proof.
  induction dts as [| dt dts IH]; intros a Ha; [done |].
  cbn. apply IH. by apply update64_settled.
Qed.

(** One update of a crossfade: it completes, or it goes on with the timer
    advanced; it completes when the quotient of the timer and the duration
    is not below [1.0]. *)
Lemma update64_transitioning a B d bt dt :
  F64.transitioning B d bt a → (0 <? d) = true →
  let a' := F64.update write_pose a dt in
  (F64.settled B a' ∨ F64.transitioning B d (bt + dt) a') ∧
  (((bt + dt) / d <? 1) = false → F64.settled B a').
Proof.
  intros (Hs & Hb & Hd & Ht) Hpos a'.
  destruct (update64_fields a dt) as (Hs' & Hc' & Hb' & Hd' & Ht');
    [congruence | congruence |].
  fold a' in Hs', Hc', Hb', Hd', Ht'.
  unfold F64.settled, F64.transitioning. rewrite Hs', Hc', Hb', Hd', Ht'.
  unfold F64.advance_blend. cbn. rewrite Hs, Hd, Hpos, Ht.
  unfold F64.py_min.
  destruct ((bt + dt) / d <? 1) eqn:Eq.
  - destruct (1 <=? (bt + dt) / d); cbn; split; try done; [by left | by right].
  - change (1 <=? 1) with true. cbn. split; [by left | done].
Qed.

Lemma updates64_complete B d dts : ∀ a bt,
  F64.transitioning B d bt a → (0 <? d) = true → dts ≠ [] →
  (foldl add bt dts / d <? 1) = false →
  F64.settled B (foldl (F64.update write_pose) a dts).
Proof.
  induction dts as [| dt dts IH]; intros a bt Ha Hpos Hne Hq; [done |].
  cbn in Hq |- *.
  destruct (update64_transitioning a B d bt dt Ha Hpos) as [[Hdone | Hgo] Hend].
  - by apply updates64_settled.
  - destruct dts as [| dt2 dts].
    + cbn in Hq |- *. by apply Hend.
    + by apply (IH _ (bt + dt)).
Qed.

(** C3, amended.  An Animator is playing clip [A] and has clip [B].  Then
    [transition_to(B, d)] with [d > 0] returns, and after it any run of
    at least one [update], whatever the [dt], such that the timer the
    Animator itself accumulates in binary64 (0.0, then [+= dt] per
    update), divided by [d], is not below 1.0, leaves the state Playing,
    [current_clip = B] and no blend clip. *)
Theorem transition_completes a (A B : string) d dts :
  F64.state a = PLAYING → F64.current_clip a = Some A →
  is_Some (F64.clips a !! B) →
  (0 <? d) = true → dts ≠ [] →
  (F64.timer dts / d <? 1) = false →
  ∃ a1,
    F64.transition_to a B d = (Ok (), a1) ∧
    let a2 := foldl (F64.update write_pose) a1 dts in
    F64.state a2 = PLAYING ∧ F64.current_clip a2 = Some B ∧
    F64.blend_clip a2 = None.
Proof.
  intros Hs Hc [cB HB] Hd Hne Hq.
  unfold F64.transition_to, F64.play. rewrite HB.
  destruct (truthy (F64.current_clip a)); eexists; (split; [done |]).
  - by apply (updates64_complete B d dts _ 0).
  - by apply updates64_settled.
Qed.

End transitions_binary64.

Section binary64_examples.
Import PrimFloat.

(** C3, as stated, fails on the code: [play('A')],
    [transition_to('B', 0.8)], then eight times [update(0.1)].  The eight
    [dt] are not negative and their sum is the duration, neither more nor
    less (both are the numbers the floats stand for); but the timer, which
    is rounded at each addition, reads 0.7999999999999999, and the
    Animator is still blending, on clip [A]. *)
Lemma transition_rounding_counterexample :
  let a := (F64.play F64.demo_animator "A" true 1%float).2 in
  let dts := repeat F64.tenth 8 in
  F64.state a = PLAYING ∧ F64.current_clip a = Some "A"%string ∧
  Forall (λ dt, (0 ≤ F64.units dt)%Z) dts ∧
  (F64.units F64.eight_tenths ≤ foldr Z.add 0%Z (F64.units <$> dts))%Z ∧
  ∃ a1,
    F64.transition_to a "B" F64.eight_tenths = (Ok (), a1) ∧
    let a2 := foldl (F64.update (λ _ sk, sk)) a1 dts in
    F64.state a2 = BLENDING ∧ F64.current_clip a2 = Some "A"%string ∧
    F64._blend_time a2 = 0x1.9999999999999p-1%float.
Proof.
  cbv zeta. split; [done |]. split; [done |].
  split; [repeat constructor; by vm_compute |].
  split; [by vm_compute |].
  eexists. split; [reflexivity |]. by vm_compute.
Qed.

Lemma transition_completes_witness :
  ∃ a1,
    F64.transition_to (F64.play F64.demo_animator "A" true 1%float).2 "B"
      0x1p-1%float = (Ok (), a1) ∧
    let a2 := foldl (F64.update (λ _ sk, sk)) a1 [0x1p-2; 0x1p-2]%float in
    F64.state a2 = PLAYING ∧ F64.current_clip a2 = Some "B"%string ∧
    F64.blend_clip a2 = None.
Proof.
  apply (transition_completes (λ _ sk, sk)
           (F64.play F64.demo_animator "A" true 1%float).2 "A" "B"
           0x1p-1%float [0x1p-2; 0x1p-2]%float).
  - reflexivity.
  - reflexivity.
  - by eexists.
  - by vm_compute.
  - done.
  - by vm_compute.
Defined.

End binary64_examples.

Section loops_binary64.
Import PrimFloat.
Local Open Scope float_scope.
Implicit Types (c : F64.Clip.t) (t : float).


End loops_binary64.

Section binary64_seam.
Import PrimFloat.



End binary64_seam.
